(** * Data Ingestion API: priority queue, rate-limited dispatch, status

    A shallow embedding of the ingestion service
    ([controllers/ingestController.js], [utils/priorityQueue.js],
    [services/ingestService.js]) and the properties of its admission
    scheduler.

    Conventions of the embedding.
    - A JavaScript number that holds a time is an integer number of
      milliseconds ([Z]); the time value of a [Date] is always integral.
      The scalar sort key [priorityMap[p] + createdAt.getTime() / 1e14]
      is the exact rational ([Q]); the rounding of IEEE doubles is not
      modelled.  For integral timestamps in [0, 1e14) two distinct keys
      are at least 1e-14 apart, far more than the spacing 2^-51 of the
      doubles below 4, so the doubles are ordered as the rationals are.
      Outside that range they are not: the statements that depend on the
      order of keys carry the range as a hypothesis, on the jobs
      ([fractional]) or on the clock of the execution.
    - [toUpperCase] changes the ASCII letters.  On strings of ASCII
      characters this is [String.prototype.toUpperCase]; the method of
      the program also changes letters beyond ASCII, and the statements
      on which priorities are refused are for ASCII strings.
    - Identifiers are strings.  [uuidv4] is an id source: an injective
      naming of a counter kept in the state.
    - The store is a plain JavaScript object: a finite map of its own
      properties, read through [js_get], which also sees the properties
      every object inherits from [Object.prototype].
    - A batch object is known by its place: the record that holds it and
      its index in the array [batches], which is never resized.
    - Asynchronous code is a transition system: one [Event] is one
      callback run to completion by the event loop.  The clock does not
      move during a callback and never runs backwards.
      [resetServiceStateForTesting] belongs to the tests and is no event.
    - [console.log] is left out. *)

From Stdlib Require Import ZArith QArith String Ascii.
From stdpp Require Import base list gmap strings pretty sorting.

Local Open Scope string_scope.
Local Open Scope list_scope.
Local Open Scope nat_scope.

(** ** Data model *)

Inductive Status := yet_to_start | triggered | completed | failed.

Inductive Priority := HIGH | MEDIUM | LOW.

#[global] Instance Status_eq_dec : EqDecision Status.
Proof. solve_decision. Defined.

#[global] Instance Priority_eq_dec : EqDecision Priority.
Proof. solve_decision. Defined.

(** A batch object [{ batch_id, ids, status }]. *)
Record Batch := {
  batch_id : string;
  ids : list Z;
  status : Status
}.

(** An entry of the job queue [{ ingestionId, batchId, priority, createdAt }]. *)
Record Job := {
  ingestionId : string;
  batchId : string;
  priority : Priority;
  createdAt : Z
}.

#[global] Instance Job_eq_dec : EqDecision Job.
Proof. solve_decision. Defined.

(** An entry of [ingestionStore]:
    [{ status, batches, priority, createdAt, original_ids }]. *)
Record IngestionRecord := {
  rec_status : Status;
  batches : list Batch;
  rec_priority : Priority;
  rec_createdAt : Z;
  original_ids : list Z
}.

(** ** utils/priorityQueue.js *)

Module PriorityQueue.

(** [this.priorityMap = { 'HIGH': 1, 'MEDIUM': 2, 'LOW': 3 }] *)
Definition priorityMap (p : Priority) : Z :=
  match p with HIGH => 1 | MEDIUM => 2 | LOW => 3 end.

(** [priorityMap[job.priority] + job.createdAt.getTime() / 1e14], as the
    exact rational; the program rounds it to a double, which keeps the
    order for timestamps in [0, 1e14). *)
Definition _getJobPriorityValue (job : Job) : Q :=
  (inject_Z (priorityMap (priority job)) + (createdAt job # 100000000000000))%Q.

(** The comparison [x < y] of two keys. *)
Definition Qltb (x y : Q) : bool := negb (Qle_bool y x).

(** The comparison [x <= y] of two keys. *)
Definition Qleb (x y : Q) : bool := Qle_bool x y.

(** [[h[i], h[j]] = [h[j], h[i]]] *)
Definition swap (heap : list Job) (i j : nat) : list Job :=
  match heap !! i, heap !! j with
  | Some a, Some b => <[i:=b]> (<[j:=a]> heap)
  | _, _ => heap
  end.

(** The [while (nodeIdx > 0)] loop of [_siftUp].  [nodeIdx] decreases at
    every round, so [fuel > nodeIdx] rounds are never used up
    (lemma [_siftUp_loop_fuel]). *)
Fixpoint _siftUp_loop (fuel : nat) (heap : list Job) (nodeIdx : nat) : list Job :=
  match fuel with
  | O => heap
  | S fuel' =>
    if decide (0 < nodeIdx) then
      let parentIdx := (nodeIdx - 1) / 2 in
      match heap !! nodeIdx, heap !! parentIdx with
      | Some n, Some p =>
        if Qltb (_getJobPriorityValue n) (_getJobPriorityValue p)
        then _siftUp_loop fuel' (swap heap nodeIdx parentIdx) parentIdx
        else heap
      | _, _ => heap
      end
    else heap
  end.

Definition _siftUp (heap : list Job) : list Job :=
  _siftUp_loop (length heap) heap (length heap - 1).

(** [this.heap.push(job); this._siftUp();] *)
Definition enqueue (heap : list Job) (job : Job) : list Job :=
  _siftUp (heap ++ [job]).

(** The choice of [smallestChildIdx] in one round of [_siftDown]. *)
Definition smallestChild (heap : list Job) (nodeIdx : nat) : option nat :=
  let leftChildIdx := 2 * nodeIdx + 1 in
  let rightChildIdx := 2 * nodeIdx + 2 in
  let smallestChildIdx :=
    if decide (leftChildIdx < length heap) then Some leftChildIdx else None in
  match heap !! rightChildIdx, heap !! leftChildIdx with
  | Some r, Some l =>
    if Qltb (_getJobPriorityValue r) (_getJobPriorityValue l)
    then Some rightChildIdx else smallestChildIdx
  | _, _ => smallestChildIdx
  end.

(** The [while (true)] loop of [_siftDown].  [nodeIdx] grows at every
    round and stays below the length, so [fuel + nodeIdx >= length]
    rounds are never used up (lemma [_siftDown_loop_fuel]). *)
Fixpoint _siftDown_loop (fuel : nat) (heap : list Job) (nodeIdx : nat) : list Job :=
  match fuel with
  | O => heap
  | S fuel' =>
    match smallestChild heap nodeIdx with
    | None => heap
    | Some smallestChildIdx =>
      match heap !! nodeIdx, heap !! smallestChildIdx with
      | Some n, Some c =>
        if Qleb (_getJobPriorityValue n) (_getJobPriorityValue c) then heap
        else _siftDown_loop fuel' (swap heap nodeIdx smallestChildIdx) smallestChildIdx
      | _, _ => heap
      end
    end
  end.

Definition _siftDown (heap : list Job) : list Job :=
  _siftDown_loop (length heap) heap 0.

Definition isEmpty (heap : list Job) : bool :=
  bool_decide (length heap = 0).

Definition size (heap : list Job) : nat := length heap.

Definition peek (heap : list Job) : option Job :=
  if isEmpty heap then None else heap !! 0.

(** [dequeue] returns [null] ([None]) on the empty queue, and otherwise
    the job at the root together with the heap that remains. *)
Definition dequeue (heap : list Job) : option (Job * list Job) :=
  if isEmpty heap then None
  else
    match heap !! 0, last heap with
    | Some job, Some lastJob =>
      let heap1 := take (length heap - 1) heap in   (* heap.pop() *)
      if decide (0 < length heap1)
      then Some (job, _siftDown (<[0:=lastJob]> heap1))
      else Some (job, heap1)
    | _, _ => None
    end.

End PriorityQueue.

Import PriorityQueue.

(** ** The environment: id source, clock, objects used as maps *)

(** The [k]-th identifier drawn from [uuidv4]. *)
Definition uuid_name (k : nat) : string := "uuid-" +:+ pretty k.

(** The property names every plain object inherits from
    [Object.prototype]; each of them reads as a truthy value. *)
Definition Object_prototype : list string :=
  [ "constructor"; "__defineGetter__"; "__defineSetter__"; "hasOwnProperty";
    "__lookupGetter__"; "__lookupSetter__"; "isPrototypeOf";
    "propertyIsEnumerable"; "toString"; "valueOf"; "__proto__";
    "toLocaleString" ].

(** The result of the property read [o[k]] on a plain object. *)
Inductive JsProperty (A : Type) :=
| Own (v : A)
| Inherited
| Undefined.
Arguments Own {A} v.
Arguments Inherited {A}.
Arguments Undefined {A}.

Definition js_get {A} (o : gmap string A) (k : string) : JsProperty A :=
  match o !! k with
  | Some v => Own v
  | None => if bool_decide (k ∈ Object_prototype) then Inherited else Undefined
  end.

(** [String.prototype.toUpperCase] on the ASCII letters; every other
    character is left as it is, which is what the method does on a
    string of ASCII characters ([is_ascii]). *)
Definition upper_ascii (c : ascii) : ascii :=
  let n := nat_of_ascii c in
  if (97 <=? n)%nat && (n <=? 122)%nat then ascii_of_nat (n - 32) else c.

Fixpoint toUpperCase (s : string) : string :=
  match s with
  | EmptyString => EmptyString
  | String c r => String (upper_ascii c) (toUpperCase r)
  end.

(** [['HIGH', 'MEDIUM', 'LOW'].includes(p)], with the priority it names. *)
Definition parsePriority (p : string) : option Priority :=
  if bool_decide (p = "HIGH") then Some HIGH
  else if bool_decide (p = "MEDIUM") then Some MEDIUM
  else if bool_decide (p = "LOW") then Some LOW
  else None.

(** ** services/ingestService.js *)

Definition RATE_LIMIT_MS : Z := 5000.
Definition BATCH_SIZE : nat := 3.

(** A suspended call of [processSingleBatch]: the batch object it holds
    (the [task_batch]-th batch of the record [task_ingestionId]) and the
    ids its loop has not finished, the first being awaited.  No id left:
    the call has returned and its [.then] callback is queued. *)
Record Task := {
  task_ingestionId : string;
  task_batch : nat;
  task_ids : list Z
}.

(** The module-level variables of the controller and of the service,
    the calls of [processSingleBatch] that are suspended, the id source
    and the clock.  [admissionLog] is no variable of the program: it
    records, for the statements, each admission with its time. *)
Record State := {
  ingestionStore : gmap string IngestionRecord;
  jobQueue : list Job;                  (* jobQueue.heap *)
  processingTimeoutId : option Z;       (* deadline of the pending timer *)
  lastProcessingStartTime : Z;
  running : list Task;
  uuidCounter : nat;
  clock : Z;                            (* Date.now() *)
  admissionLog : list (Z * Job)         (* observed admissions, newest first *)
}.

Definition initialState (t0 : Z) : State :=
  {| ingestionStore := ∅; jobQueue := []; processingTimeoutId := None;
     lastProcessingStartTime := 0; running := []; uuidCounter := 0;
     clock := t0; admissionLog := [] |}.

Definition set_ingestionStore (f : gmap string IngestionRecord → gmap string IngestionRecord)
    (s : State) : State :=
  {| ingestionStore := f (ingestionStore s); jobQueue := jobQueue s;
     processingTimeoutId := processingTimeoutId s;
     lastProcessingStartTime := lastProcessingStartTime s;
     running := running s; uuidCounter := uuidCounter s; clock := clock s;
     admissionLog := admissionLog s |}.

Definition set_jobQueue (q : list Job) (s : State) : State :=
  {| ingestionStore := ingestionStore s; jobQueue := q;
     processingTimeoutId := processingTimeoutId s;
     lastProcessingStartTime := lastProcessingStartTime s;
     running := running s; uuidCounter := uuidCounter s; clock := clock s;
     admissionLog := admissionLog s |}.

Definition set_processingTimeoutId (t : option Z) (s : State) : State :=
  {| ingestionStore := ingestionStore s; jobQueue := jobQueue s;
     processingTimeoutId := t;
     lastProcessingStartTime := lastProcessingStartTime s;
     running := running s; uuidCounter := uuidCounter s; clock := clock s;
     admissionLog := admissionLog s |}.

Definition set_lastProcessingStartTime (t : Z) (s : State) : State :=
  {| ingestionStore := ingestionStore s; jobQueue := jobQueue s;
     processingTimeoutId := processingTimeoutId s;
     lastProcessingStartTime := t;
     running := running s; uuidCounter := uuidCounter s; clock := clock s;
     admissionLog := admissionLog s |}.

Definition set_running (r : list Task) (s : State) : State :=
  {| ingestionStore := ingestionStore s; jobQueue := jobQueue s;
     processingTimeoutId := processingTimeoutId s;
     lastProcessingStartTime := lastProcessingStartTime s;
     running := r; uuidCounter := uuidCounter s; clock := clock s;
     admissionLog := admissionLog s |}.

Definition set_clock (t : Z) (s : State) : State :=
  {| ingestionStore := ingestionStore s; jobQueue := jobQueue s;
     processingTimeoutId := processingTimeoutId s;
     lastProcessingStartTime := lastProcessingStartTime s;
     running := running s; uuidCounter := uuidCounter s; clock := t;
     admissionLog := admissionLog s |}.

Definition log_admission (job : Job) (s : State) : State :=
  {| ingestionStore := ingestionStore s; jobQueue := jobQueue s;
     processingTimeoutId := processingTimeoutId s;
     lastProcessingStartTime := lastProcessingStartTime s;
     running := running s; uuidCounter := uuidCounter s; clock := clock s;
     admissionLog := (clock s, job) :: admissionLog s |}.

(** [uuidv4()] *)
Definition uuidv4 (s : State) : string * State :=
  (uuid_name (uuidCounter s),
   {| ingestionStore := ingestionStore s; jobQueue := jobQueue s;
      processingTimeoutId := processingTimeoutId s;
      lastProcessingStartTime := lastProcessingStartTime s;
      running := running s; uuidCounter := S (uuidCounter s); clock := clock s;
      admissionLog := admissionLog s |}).

Definition all_status (st : Status) (bs : list Batch) : bool :=
  forallb (fun b => bool_decide (status b = st)) bs.

Definition calculateOverallStatus (bs : list Batch) : Status :=
  if bool_decide (length bs = 0) then yet_to_start
  else if all_status yet_to_start bs then yet_to_start
  else if all_status completed bs then completed
  else triggered.

(** The outcome of a promise. *)
Inductive Settled (A : Type) :=
| Resolved (v : A)
| Rejected (e : string).
Arguments Resolved {A} v.
Arguments Rejected {A} e.

Record ApiData := { api_id : Z; api_data : string }.

(** The promise of [simulateApiCall] calls [resolve] from its timer and
    has no [reject]; the delay is left to the order of the events. *)
Definition simulateApiCall (id : Z) : Settled ApiData :=
  Resolved {| api_id := id; api_data := "processed" |}.

(** The assignment [batch.status = st]. *)
Definition with_status (st : Status) (b : Batch) : Batch :=
  {| batch_id := batch_id b; ids := ids b; status := st |}.

Definition with_batches (f : list Batch → list Batch) (r : IngestionRecord)
    : IngestionRecord :=
  {| rec_status := rec_status r; batches := f (batches r);
     rec_priority := rec_priority r; rec_createdAt := rec_createdAt r;
     original_ids := original_ids r |}.

(** [batch.status = st] on the batch object at place [i] of record [rid]. *)
Definition write_status (rid : string) (i : nat) (st : Status) (s : State) : State :=
  set_ingestionStore (alter (with_batches (alter (with_status st) i)) rid) s.

(** [ingestionStore[job.ingestionId]?.batches?.find(b => b.batch_id === job.batchId)],
    with the place of the batch found. *)
Definition find_batch (store : gmap string IngestionRecord) (job : Job)
    : option (nat * Batch) :=
  match js_get store (ingestionId job) with
  | Own ingestionData =>
    list_find (fun b => batch_id b = batchId job) (batches ingestionData)
  | _ => None
  end.

(** [processSingleBatch] up to its first [await]. *)
Definition processSingleBatch (rid : string) (i : nat) (batch : Batch) (s : State) : State :=
  match ids batch with
  | [] =>
    let s := write_status rid i completed s in
    set_running (running s ++ [{| task_ingestionId := rid; task_batch := i; task_ids := [] |}]) s
  | _ =>
    set_running (running s ++ [{| task_ingestionId := rid; task_batch := i;
                                  task_ids := ids batch |}]) s
  end.

(** [processQueue]; it calls itself after it has dropped a stale job, at
    most once per job in the queue.  [None]: out of fuel, which
    [processQueue_total] excludes.  The branch for a [null] job is kept
    as it is written, though the test [isEmpty] leaves no way into it. *)
Fixpoint processQueue_loop (fuel : nat) (s : State) : option State :=
  match fuel with
  | O => None
  | S fuel' =>
    if isEmpty (jobQueue s) then Some s
    else
      let now := clock s in
      let timeSinceLastProcessing := (now - lastProcessingStartTime s)%Z in
      if decide (timeSinceLastProcessing < RATE_LIMIT_MS)%Z then
        let remainingTime := (RATE_LIMIT_MS - timeSinceLastProcessing)%Z in
        Some (set_processingTimeoutId (Some (now + remainingTime)%Z) s)
      else
        match dequeue (jobQueue s) with
        | None => Some (set_lastProcessingStartTime 0 s)
        | Some (job, heap') =>
          let s := set_jobQueue heap' s in
          match find_batch (ingestionStore s) job with
          | Some (i, batchToProcess) =>
            if decide (status batchToProcess = yet_to_start) then
              let s := write_status (ingestionId job) i triggered s in
              let s := set_lastProcessingStartTime now s in
              let s := log_admission job s in
              Some (processSingleBatch (ingestionId job) i
                      (with_status triggered batchToProcess) s)
            else processQueue_loop fuel' s
          | None => processQueue_loop fuel' s
          end
        end
  end.

Definition processQueue (s : State) : option State :=
  processQueue_loop (S (length (jobQueue s))) s.

(** [ids.slice(i, j)] for [i <= j]. *)
Definition slice (l : list Z) (i j : nat) : list Z := take (j - i) (drop i l).

(** The [for (let i = 0; i < ids.length; i += BATCH_SIZE)] loop of
    [processIngestionRequest], from index [i] on. *)
Fixpoint batch_loop (fuel : nat) (i : nat) (rid : string) (l : list Z)
    (p : Priority) (t : Z) (bs : list Batch) (s : State) : list Batch * State :=
  match fuel with
  | O => (bs, s)
  | S fuel' =>
    if decide (i < length l) then
      let batchIds := slice l i (i + BATCH_SIZE) in
      let '(bid, s) := uuidv4 s in
      let batch := {| batch_id := bid; ids := batchIds; status := yet_to_start |} in
      let s := set_jobQueue
                 (enqueue (jobQueue s)
                    {| ingestionId := rid; batchId := bid; priority := p; createdAt := t |}) s in
      batch_loop fuel' (i + BATCH_SIZE) rid l p t (bs ++ [batch]) s
    else (bs, s)
  end.

(** [processIngestionRequest]: the loop, the three assignments to the
    record of the request (which the handler has stored), and the call
    of [processQueue]. *)
Definition processIngestionRequest (rid : string) (l : list Z) (p : Priority)
    (t : Z) (s : State) : option State :=
  let '(bs, s) := batch_loop (S (length l)) 0 rid l p t [] s in
  let s := set_ingestionStore
             (alter (fun r => {| rec_status := calculateOverallStatus bs;
                                 batches := bs; rec_priority := p;
                                 rec_createdAt := rec_createdAt r;
                                 original_ids := original_ids r |}) rid) s in
  processQueue s.

(** ** controllers/ingestController.js *)

(** The [priority] field of a request body. *)
Inductive JsPriority :=
| PriorityFalsy                  (* missing, null, 0, false *)
| PriorityString (p : string)
| PriorityOther.                 (* a truthy value that is not a string *)

(** The body of [POST /ingest]; [body_ids] is [None] when [ids] is
    missing or is not an array. *)
Record Body := {
  body_ids : option (list Z);
  body_priority : JsPriority
}.

Record StatusBody := {
  ingestion_id : string;
  overall_status : Status;
  status_batches : list Batch
}.

Inductive Response :=
| Accepted (ingestion_id : string)      (* 202 *)
| BadRequest (error : string)           (* 400 *)
| NotFound (error : string)             (* 404 *)
| Ok (body : StatusBody)                (* 200 *)
| Throws.                               (* TypeError, answered 500 *)

Definition ids_error : string :=
  "Invalid input: ids array is required and cannot be empty.".
Definition priority_error : string :=
  "Invalid input: priority is required and must be HIGH, MEDIUM, or LOW.".

Definition handleIngestRequest (body : Body) (s : State) : option (Response * State) :=
  match body_ids body with
  | None | Some [] => Some (BadRequest ids_error, s)
  | Some l =>
    match body_priority body with
    | PriorityFalsy => Some (BadRequest priority_error, s)
    | PriorityOther => Some (Throws, s)
    | PriorityString p =>
      if bool_decide (p = "") then Some (BadRequest priority_error, s)
      else
        match parsePriority (toUpperCase p) with
        | None => Some (BadRequest priority_error, s)
        | Some prio =>
          let '(ingestionId, s) := uuidv4 s in
          let createdAt := clock s in
          let s := set_ingestionStore
                     (insert ingestionId
                        {| rec_status := yet_to_start; batches := [];
                           rec_priority := prio; rec_createdAt := createdAt;
                           original_ids := l |}) s in
          match processIngestionRequest ingestionId l prio createdAt s with
          | Some s => Some (Accepted ingestionId, s)
          | None => None
          end
        end
    end
  end.

Definition getIngestionStatus (ingestionId : string) (s : State) : Response :=
  match js_get (ingestionStore s) ingestionId with
  | Undefined => NotFound "Ingestion ID not found."
  | Inherited => Throws
  | Own requestData =>
    Ok {| ingestion_id := ingestionId;
          overall_status := calculateOverallStatus (batches requestData);
          status_batches :=
            map (fun batch => {| batch_id := batch_id batch; ids := ids batch;
                                 status := status batch |}) (batches requestData) |}
  end.

(** ** The event loop *)

Inductive Event :=
| Tick (d : Z)               (* time passes *)
| PostIngest (body : Body)   (* POST /ingest *)
| TimerFires                 (* the timer set by processQueue *)
| ApiCallSettles (k : nat).  (* the promise awaited by the k-th running call *)

Definition without_task (k : nat) (s : State) : State :=
  set_running (delete k (running s)) s.

Definition step (e : Event) (s : State) : option State :=
  match e with
  | Tick d => if decide (0 ≤ d)%Z then Some (set_clock (clock s + d)%Z s) else None
  | PostIngest body => snd <$> handleIngestRequest body s
  | TimerFires =>
    match processingTimeoutId s with
    | Some deadline =>
      if decide (deadline ≤ clock s)%Z
      then processQueue (set_processingTimeoutId None s)
      else None
    | None => None
    end
  | ApiCallSettles k =>
    match running s !! k with
    | None => None
    | Some t =>
      match task_ids t with
      | [] => processQueue (without_task k s)
      | id :: rest =>
        match simulateApiCall id with
        | Resolved _ =>
          match rest with
          | [] =>
            processQueue
              (without_task k
                 (write_status (task_ingestionId t) (task_batch t) completed s))
          | _ =>
            Some (set_running
                    (<[k := {| task_ingestionId := task_ingestionId t;
                               task_batch := task_batch t; task_ids := rest |}]>
                       (running s)) s)
          end
        | Rejected _ =>
          processQueue
            (without_task k
               (write_status (task_ingestionId t) (task_batch t) failed s))
        end
      end
    end
  end.

Fixpoint run (es : list Event) (s : State) : option State :=
  match es with
  | [] => Some s
  | e :: es' =>
    match step e s with
    | Some s' => run es' s'
    | None => None
    end
  end.

(** The states of the executions that start at time [t0]. *)
Inductive reachable (t0 : Z) : State → Prop :=
| reachable_init : reachable t0 (initialState t0)
| reachable_step e s s' : reachable t0 s → step e s = Some s' → reachable t0 s'.

(** ** Notions used by the statements *)

(** [ceil(n / c)] *)
Definition ceil_div (n c : nat) : nat := (n + c - 1) / c.

(** The order of two keys. *)
Definition key_le (a b : Job) : Prop :=
  (_getJobPriorityValue a <= _getJobPriorityValue b)%Q.
Definition key_lt (a b : Job) : Prop :=
  (_getJobPriorityValue a < _getJobPriorityValue b)%Q.

(** The composite key [(priorityRank, createdAt)], in lexicographic order. *)
Definition composite_lt (a b : Job) : Prop :=
  (priorityMap (priority a) < priorityMap (priority b))%Z ∨
  (priorityMap (priority a) = priorityMap (priority b) ∧
   (createdAt a < createdAt b)%Z).

(** Timestamps whose scaled value [t / 1e14] is a proper fraction:
    the dates from 1970 up to the year 5138. *)
Definition fractional (j : Job) : Prop :=
  (0 ≤ createdAt j < 100000000000000)%Z.

Definition parent (i : nat) : nat := (i - 1) / 2.

(** The min-heap order of the array. *)
Definition heap_ok (h : list Job) : Prop :=
  ∀ i a p, 0 < i → h !! i = Some a → h !! parent i = Some p → key_le p a.

(** The heap order with the node [k] still on its way up. *)
Definition up_inv (h : list Job) (k : nat) : Prop :=
  (∀ i a p, 0 < i → i ≠ k → h !! i = Some a → h !! parent i = Some p → key_le p a) ∧
  (∀ c a g, 0 < k → 0 < c → parent c = k →
     h !! c = Some a → h !! parent k = Some g → key_le g a).

(** The heap order with the node [k] still on its way down. *)
Definition down_inv (h : list Job) (k : nat) : Prop :=
  (∀ i a p, 0 < i → parent i ≠ k → h !! i = Some a → h !! parent i = Some p → key_le p a) ∧
  (∀ c a g, 0 < k → 0 < c → parent c = k →
     h !! c = Some a → h !! parent k = Some g → key_le g a).

(** A sequence of operations on one queue. *)
Inductive QueueOp := Enqueue (job : Job) | Dequeue.

Definition apply_op (heap : list Job) (op : QueueOp) : list Job :=
  match op with
  | Enqueue job => enqueue heap job
  | Dequeue => match dequeue heap with Some (_, heap') => heap' | None => heap end
  end.

Definition run_ops (ops : list QueueOp) (heap : list Job) : list Job :=
  foldl apply_op heap ops.

Definition op_fractional (op : QueueOp) : Prop :=
  match op with Enqueue job => fractional job | Dequeue => True end.

(** The job that [processIngestionRequest] queues for a batch. *)
Definition job_of (rid : string) (p : Priority) (t : Z) (b : Batch) : Job :=
  {| ingestionId := rid; batchId := batch_id b; priority := p; createdAt := t |}.

(** A queued job is stale when its batch is gone or has left
    [yet_to_start]. *)
Definition stale (store : gmap string IngestionRecord) (job : Job) : Prop :=
  ∀ i b, find_batch store job = Some (i, b) → status b ≠ yet_to_start.

(** [discards store q q']: [q'] is what is left of [q] after stale jobs
    have been dequeued and dropped. *)
Inductive discards (store : gmap string IngestionRecord) : list Job → list Job → Prop :=
| discards_none q : discards store q q
| discards_more q job q' q'' :
    dequeue q = Some (job, q') → stale store job → discards store q' q'' →
    discards store q q''.

(** The state in which [processQueue] leaves an admission: the batch
    found for [job] at place [i] is triggered and handed to
    [processSingleBatch], the clock is recorded. *)
Definition admitted (job : Job) (q' : list Job) (i : nat) (b : Batch) (s : State) : State :=
  processSingleBatch (ingestionId job) i (with_status triggered b)
    (log_admission job
       (set_lastProcessingStartTime (clock s)
          (write_status (ingestionId job) i triggered (set_jobQueue q' s)))).

(** The four ways in which a call of [processQueue] ends. *)
Inductive pq_result (s : State) : State → Prop :=
| pq_empty :
    jobQueue s = [] → pq_result s s
| pq_wait :
    jobQueue s ≠ [] →
    (clock s - lastProcessingStartTime s < RATE_LIMIT_MS)%Z →
    pq_result s
      (set_processingTimeoutId
         (Some (clock s + (RATE_LIMIT_MS - (clock s - lastProcessingStartTime s)))%Z) s)
| pq_drained :
    jobQueue s ≠ [] →
    (RATE_LIMIT_MS ≤ clock s - lastProcessingStartTime s)%Z →
    discards (ingestionStore s) (jobQueue s) [] →
    pq_result s (set_jobQueue [] s)
| pq_admit q job q' i b :
    (RATE_LIMIT_MS ≤ clock s - lastProcessingStartTime s)%Z →
    discards (ingestionStore s) (jobQueue s) q →
    dequeue q = Some (job, q') →
    find_batch (ingestionStore s) job = Some (i, b) →
    status b = yet_to_start →
    pq_result s (admitted job q' i b s).

(** The state that [handleIngestRequest] hands to [processQueue]: the
    record is stored with its batches, the jobs are queued. *)
Definition registered (rid : string) (l : list Z) (p : Priority) (s0 : State)
    : State :=
  let s1 := set_ingestionStore
              (insert rid {| rec_status := yet_to_start; batches := [];
                             rec_priority := p; rec_createdAt := clock s0;
                             original_ids := l |}) (uuidv4 s0).2 in
  let '(bs, s2) := batch_loop (S (length l)) 0 rid l p (clock s0) [] s1 in
  set_ingestionStore
    (alter (fun r => {| rec_status := calculateOverallStatus bs;
                        batches := bs; rec_priority := p;
                        rec_createdAt := rec_createdAt r;
                        original_ids := original_ids r |}) rid) s2.

(** A body that passes the two checks of [handleIngestRequest]. *)
Definition valid_ids (body : Body) : Prop :=
  ∃ l, body_ids body = Some l ∧ l ≠ [].

Definition valid_priority (body : Body) : Prop :=
  ∃ p prio, body_priority body = PriorityString p ∧
            parsePriority (toUpperCase p) = Some prio.

(** The priority is, letter for letter, one of HIGH, MEDIUM, LOW. *)
Definition exact_priority (body : Body) : Prop :=
  ∃ p prio, body_priority body = PriorityString p ∧ parsePriority p = Some prio.

Definition fails_validation (body : Body) (s : State) : Prop :=
  ∃ msg s', handleIngestRequest body s = Some (BadRequest msg, s').

(** The batch object at place [i] of the record [rid]. *)
Definition batch_at (store : gmap string IngestionRecord) (rid : string) (i : nat)
    : option Batch :=
  store !! rid ≫= fun r => batches r !! i.

(** The priority and the creation time of the record [rid]. *)
Definition record_key (store : gmap string IngestionRecord) (rid : string)
    : option (Priority * Z) :=
  (fun r => (rec_priority r, rec_createdAt r)) <$> store !! rid.

(** The store after [batch.status = st] on the batch at place [i] of [rid]. *)
Definition store_write (rid : string) (i : nat) (st : Status)
    (store : gmap string IngestionRecord) : gmap string IngestionRecord :=
  alter (with_batches (alter (with_status st) i)) rid store.

(** The moves of a batch status:
    [yet_to_start → triggered → {completed, failed}]. *)
Definition advances (st st' : Status) : Prop :=
  st' = st ∨
  (st = yet_to_start ∧ st' = triggered) ∨
  (st = triggered ∧ (st' = completed ∨ st' = failed)).

(** The times of the admissions observed, newest first. *)
Definition admission_times (s : State) : list Z := fst <$> admissionLog s.

(** Every time is at least the rate-limit interval after the times that
    follow it in the list. *)
Fixpoint spaced (ts : list Z) : Prop :=
  match ts with
  | [] => True
  | t :: ts' => (∀ t', t' ∈ ts' → (RATE_LIMIT_MS ≤ t - t')%Z) ∧ spaced ts'
  end.

Definition rate_inv (s : State) : Prop :=
  spaced (admission_times s) ∧
  ∀ t, t ∈ admission_times s → (t ≤ lastProcessingStartTime s)%Z.

(** The batch object that a running call holds. *)
Definition task_ref (t : Task) : string * nat := (task_ingestionId t, task_batch t).

(** What holds of every state of an execution. *)
Record inv (s : State) : Prop := {
  inv_fresh : ∀ rid, is_Some (ingestionStore s !! rid) →
    ∃ k, k < uuidCounter s ∧ rid = uuid_name k;
  inv_batch : ∀ rid i b, batch_at (ingestionStore s) rid i = Some b →
    ids b ≠ [] ∧ status b ≠ failed;
  inv_task : ∀ k t, running s !! k = Some t →
    task_ids t ≠ [] ∧
    ∃ b, batch_at (ingestionStore s) (task_ingestionId t) (task_batch t) = Some b ∧
         status b = triggered;
  inv_task_nodup : NoDup (task_ref <$> running s);
  inv_triggered : ∀ rid i b, batch_at (ingestionStore s) rid i = Some b →
    status b = triggered → ∃ t, t ∈ running s ∧ task_ref t = (rid, i);
  inv_heap : heap_ok (jobQueue s);
  inv_pending : ∀ rid i b p t, batch_at (ingestionStore s) rid i = Some b →
    record_key (ingestionStore s) rid = Some (p, t) → status b = yet_to_start →
    job_of rid p t b ∈ jobQueue s;
  inv_job : ∀ job, job ∈ jobQueue s →
    record_key (ingestionStore s) (ingestionId job) = Some (priority job, createdAt job);
  inv_batch_id : ∀ rid i i' b b', batch_at (ingestionStore s) rid i = Some b →
    batch_at (ingestionStore s) rid i' = Some b' → batch_id b = batch_id b' → i = i';
  inv_clock : ∀ rid p t, record_key (ingestionStore s) rid = Some (p, t) →
    (t ≤ clock s)%Z;
  inv_fifo : ∀ rid1 rid2 p t1 t2 i1 b1 i2 b2,
    record_key (ingestionStore s) rid1 = Some (p, t1) →
    record_key (ingestionStore s) rid2 = Some (p, t2) →
    (t1 < t2)%Z →
    batch_at (ingestionStore s) rid2 i2 = Some b2 → status b2 ≠ yet_to_start →
    batch_at (ingestionStore s) rid1 i1 = Some b1 → status b1 ≠ yet_to_start
}.

(** Two requests and the events that let their batches through. *)
Definition demo_body1 : Body :=
  {| body_ids := Some [1; 2; 3; 4]%Z; body_priority := PriorityString "medium" |}.
Definition demo_body2 : Body :=
  {| body_ids := Some [7]%Z; body_priority := PriorityString "MEDIUM" |}.

Definition demo_events : list Event :=
  [ PostIngest demo_body1; Tick 100; PostIngest demo_body2;
    ApiCallSettles 0; ApiCallSettles 0; ApiCallSettles 0;
    Tick 4900; TimerFires; ApiCallSettles 0; Tick 5000; TimerFires ].

Definition demo_state : State :=
  default (initialState 0) (run demo_events (initialState 1000000)).

(** The state after the last call of [demo_state] has finished. *)
Definition demo_next : State :=
  default (initialState 0) (step (ApiCallSettles 0) demo_state).

(** The records of the two requests in [demo_state]. *)
Definition demo_record (rid : string) : IngestionRecord :=
  default {| rec_status := yet_to_start; batches := []; rec_priority := LOW;
             rec_createdAt := 0; original_ids := [] |}
          (ingestionStore demo_state !! rid).

(** The state that answers the first request of the demo. *)
Definition demo_first : State :=
  default (initialState 0)
    (snd <$> handleIngestRequest demo_body1 (initialState 1000000)).

(** A state whose queue holds a job of a request that is gone. *)
Definition stale_state : State :=
  {| ingestionStore := ∅;
     jobQueue := [ {| ingestionId := "gone"; batchId := "gone";
                      priority := LOW; createdAt := 5 |} ];
     processingTimeoutId := None; lastProcessingStartTime := 0; running := [];
     uuidCounter := 0; clock := 10000; admissionLog := [] |}.

(** ** Further code of the service, and notions for its properties *)

(** The jobs of a queue in the order in which repeated calls of
    [dequeue] return them. *)
Fixpoint drain (fuel : nat) (heap : list Job) : list Job :=
  match fuel with
  | O => []
  | S fuel' =>
    match dequeue heap with
    | Some (job, heap') => job :: drain fuel' heap'
    | None => []
    end
  end.

Definition dequeue_all (heap : list Job) : list Job :=
  drain (length heap) heap.

(** The loop [while (!jobQueue.isEmpty()) { jobQueue.dequeue(); }] of
    [resetServiceStateForTesting]. *)
Fixpoint dequeue_loop (fuel : nat) (heap : list Job) : list Job :=
  match fuel with
  | O => heap
  | S fuel' =>
    if isEmpty heap then heap
    else
      match dequeue heap with
      | Some (_, heap') => dequeue_loop fuel' heap'
      | None => heap
      end
  end.

(** [resetServiceStateForTesting]: the pending timer is cleared, the
    queue is emptied job by job, the time of the last admission is
    zeroed.  The program leaves the handle of a timer that has fired in
    its variable; [clearTimeout] does nothing with such a handle, so the
    state keeps the timer that is pending and no more. *)
Definition resetServiceStateForTesting (s : State) : State :=
  let s := match processingTimeoutId s with
           | Some _ => set_processingTimeoutId None s
           | None => s
           end in
  let s := set_jobQueue (dequeue_loop (length (jobQueue s)) (jobQueue s)) s in
  set_lastProcessingStartTime 0 s.

(** Three jobs of one request, as [processIngestionRequest] queues them. *)
Definition tie_job (n : string) : Job :=
  {| ingestionId := "r"; batchId := n; priority := MEDIUM; createdAt := 1000 |}.

(** Every queued job waits for a batch that is still [yet_to_start],
    and no job is queued twice. *)
Definition queue_inv (s : State) : Prop :=
  NoDup (jobQueue s) ∧
  ∀ job, job ∈ jobQueue s →
    ∃ i b, batch_at (ingestionStore s) (ingestionId job) i = Some b ∧
           batch_id b = batchId job ∧ status b = yet_to_start.

(** A waiting job has a wake-up pending, a timer is never set later
    than the end of the interval, and the time of the last admission is
    the time of the newest admission observed. *)
Definition sched_inv (s : State) : Prop :=
  (jobQueue s ≠ [] → running s ≠ [] ∨ is_Some (processingTimeoutId s)) ∧
  (∀ d, processingTimeoutId s = Some d →
     (d ≤ lastProcessingStartTime s + RATE_LIMIT_MS)%Z) ∧
  lastProcessingStartTime s = hd 0%Z (admission_times s).

(** What every stored record keeps. *)
Definition record_inv (s : State) : Prop :=
  ∀ rid r, ingestionStore s !! rid = Some r →
    rec_status r = yet_to_start ∧ batches r ≠ [] ∧
    concat (ids <$> batches r) = original_ids r.

(** The strings of ASCII characters.  On these [toUpperCase] is
    [String.prototype.toUpperCase]; beyond ASCII the method of the
    program changes more letters (it makes an I of the dotless i), and
    the statements on validation are for ASCII priorities. *)
Definition is_ascii (p : string) : bool :=
  forallb (fun c => Nat.ltb (nat_of_ascii c) 128) (list_ascii_of_string p).

Definition ascii_priority (body : Body) : Prop :=
  match body_priority body with
  | PriorityString p => is_ascii p = true
  | _ => True
  end.

(** The event [e], taken in state [s], settles the promise awaited by
    the call of [processSingleBatch] that holds the batch at place [i]
    of the record [rid]. *)
Definition settles (rid : string) (i : nat) (s : State) (e : Event) : bool :=
  match e with
  | ApiCallSettles k =>
    match running s !! k with
    | Some t => bool_decide (task_ref t = (rid, i))
    | None => false
    end
  | _ => false
  end.

(** An execution without end: the events taken, and the states they
    lead through. *)
Definition execution (sched : nat → Event) (st : nat → State) : Prop :=
  ∀ n, step (sched n) (st n) = Some (st (S n)).

(** The timers of [simulateApiCall] fire: whenever a call holds the
    batch, a promise it awaits is settled then or later. *)
Definition fair_for (rid : string) (i : nat) (sched : nat → Event)
    (st : nat → State) : Prop :=
  ∀ n k t, running (st n) !! k = Some t → task_ref t = (rid, i) →
    ∃ m, n ≤ m ∧ settles rid i (st m) (sched m) = true.

(** An execution without end from [demo_state]: its running call ends,
    then nothing happens any more. *)
Definition demo_sched (n : nat) : Event :=
  match n with 0 => ApiCallSettles 0 | S _ => Tick 0 end.

Definition demo_trace (n : nat) : State :=
  match n with 0 => demo_state | S _ => demo_next end.

(** A job named [n], for the examples. *)
Definition mkJob (p : Priority) (t : Z) (n : string) : Job :=
  {| ingestionId := n; batchId := n; priority := p; createdAt := t |}.

Definition sample_ops : list QueueOp :=
  [ Enqueue (mkJob LOW 5 "a"); Enqueue (mkJob MEDIUM 7 "b");
    Enqueue (mkJob HIGH 9 "c"); Dequeue; Enqueue (mkJob HIGH 9 "c") ].

(** * Properties *)

(** Projections of updated states. *)
Ltac state_simpl :=
  cbn [ingestionStore jobQueue processingTimeoutId lastProcessingStartTime
       running uuidCounter clock admissionLog
       set_ingestionStore set_jobQueue set_processingTimeoutId
       set_lastProcessingStartTime set_running set_clock log_admission
       uuidv4 write_status without_task fst snd] in *.

(** ** The priority queue *)

Lemma Qltb_lt x y : Qltb x y = true ↔ (x < y)%Q.
Proof.
  unfold Qltb. rewrite negb_true_iff, <- not_true_iff_false, Qle_bool_iff.
  split; [apply Qnot_le_lt | apply Qlt_not_le].
Qed.

Lemma Qltb_ge x y : Qltb x y = false ↔ (y <= x)%Q.
Proof. unfold Qltb. by rewrite negb_false_iff, Qle_bool_iff. Qed.

Lemma Qleb_le x y : Qleb x y = true ↔ (x <= y)%Q.
Proof. apply Qle_bool_iff. Qed.

Lemma Qleb_gt x y : Qleb x y = false ↔ (y < x)%Q.
Proof.
  unfold Qleb. rewrite <- not_true_iff_false, Qle_bool_iff.
  split; [apply Qnot_le_lt | apply Qlt_not_le].
Qed.

Lemma key_le_refl a : key_le a a.
Proof. apply Qle_refl. Qed.

Lemma key_le_trans a b c : key_le a b → key_le b c → key_le a c.
Proof. apply Qle_trans. Qed.

Lemma key_lt_le a b : key_lt a b → key_le a b.
Proof. apply Qlt_le_weak. Qed.

Lemma key_le_not_lt a b : key_le a b → ¬ key_lt b a.
Proof. apply Qle_not_lt. Qed.

(** The scalar key, cleared of its denominator. *)
Lemma key_lt_scaled a b :
  key_lt a b ↔
  (priorityMap (priority a) * 100000000000000 + createdAt a <
   priorityMap (priority b) * 100000000000000 + createdAt b)%Z.
Proof.
  unfold key_lt, _getJobPriorityValue, Qlt, Qplus, inject_Z.
  cbn [Qnum Qden]. lia.
Qed.

(** On proper fractions the scalar key orders the jobs as the composite
    key does. *)
Lemma key_lt_composite a b :
  fractional a → fractional b → (key_lt a b ↔ composite_lt a b).
Proof.
  unfold fractional, composite_lt. rewrite key_lt_scaled.
  destruct (priority a), (priority b); simpl; lia.
Qed.

(** For one priority the scalar key orders the jobs by their age, for
    every timestamp. *)
Lemma key_lt_same_priority a b :
  priority a = priority b → (key_lt a b ↔ (createdAt a < createdAt b)%Z).
Proof. intros Hp. rewrite key_lt_scaled, Hp. lia. Qed.

Lemma parent_lt i : 0 < i → parent i < i.
Proof. unfold parent. intros. apply Nat.Div0.div_lt_upper_bound. lia. Qed.

Lemma parent_children i c : 0 < c → (parent c = i ↔ c = 2 * i + 1 ∨ c = 2 * i + 2).
Proof.
  unfold parent. intros Hc. split.
  - intros <-. pose proof (Nat.div_mod_eq (c - 1) 2) as E.
    pose proof (Nat.mod_upper_bound (c - 1) 2). lia.
  - intros [-> | ->].
    + replace (2 * i + 1 - 1) with (i * 2) by lia. by rewrite Nat.div_mul.
    + replace (2 * i + 2 - 1) with (1 + i * 2) by lia.
      by rewrite Nat.div_add.
Qed.

Lemma swap_length h i j : length (swap h i j) = length h.
Proof.
  unfold swap. destruct (h !! i), (h !! j); try done. by rewrite !length_insert.
Qed.

Lemma swap_lookup h i j a b k :
  h !! i = Some a → h !! j = Some b →
  swap h i j !! k =
    if decide (k = i) then Some b else if decide (k = j) then Some a else h !! k.
Proof.
  intros Hi Hj. unfold swap. rewrite Hi, Hj.
  apply lookup_lt_Some in Hi as Hi'. apply lookup_lt_Some in Hj as Hj'.
  repeat case_decide; subst.
  - apply list_lookup_insert_eq. by rewrite length_insert.
  - rewrite list_lookup_insert_ne by done. by apply list_lookup_insert_eq.
  - by rewrite !list_lookup_insert_ne.
Qed.

Lemma swap_perm h i j : swap h i j ≡ₚ h.
Proof.
  unfold swap. destruct (h !! i) eqn:Hi, (h !! j) eqn:Hj; try done.
  by apply Permutation_insert_swap.
Qed.

Lemma up_inv_step h k n q :
  0 < k → h !! k = Some n → h !! parent k = Some q → key_lt n q →
  up_inv h k → up_inv (swap h k (parent k)) (parent k).
Proof.
  intros Hk Hn Hq Hlt [H1 H2]. pose proof (parent_lt k Hk) as Hpk.
  apply key_lt_le in Hlt as Hle. split.
  - intros i a pa Hi Hne. rewrite !(swap_lookup h k (parent k) n q) by done.
    intros Ha Hpa. pose proof (parent_lt i Hi).
    repeat case_decide; simplify_eq; try lia; eauto using key_le_trans.
    apply (key_le_trans _ q); [done|]. eapply H1; eauto. congruence.
  - intros c a g Hp Hc Hpc. rewrite !(swap_lookup h k (parent k) n q) by done.
    intros Ha Hg. pose proof (parent_lt _ Hp). pose proof (parent_lt c Hc).
    repeat case_decide; simplify_eq; try lia; eauto 6 using key_le_trans.
    apply (key_le_trans _ q); [eauto|]. eapply H1; eauto. congruence.
Qed.

Lemma up_inv_done h k n q :
  0 < k → h !! k = Some n → h !! parent k = Some q → key_le q n →
  up_inv h k → heap_ok h.
Proof.
  intros Hk Hn Hq Hle [H1 _] i a p Hi Ha Hp.
  destruct (decide (i = k)) as [->|]; simplify_eq; eauto.
Qed.

Lemma _siftUp_loop_S fuel h k :
  _siftUp_loop (S fuel) h k =
    if decide (0 < k) then
      match h !! k, h !! parent k with
      | Some n, Some p =>
        if Qltb (_getJobPriorityValue n) (_getJobPriorityValue p)
        then _siftUp_loop fuel (swap h k (parent k)) (parent k)
        else h
      | _, _ => h
      end
    else h.
Proof. reflexivity. Qed.

Lemma _siftUp_loop_ok fuel : ∀ h k,
  k < fuel → k < length h → up_inv h k → heap_ok (_siftUp_loop fuel h k).
Proof.
  induction fuel as [|fuel IH]; intros h k Hf Hlen Hinv; [lia|].
  rewrite _siftUp_loop_S. case_decide as Hk.
  - pose proof (parent_lt k Hk) as Hpk.
    destruct (lookup_lt_is_Some_2 h k Hlen) as [n Hn].
    destruct (lookup_lt_is_Some_2 h (parent k)) as [q Hq]; [lia|].
    rewrite Hn, Hq.
    destruct (Qltb _ _) eqn:Hcmp.
    + apply IH; [lia|rewrite swap_length; lia|].
      apply (up_inv_step h k n q); try done. by apply Qltb_lt.
    + apply (up_inv_done h k n q); try done. by apply Qltb_ge.
  - destruct Hinv as [H1 _]. intros i a p Hi. apply H1; lia.
Qed.

Lemma _siftUp_loop_perm fuel : ∀ h k, _siftUp_loop fuel h k ≡ₚ h.
Proof.
  induction fuel as [|fuel IH]; intros h k; [done|].
  rewrite _siftUp_loop_S. case_decide; [|done].
  destruct (h !! k), (h !! parent k); try done.
  destruct (Qltb _ _); [|done]. by rewrite IH, swap_perm.
Qed.

(** The loop of [_siftUp] stops on its own condition: more fuel than the
    index of the node changes nothing. *)
Lemma _siftUp_loop_fuel f1 : ∀ f2 h k,
  k < f1 → k < f2 → _siftUp_loop f1 h k = _siftUp_loop f2 h k.
Proof.
  induction f1 as [|f1 IH]; intros [|f2] h k H1 H2; try lia.
  rewrite !_siftUp_loop_S. case_decide as Hk; [|done].
  pose proof (parent_lt k Hk).
  destruct (h !! k), (h !! parent k); try done.
  destruct (Qltb _ _); [|done]. apply IH; lia.
Qed.

Lemma enqueue_perm h j : enqueue h j ≡ₚ j :: h.
Proof.
  unfold enqueue, _siftUp. rewrite _siftUp_loop_perm.
  by rewrite Permutation_app_comm.
Qed.

Lemma enqueue_ok h j : heap_ok h → heap_ok (enqueue h j).
Proof.
  intros Hh. unfold enqueue, _siftUp.
  apply _siftUp_loop_ok; rewrite ?length_app; simpl; try lia.
  replace (length h + 1 - 1) with (length h) by lia. split.
  - intros i a p Hi Hne Ha Hp.
    assert (i < length h).
    { apply lookup_lt_Some in Ha. rewrite length_app in Ha. simpl in Ha. lia. }
    pose proof (parent_lt i Hi).
    rewrite lookup_app_l in Ha, Hp by lia. eauto.
  - intros c a g _ Hc Hpc Ha. apply lookup_lt_Some in Ha.
    rewrite length_app in Ha. simpl in Ha.
    pose proof (parent_lt c Hc). lia.
Qed.

Lemma smallestChild_Some h k m :
  smallestChild h k = Some m →
  parent m = k ∧ 0 < m ∧ m < length h ∧
  ∀ c x y, 0 < c → parent c = k → h !! c = Some x → h !! m = Some y → key_le y x.
Proof.
  unfold smallestChild. intros Hm.
  assert (Hcases : (m = 2 * k + 1 ∧ ∀ r l, h !! (2 * k + 2) = Some r →
                       h !! (2 * k + 1) = Some l → key_le l r) ∨
                   (m = 2 * k + 2 ∧ ∀ r l, h !! (2 * k + 2) = Some r →
                       h !! (2 * k + 1) = Some l → key_le r l)).
  { destruct (h !! (2 * k + 2)) as [r|] eqn:Hr, (h !! (2 * k + 1)) as [l|] eqn:Hl;
      try (case_decide; simplify_eq; left; split; [done|]; intros; simplify_eq).
    destruct (Qltb _ _) eqn:Hcmp.
    - simplify_eq. right. split; [done|]. intros; simplify_eq.
      by apply key_lt_le, Qltb_lt.
    - case_decide; simplify_eq. left. split; [done|]. intros; simplify_eq.
      by apply Qltb_ge. }
  assert (m < length h).
  { destruct (h !! (2 * k + 2)) as [r|] eqn:Hr, (h !! (2 * k + 1)) as [l|] eqn:Hl;
      try (case_decide; simplify_eq; lia).
    apply lookup_lt_Some in Hr, Hl. destruct (Qltb _ _); simplify_eq; [lia|].
    case_decide; simplify_eq. lia. }
  assert (0 < m) by (destruct Hcases as [[-> _]|[-> _]]; lia).
  split_and!; try done.
  { apply parent_children; [done|]. destruct Hcases as [[-> _]|[-> _]]; lia. }
  intros c x y Hc Hpc Hx Hy.
  apply (proj1 (parent_children k c Hc)) in Hpc as [->| ->].
  - destruct Hcases as [[-> _]|[-> Hc']]; simplify_eq; [apply key_le_refl|eauto].
  - destruct Hcases as [[-> Hc']|[-> _]]; simplify_eq; [eauto|apply key_le_refl].
Qed.

Lemma smallestChild_None h k : smallestChild h k = None → length h ≤ 2 * k + 1.
Proof.
  unfold smallestChild.
  destruct (h !! (2 * k + 2)) as [r|] eqn:Hr, (h !! (2 * k + 1)) as [l|] eqn:Hl;
    try (case_decide; intros; simplify_eq; lia).
  destruct (Qltb _ _); [done|]. case_decide; intros; simplify_eq; lia.
Qed.

Lemma _siftDown_loop_S fuel h k :
  _siftDown_loop (S fuel) h k =
    match smallestChild h k with
    | None => h
    | Some m =>
      match h !! k, h !! m with
      | Some n, Some c =>
        if Qleb (_getJobPriorityValue n) (_getJobPriorityValue c) then h
        else _siftDown_loop fuel (swap h k m) m
      | _, _ => h
      end
    end.
Proof. reflexivity. Qed.

Lemma down_inv_step h k m n c :
  smallestChild h k = Some m → h !! k = Some n → h !! m = Some c →
  key_lt c n → down_inv h k → down_inv (swap h k m) m.
Proof.
  intros (Hpm & Hm & Hlen & Hmin)%smallestChild_Some Hn Hc Hlt [H1 H2].
  pose proof (parent_lt m Hm) as Hpk. apply key_lt_le in Hlt as Hle. split.
  - intros i a pa Hi Hne. rewrite !(swap_lookup h k m n c) by done.
    intros Ha Hpa. pose proof (parent_lt i Hi).
    repeat case_decide; simplify_eq; try lia; eauto using key_le_trans.
  - intros d a g _ Hd Hpd. rewrite !(swap_lookup h k m n c) by done.
    intros Ha Hg. pose proof (parent_lt d Hd).
    repeat case_decide; simplify_eq; try lia; eauto using key_le_trans.
    eapply H1; eauto; lia.
Qed.

Lemma down_inv_leaf h k : length h ≤ 2 * k + 1 → down_inv h k → heap_ok h.
Proof.
  intros Hlen [H1 _] i a p Hi Ha Hp.
  destruct (decide (parent i = k)) as [Hk|]; [|eauto].
  apply lookup_lt_Some in Ha. apply parent_children in Hk; lia.
Qed.

Lemma down_inv_done h k m n c :
  smallestChild h k = Some m → h !! k = Some n → h !! m = Some c →
  key_le n c → down_inv h k → heap_ok h.
Proof.
  intros (Hpm & Hm & Hlen & Hmin)%smallestChild_Some Hn Hc Hle [H1 _] i a p Hi Ha Hp.
  destruct (decide (parent i = k)) as [Hk|]; [|eauto].
  subst k. rewrite Hk in Hp. simplify_eq.
  apply (key_le_trans _ c); [done|]. by apply (Hmin i).
Qed.

Lemma _siftDown_loop_ok fuel : ∀ h k,
  length h ≤ fuel + k → down_inv h k → heap_ok (_siftDown_loop fuel h k).
Proof.
  induction fuel as [|fuel IH]; intros h k Hf Hinv.
  { simpl. apply (down_inv_leaf h k); [lia|done]. }
  rewrite _siftDown_loop_S.
  destruct (smallestChild h k) as [m|] eqn:Hm.
  - destruct (smallestChild_Some _ _ _ Hm) as (Hpm & Hm0 & Hlen & _).
    pose proof (parent_lt m Hm0).
    destruct (lookup_lt_is_Some_2 h k) as [n Hn]; [lia|].
    destruct (lookup_lt_is_Some_2 h m Hlen) as [c Hc].
    rewrite Hn, Hc. destruct (Qleb _ _) eqn:Hcmp.
    + apply (down_inv_done h k m n c); try done. by apply Qleb_le.
    + apply IH; [rewrite swap_length; lia|].
      apply (down_inv_step h k m n c); try done. by apply Qleb_gt.
  - apply (down_inv_leaf h k); [|done]. by apply smallestChild_None.
Qed.

Lemma _siftDown_loop_perm fuel : ∀ h k, _siftDown_loop fuel h k ≡ₚ h.
Proof.
  induction fuel as [|fuel IH]; intros h k; [done|].
  rewrite _siftDown_loop_S. destruct (smallestChild h k); [|done].
  destruct (h !! k), (h !! n); try done.
  destruct (Qleb _ _); [done|]. by rewrite IH, swap_perm.
Qed.

(** The loop of [_siftDown] stops on its own condition. *)
Lemma _siftDown_loop_fuel f1 : ∀ f2 h k,
  length h ≤ f1 + k → length h ≤ f2 + k →
  _siftDown_loop f1 h k = _siftDown_loop f2 h k.
Proof.
  induction f1 as [|f1 IH]; intros f2 h k H1 H2.
  - destruct f2; [done|]. rewrite _siftDown_loop_S. simpl.
    destruct (smallestChild h k) as [m|] eqn:Hm; [|done].
    apply smallestChild_Some in Hm as (Hpm & Hm0 & Hlen & _).
    pose proof (parent_lt m Hm0). lia.
  - rewrite _siftDown_loop_S.
    destruct (smallestChild h k) as [m|] eqn:Hm.
    + destruct (smallestChild_Some _ _ _ Hm) as (Hpm & Hm0 & Hlen & _).
      pose proof (parent_lt m Hm0).
      destruct f2 as [|f2]; [lia|]. rewrite _siftDown_loop_S, Hm.
      destruct (h !! k), (h !! m); try done.
      destruct (Qleb _ _); [done|]. apply IH; rewrite swap_length; lia.
    + destruct f2; [done|]. by rewrite _siftDown_loop_S, Hm.
Qed.

Lemma isEmpty_true h : isEmpty h = true ↔ h = [].
Proof.
  unfold isEmpty. rewrite bool_decide_eq_true. by destruct h.
Qed.

Lemma dequeue_None h : dequeue h = None ↔ h = [].
Proof.
  unfold dequeue. destruct h as [|j h]; [done|]. simpl.
  split; [|done]. destruct (last (j :: h)) eqn:Hl.
  - by case_decide.
  - by apply last_None in Hl.
Qed.

(** What [dequeue] does to a queue that is not empty: the root leaves,
    the last job takes its place and sinks. *)
Lemma dequeue_cons j h :
  dequeue (j :: h) =
    Some (j, match last h with
             | Some lastJob => _siftDown (lastJob :: removelast h)
             | None => []
             end).
Proof.
  unfold dequeue. simpl isEmpty. cbn iota.
  change ((j :: h) !! 0) with (Some j).
  destruct h as [|x h' _] using rev_ind.
  { reflexivity. }
  rewrite last_snoc, removelast_last.
  replace (last (j :: h' ++ [x])) with (Some x)
    by (by rewrite app_comm_cons, last_snoc).
  replace (take (length (j :: h' ++ [x]) - 1) (j :: h' ++ [x])) with (j :: h').
  2:{ replace (length (j :: h' ++ [x]) - 1) with (length (j :: h'))
        by (simpl; rewrite length_app; simpl; lia).
      by rewrite app_comm_cons, take_app_length. }
  case_decide; [done|]. simpl in *. lia.
Qed.

Lemma dequeue_perm h j h' : dequeue h = Some (j, h') → h ≡ₚ j :: h'.
Proof.
  destruct h as [|x h]; [done|]. rewrite dequeue_cons. intros [= -> <-].
  constructor. destruct h as [|y h0 _] using rev_ind; [done|].
  rewrite last_snoc, removelast_last. unfold _siftDown.
  rewrite _siftDown_loop_perm. by rewrite Permutation_app_comm.
Qed.

Lemma dequeue_root h j h' : dequeue h = Some (j, h') → h !! 0 = Some j.
Proof. destruct h as [|x h]; [done|]. rewrite dequeue_cons. by intros [= -> _]. Qed.

Lemma dequeue_length h j h' : dequeue h = Some (j, h') → length h = S (length h').
Proof. intros H%dequeue_perm. by rewrite H. Qed.

Lemma dequeue_ok h j h' : heap_ok h → dequeue h = Some (j, h') → heap_ok h'.
Proof.
  intros Hh. destruct h as [|x h]; [done|]. rewrite dequeue_cons. intros [= -> <-].
  destruct h as [|y h0 _] using rev_ind.
  { simpl. intros i a p Hi Ha. by rewrite lookup_nil in Ha. }
  rewrite last_snoc, removelast_last. unfold _siftDown.
  apply _siftDown_loop_ok; [lia|]. split.
  - intros i a p Hi Hp Ha Hpa.
    destruct i as [|i]; [lia|]. simpl in Ha.
    destruct (parent (S i)) as [|pi] eqn:Hpi; [done|]. simpl in Hpa.
    apply (Hh (S i) a p); [lia|..].
    + simpl. by apply lookup_app_l_Some.
    + rewrite Hpi. simpl. by apply lookup_app_l_Some.
  - intros; lia.
Qed.

(** The root of a heap has the least key. *)
Lemma heap_ok_root h r : heap_ok h → h !! 0 = Some r → ∀ a, a ∈ h → key_le r a.
Proof.
  intros Hh Hr a [i Hi]%list_elem_of_lookup. revert a Hi.
  induction i as [i IH] using lt_wf_ind. intros a Hi.
  destruct (decide (i = 0)) as [->|]; [simplify_eq; apply key_le_refl|].
  assert (0 < i) as Hi0 by lia. pose proof (parent_lt i Hi0).
  destruct (lookup_lt_is_Some_2 h (parent i)) as [p Hp].
  { apply lookup_lt_Some in Hi. lia. }
  eapply key_le_trans; [by apply (IH (parent i))|]. by apply (Hh i).
Qed.

(** [dequeue] returns a job whose key is least among the jobs queued. *)
Lemma dequeue_least h j h' :
  heap_ok h → dequeue h = Some (j, h') → ∀ a, a ∈ h → key_le j a.
Proof. intros Hh Hd. apply heap_ok_root; [done|]. by apply (dequeue_root h j h'). Qed.

Lemma heap_ok_nil : heap_ok [].
Proof. intros i a p _ Ha. by rewrite lookup_nil in Ha. Qed.

Lemma apply_op_ok h op : heap_ok h → heap_ok (apply_op h op).
Proof.
  intros Hh. destruct op as [j|]; simpl; [by apply enqueue_ok|].
  destruct (dequeue h) as [[j h']|] eqn:Hd; [|done]. by apply (dequeue_ok h j h').
Qed.

Lemma apply_op_fractional h op :
  op_fractional op → Forall fractional h → Forall fractional (apply_op h op).
Proof.
  intros Hop Hh. destruct op as [j|]; simpl.
  - rewrite enqueue_perm. by constructor.
  - destruct (dequeue h) as [[j h']|] eqn:Hd; [|done].
    apply dequeue_perm in Hd. rewrite Hd in Hh. by apply Forall_cons in Hh as [_ ?].
Qed.

Lemma run_ops_inv ops : ∀ h,
  heap_ok h → Forall op_fractional ops → Forall fractional h →
  heap_ok (run_ops ops h) ∧ Forall fractional (run_ops ops h).
Proof.
  unfold run_ops. induction ops as [|op ops IH]; intros h Hh Hops Hfr; [done|].
  apply Forall_cons in Hops as [Hop Hops]. simpl.
  apply IH; [by apply apply_op_ok|done|by apply apply_op_fractional].
Qed.

Lemma run_ops_ok ops : heap_ok (run_ops ops []).
Proof.
  unfold run_ops. generalize heap_ok_nil. generalize (@nil Job).
  induction ops as [|op ops IH]; intros h Hh; [done|].
  simpl. by apply IH, apply_op_ok.
Qed.

(** Whatever the timestamps, [dequeue] never returns a job while a job
    of a strictly smaller scalar key [rank + createdAt / 1e14] waits. *)
Lemma dequeue_respects_scalar_key ops h b h' a :
  run_ops ops [] = h → dequeue h = Some (b, h') → a ∈ h → ¬ key_lt a b.
Proof.
  intros <- Hd Ha. apply key_le_not_lt.
  apply (dequeue_least (run_ops ops []) b h'); [apply run_ops_ok|done..].
Qed.

(** C5, as stated, fails for a timestamp that is no proper fraction of
    1e14: the HIGH job created at 2e14 ms has key 3, the MEDIUM job
    created at 0 has key 2 and is dequeued first. *)
Lemma dequeue_composite_key_counterexample :
  ¬ (∀ ops h b h' a,
       run_ops ops [] = h → dequeue h = Some (b, h') → a ∈ h → ¬ composite_lt a b).
Proof.
  intros H.
  apply (H [Enqueue (mkJob HIGH 200000000000000 "h"); Enqueue (mkJob MEDIUM 0 "m")]
           _ (mkJob MEDIUM 0 "m") [mkJob HIGH 200000000000000 "h"]
           (mkJob HIGH 200000000000000 "h") eq_refl).
  - vm_compute. reflexivity.
  - vm_compute. apply list_elem_of_In. right. left. reflexivity.
  - left. simpl. lia.
Qed.

(** C5 (amended): over every sequence of enqueue and dequeue operations
    whose jobs carry timestamps in [0, 1e14) ms, no job is dequeued while
    a job with a strictly smaller composite key (priorityRank, createdAt)
    is in the queue. *)
Theorem dequeue_respects_composite_key ops h b h' a :
  Forall op_fractional ops →
  run_ops ops [] = h → dequeue h = Some (b, h') → a ∈ h → ¬ composite_lt a b.
Proof.
  intros Hops <- Hd Ha.
  destruct (run_ops_inv ops [] heap_ok_nil Hops (Forall_nil_2 _)) as [Hh Hfr].
  rewrite Forall_forall in Hfr.
  assert (b ∈ run_ops ops []).
  { apply dequeue_perm in Hd. rewrite Hd. by left. }
  rewrite <- key_lt_composite by eauto.
  apply key_le_not_lt. by apply (dequeue_least (run_ops ops []) b h').
Qed.

Lemma dequeue_respects_composite_key_witness :
  ¬ composite_lt (mkJob LOW 5 "a") (mkJob HIGH 9 "c").
Proof.
  apply (dequeue_respects_composite_key sample_ops (run_ops sample_ops [])
           (mkJob HIGH 9 "c") [mkJob MEDIUM 7 "b"; mkJob LOW 5 "a"]
           (mkJob LOW 5 "a")).
  - repeat constructor; vm_compute; intuition discriminate.
  - reflexivity.
  - vm_compute. reflexivity.
  - vm_compute. apply list_elem_of_In. right. left. reflexivity.
Defined.

(** ** The status aggregator *)

Lemma all_status_Forall st bs :
  all_status st bs = true ↔ Forall (fun b => status b = st) bs.
Proof.
  unfold all_status. rewrite forallb_forall, Forall_forall.
  split; intros H b Hb.
  - apply list_elem_of_In in Hb. apply H in Hb. by apply bool_decide_eq_true in Hb.
  - apply bool_decide_eq_true. apply H. by apply list_elem_of_In.
Qed.

Lemma calculateOverallStatus_cases bs :
  (Forall (fun b => status b = yet_to_start) bs ∧
     calculateOverallStatus bs = yet_to_start) ∨
  (¬ Forall (fun b => status b = yet_to_start) bs ∧ bs ≠ [] ∧
     Forall (fun b => status b = completed) bs ∧
     calculateOverallStatus bs = completed) ∨
  (¬ Forall (fun b => status b = yet_to_start) bs ∧
     ¬ Forall (fun b => status b = completed) bs ∧
     calculateOverallStatus bs = triggered).
Proof.
  unfold calculateOverallStatus. case_bool_decide as Hlen.
  - left. destruct bs; [by split|done].
  - assert (bs ≠ []) by (by intros ->).
    destruct (all_status yet_to_start bs) eqn:Hy.
    + left. split; [by apply all_status_Forall|done].
    + assert (¬ Forall (fun b => status b = yet_to_start) bs).
      { rewrite <- all_status_Forall. congruence. }
      destruct (all_status completed bs) eqn:Hc.
      * right; left. repeat split; try done. by apply all_status_Forall.
      * right; right. repeat split; try done.
        rewrite <- all_status_Forall. congruence.
Qed.

(** C4, as stated, fails on the empty list: every batch of the empty
    list is completed, and the aggregator answers [yet_to_start]. *)
Lemma calculateOverallStatus_empty_not_completed :
  ¬ (calculateOverallStatus [] = completed ↔
     Forall (fun b => status b = completed) []).
Proof. intros [_ H]. discriminate H. constructor. Qed.

(** C4 (amended): the aggregator answers [yet_to_start] iff every batch
    is [yet_to_start], [completed] iff there is a batch and every batch is
    [completed], and [triggered] in all other cases; a list with a
    [failed] batch is answered [triggered], never [completed]. *)
Theorem calculateOverallStatus_spec (bs : list Batch) :
  (calculateOverallStatus bs = yet_to_start ↔
     Forall (fun b => status b = yet_to_start) bs) ∧
  (calculateOverallStatus bs = completed ↔
     bs ≠ [] ∧ Forall (fun b => status b = completed) bs) ∧
  (calculateOverallStatus bs = triggered ↔
     ¬ Forall (fun b => status b = yet_to_start) bs ∧
     ¬ (bs ≠ [] ∧ Forall (fun b => status b = completed) bs)) ∧
  (Exists (fun b => status b = failed) bs →
     calculateOverallStatus bs = triggered ∧ calculateOverallStatus bs ≠ completed).
Proof.
  assert (Hyc : ∀ l : list Batch, l ≠ [] →
            Forall (fun b => status b = yet_to_start) l →
            Forall (fun b => status b = completed) l → False).
  { intros [|b l] Hne Hy Hc; [done|].
    apply Forall_cons in Hy as [Hy _]. apply Forall_cons in Hc as [Hc _]. congruence. }
  assert (Hf : Exists (fun b => status b = failed) bs →
            ¬ Forall (fun b => status b = yet_to_start) bs ∧
            ¬ Forall (fun b => status b = completed) bs).
  { intros (b & Hb & Hb')%Exists_exists. rewrite !Forall_forall.
    split; intros Hall; apply Hall in Hb; congruence. }
  specialize (Hyc bs).
  destruct (calculateOverallStatus_cases bs)
    as [[Hy ->]|[(Hy & Hne & Hc & ->)|(Hy & Hc & ->)]];
    split_and!; try split; try done; naive_solver.
Qed.

Lemma calculateOverallStatus_spec_witness :
  calculateOverallStatus
    [ {| batch_id := "b1"; ids := [1%Z]; status := completed |};
      {| batch_id := "b2"; ids := [2%Z]; status := failed |} ] = triggered.
Proof.
  apply (calculateOverallStatus_spec
    [ {| batch_id := "b1"; ids := [1%Z]; status := completed |};
      {| batch_id := "b2"; ids := [2%Z]; status := failed |} ]).
  apply Exists_cons_tl, Exists_cons_hd. reflexivity.
Defined.

(** ** The batch splitter *)

Lemma slice_concat (l : list Z) i :
  slice l i (i + BATCH_SIZE) ++ drop (i + BATCH_SIZE) l = drop i l.
Proof.
  unfold slice. replace (i + BATCH_SIZE - i) with BATCH_SIZE by lia.
  rewrite <- drop_drop. apply take_drop.
Qed.

Lemma ceil_div_step n i :
  i < n → ceil_div (n - i) BATCH_SIZE = S (ceil_div (n - (i + BATCH_SIZE)) BATCH_SIZE).
Proof.
  unfold ceil_div, BATCH_SIZE. intros Hi.
  destruct (decide (n - i < 3)) as [Hs|Hs].
  - replace (n - (i + 3)) with 0 by lia.
    assert (n - i = 1 ∨ n - i = 2) as [->| ->] by lia; reflexivity.
  - replace (n - i + 3 - 1) with (1 * 3 + (n - (i + 3) + 3 - 1)) by lia.
    rewrite Nat.div_add_l by lia. lia.
Qed.

Lemma ceil_div_0 : ceil_div 0 BATCH_SIZE = 0.
Proof. reflexivity. Qed.

Lemma slice_length (l : list Z) i j : length (slice l i j) ≤ j - i.
Proof. unfold slice. rewrite length_take. lia. Qed.

Lemma slice_full (l : list Z) i j : j ≤ length l → length (slice l i j) = j - i.
Proof. unfold slice. intros. rewrite length_take, length_drop. lia. Qed.

Lemma slice_nonempty (l : list Z) i : i < length l → slice l i (i + BATCH_SIZE) ≠ [].
Proof.
  intros Hi H. apply (f_equal length) in H. unfold slice, BATCH_SIZE in H.
  rewrite length_take, length_drop in H. simpl in H. lia.
Qed.

(** What the loop of [processIngestionRequest] builds from index [i] on. *)
Lemma batch_loop_spec fuel rid p t : ∀ i l bs s bs' s',
  length l - i ≤ fuel →
  batch_loop fuel i rid l p t bs s = (bs', s') →
  ∃ new,
    bs' = bs ++ new ∧
    length new = ceil_div (length l - i) BATCH_SIZE ∧
    (∀ k b, new !! k = Some b →
       b = {| batch_id := uuid_name (uuidCounter s + k);
              ids := slice l (i + k * BATCH_SIZE) (i + k * BATCH_SIZE + BATCH_SIZE);
              status := yet_to_start |} ∧
       i + k * BATCH_SIZE < length l) ∧
    concat (ids <$> new) = drop i l ∧
    uuidCounter s' = uuidCounter s + length new ∧
    jobQueue s' ≡ₚ (job_of rid p t <$> new) ++ jobQueue s ∧
    (heap_ok (jobQueue s) → heap_ok (jobQueue s')) ∧
    ingestionStore s' = ingestionStore s ∧
    processingTimeoutId s' = processingTimeoutId s ∧
    lastProcessingStartTime s' = lastProcessingStartTime s ∧
    running s' = running s ∧ clock s' = clock s ∧
    admissionLog s' = admissionLog s.
Proof.
  assert (Hexit : ∀ i l bs (s : State), length l ≤ i →
    ∃ new : list Batch,
      bs = bs ++ new ∧ length new = ceil_div (length l - i) BATCH_SIZE ∧
      (∀ k b, new !! k = Some b →
         b = {| batch_id := uuid_name (uuidCounter s + k);
                ids := slice l (i + k * BATCH_SIZE) (i + k * BATCH_SIZE + BATCH_SIZE);
                status := yet_to_start |} ∧
         i + k * BATCH_SIZE < length l) ∧
      concat (ids <$> new) = drop i l ∧
      uuidCounter s = uuidCounter s + length new ∧
      jobQueue s ≡ₚ (job_of rid p t <$> new) ++ jobQueue s ∧
      (heap_ok (jobQueue s) → heap_ok (jobQueue s)) ∧
      ingestionStore s = ingestionStore s ∧
      processingTimeoutId s = processingTimeoutId s ∧
      lastProcessingStartTime s = lastProcessingStartTime s ∧
      running s = running s ∧ clock s = clock s ∧
      admissionLog s = admissionLog s).
  { intros i l bs s Hi. exists []. rewrite app_nil_r.
    replace (length l - i) with 0 by lia. rewrite drop_ge by lia.
    split_and!; try done; intros k b Hk; by rewrite lookup_nil in Hk. }
  induction fuel as [|fuel IH]; intros i l bs s bs' s' Hf; cbn [batch_loop].
  - intros [= <- <-]. apply Hexit. lia.
  - case_decide as Hi.
    + intros Hloop.
      apply IH in Hloop as (new & -> & Hlen & Hnew & Hcat & Hc & Hq & Hh & Hrest);
        [|unfold BATCH_SIZE; lia]. state_simpl.
      eexists (_ :: new). split; [by rewrite <- app_assoc|].
      split_and!; try apply Hrest.
      * cbn [length]. rewrite Hlen. symmetry. by apply ceil_div_step.
      * intros [|k] b Hk; cbn in Hk.
        -- simplify_eq. rewrite !Nat.add_0_r. done.
        -- apply Hnew in Hk as [-> Hk].
           split; [|unfold BATCH_SIZE in *; lia].
           f_equal; [f_equal; lia|]. unfold BATCH_SIZE. f_equal; lia.
      * cbn. rewrite Hcat. apply slice_concat.
      * cbn [length]. lia.
      * rewrite Hq, enqueue_perm. cbn. symmetry. apply Permutation_middle.
      * intros Hs. by apply Hh, enqueue_ok.
    + intros [= <- <-]. apply Hexit. lia.
Qed.

(** C3: a non-empty list of N items is split into ceil(N/3) batches,
    batch k holds items[3k : 3k+3], so it has at most 3 items and
    exactly 3 unless it is the last, and the batches concatenated give
    the list back. *)
Theorem batch_loop_chunks rid (l : list Z) p t s :
  l ≠ [] →
  let bs := (batch_loop (S (length l)) 0 rid l p t [] s).1 in
  length bs = ceil_div (length l) BATCH_SIZE ∧
  (∀ k b, bs !! k = Some b →
     ids b = slice l (k * BATCH_SIZE) (k * BATCH_SIZE + BATCH_SIZE) ∧
     length (ids b) ≤ BATCH_SIZE ∧
     (S k < length bs → length (ids b) = BATCH_SIZE)) ∧
  concat (ids <$> bs) = l.
Proof.
  intros Hne bs. subst bs.
  destruct (batch_loop _ _ _ _ _ _ _ _) as [bs s'] eqn:Hloop. simpl.
  apply batch_loop_spec in Hloop as (new & -> & Hlen & Hnew & Hcat & _); [|lia].
  simpl. rewrite Nat.sub_0_r in Hlen. split_and!; [done| |done].
  intros k b Hk. pose proof (lookup_lt_Some _ _ _ Hk) as Hk'.
  apply Hnew in Hk as [-> Hin]. simpl. split_and!; [done| |].
  - etrans; [apply slice_length|]. lia.
  - intros Hlast. rewrite slice_full; [lia|].
    rewrite Hlen in Hlast. unfold ceil_div, BATCH_SIZE in *.
    pose proof (Nat.div_mod_eq (length l + 3 - 1) 3).
    pose proof (Nat.mod_upper_bound (length l + 3 - 1) 3). lia.
Qed.

Lemma batch_loop_chunks_witness :
  [1; 2; 3; 4]%Z ≠ [] ∧
  concat (ids <$> (batch_loop 5 0 "r" [1; 2; 3; 4]%Z MEDIUM 0 [] (initialState 0)).1)
  = [1; 2; 3; 4]%Z.
Proof.
  split; [done|].
  apply (batch_loop_chunks "r" [1; 2; 3; 4]%Z MEDIUM 0 (initialState 0)). done.
Defined.

(** ** The dispatch loop *)

Lemma processQueue_loop_S fuel s :
  processQueue_loop (S fuel) s =
    if isEmpty (jobQueue s) then Some s
    else if decide (clock s - lastProcessingStartTime s < RATE_LIMIT_MS)%Z then
      Some (set_processingTimeoutId
              (Some (clock s + (RATE_LIMIT_MS - (clock s - lastProcessingStartTime s)))%Z) s)
    else
      match dequeue (jobQueue s) with
      | None => Some (set_lastProcessingStartTime 0 s)
      | Some (job, heap') =>
        match find_batch (ingestionStore s) job with
        | Some (i, b) =>
          if decide (status b = yet_to_start) then Some (admitted job heap' i b s)
          else processQueue_loop fuel (set_jobQueue heap' s)
        | None => processQueue_loop fuel (set_jobQueue heap' s)
        end
      end.
Proof. reflexivity. Qed.

Lemma pq_result_discard s job q1 s' :
  (RATE_LIMIT_MS ≤ clock s - lastProcessingStartTime s)%Z →
  dequeue (jobQueue s) = Some (job, q1) → stale (ingestionStore s) job →
  pq_result (set_jobQueue q1 s) s' → pq_result s s'.
Proof.
  intros Hrate Hd Hst Hres.
  assert (jobQueue s ≠ []) as Hne by (intros E; by rewrite E in Hd).
  inversion Hres as [Hq|Hq Hw|Hq _ Hdis|q job' q' i b _ Hdis Hd' Hf Hy];
    state_simpl; subst.
  - apply pq_drained; try done. eapply discards_more; eauto. constructor.
  - lia.
  - change (set_jobQueue [] (set_jobQueue q1 s)) with (set_jobQueue [] s).
    apply pq_drained; try done. eapply discards_more; eauto.
  - change (admitted job' q' i b (set_jobQueue q1 s)) with (admitted job' q' i b s).
    eapply pq_admit; eauto. eapply discards_more; eauto.
Qed.

Lemma processQueue_loop_result fuel : ∀ s s',
  processQueue_loop fuel s = Some s' → pq_result s s'.
Proof.
  induction fuel as [|fuel IH]; intros s s'; [done|].
  rewrite processQueue_loop_S.
  destruct (isEmpty (jobQueue s)) eqn:He.
  { intros [= <-]. apply pq_empty. by apply isEmpty_true. }
  assert (jobQueue s ≠ []) as Hne.
  { intros E%isEmpty_true. congruence. }
  case_decide as Hrate.
  { intros [= <-]. by apply pq_wait. }
  destruct (dequeue (jobQueue s)) as [[job q1]|] eqn:Hd.
  2:{ by apply dequeue_None in Hd. }
  destruct (find_batch (ingestionStore s) job) as [[i b]|] eqn:Hf.
  - case_decide as Hy.
    + intros [= <-]. eapply pq_admit; eauto; [lia|constructor].
    + intros Hrec%IH. eapply pq_result_discard; eauto; [lia|].
      intros i' b' Hf'. congruence.
  - intros Hrec%IH. eapply pq_result_discard; eauto; [lia|].
    intros i' b' Hf'. congruence.
Qed.

(** [processQueue] always returns: it drops at most the jobs queued. *)
Lemma processQueue_loop_total fuel : ∀ s,
  length (jobQueue s) < fuel → is_Some (processQueue_loop fuel s).
Proof.
  induction fuel as [|fuel IH]; intros s Hf; [lia|].
  rewrite processQueue_loop_S.
  destruct (isEmpty (jobQueue s)); [done|]. case_decide; [done|].
  destruct (dequeue (jobQueue s)) as [[job q1]|] eqn:Hd; [|done].
  apply dequeue_length in Hd.
  destruct (find_batch (ingestionStore s) job) as [[i b]|].
  - case_decide; [done|]. apply IH. state_simpl. lia.
  - apply IH. state_simpl. lia.
Qed.

Lemma processQueue_total s : is_Some (processQueue s).
Proof. apply processQueue_loop_total. lia. Qed.

Lemma processQueue_result s s' : processQueue s = Some s' → pq_result s s'.
Proof. apply processQueue_loop_result. Qed.

(** ** The two handlers *)

Lemma parsePriority_empty : parsePriority (toUpperCase "") = None.
Proof. reflexivity. Qed.

(** A body that passes both checks is registered and the queue is run. *)
Lemma handleIngestRequest_valid body s l p prio :
  body_ids body = Some l → l ≠ [] →
  body_priority body = PriorityString p →
  parsePriority (toUpperCase p) = Some prio →
  handleIngestRequest body s =
    (fun s' => (Accepted (uuid_name (uuidCounter s)), s')) <$>
      processQueue (registered (uuid_name (uuidCounter s)) l prio s).
Proof.
  intros Hl Hne Hp Hprio. unfold handleIngestRequest. rewrite Hl, Hp.
  destruct l as [|x l]; [done|].
  case_bool_decide as Hempty.
  { subst p. by rewrite parsePriority_empty in Hprio. }
  rewrite Hprio. unfold registered, processIngestionRequest. state_simpl.
  destruct (batch_loop _ _ _ _ _ _ _ _) as [bs s2].
  by destruct (processQueue _).
Qed.

Lemma handleIngestRequest_accepts body s :
  valid_ids body → valid_priority body →
  ∃ s', handleIngestRequest body s = Some (Accepted (uuid_name (uuidCounter s)), s').
Proof.
  intros (l & Hl & Hne) (p & prio & Hp & Hprio).
  rewrite (handleIngestRequest_valid body s l p prio) by done.
  destruct (processQueue_total (registered (uuid_name (uuidCounter s)) l prio s))
    as [s' ->]. by exists s'.
Qed.

(** C8, as stated, fails for a priority written in lower case: "high" is
    none of the strings HIGH, MEDIUM, LOW, and the request is accepted. *)
Lemma lowercase_priority_accepted :
  ¬ (∀ body s, body_priority body ≠ PriorityOther →
       (fails_validation body s ↔ ¬ valid_ids body ∨ ¬ exact_priority body)).
Proof.
  intros H.
  pose (body := {| body_ids := Some [1%Z]; body_priority := PriorityString "high" |}).
  destruct (H body (initialState 0)) as [_ Hfail]; [done|].
  destruct Hfail as (msg & s' & Hs').
  - right. intros (p & prio & [= <-] & Hprio). discriminate Hprio.
  - vm_compute in Hs'. discriminate Hs'.
Qed.

(** C8 (amended): for a priority that is missing or a string of ASCII
    characters, the request fails with a validation error iff the ids
    are missing or empty, or the priority is missing or, put in upper
    case, is not one of HIGH, MEDIUM, LOW; a request that fails so
    leaves the state as it was, and every other request is accepted. *)
Theorem handleIngestRequest_validation body s :
  body_priority body ≠ PriorityOther → ascii_priority body →
  (fails_validation body s ↔ ¬ valid_ids body ∨ ¬ valid_priority body) ∧
  (∀ msg s', handleIngestRequest body s = Some (BadRequest msg, s') → s' = s) ∧
  (valid_ids body → valid_priority body →
     ∃ s', handleIngestRequest body s = Some (Accepted (uuid_name (uuidCounter s)), s')).
Proof.
  intros Hother _. split_and!.
  - split.
    + intros (msg & s' & Hfail).
      destruct (decide (body_ids body = None ∨ body_ids body = Some [])) as [Hids|Hids].
      { left. intros (l & Hl & Hne). destruct Hids; congruence. }
      right. intros Hprio.
      assert (valid_ids body) as Hv.
      { destruct (body_ids body) as [[|x l]|] eqn:E; try (exfalso; by eauto).
        by exists (x :: l). }
      destruct (handleIngestRequest_accepts body s Hv Hprio) as [s'' E]. congruence.
    + unfold fails_validation, handleIngestRequest.
      destruct (body_ids body) as [[|x l]|] eqn:Hl; [by eauto| |by eauto].
      intros [Hids|Hprio].
      { destruct Hids. by exists (x :: l). }
      destruct (body_priority body) as [|p|] eqn:Hp; [by eauto| |done].
      case_bool_decide; [by eauto|].
      destruct (parsePriority (toUpperCase p)) as [prio|] eqn:Hparse; [|by eauto].
      destruct Hprio. by exists p, prio.
  - intros msg s'. unfold handleIngestRequest.
    destruct (body_ids body) as [[|x l]|]; [by intros [= _ <-]| |by intros [= _ <-]].
    destruct (body_priority body) as [|p|]; [by intros [= _ <-]| |done].
    case_bool_decide; [by intros [= _ <-]|].
    destruct (parsePriority (toUpperCase p)); [|by intros [= _ <-]].
    state_simpl. by destruct (processIngestionRequest _ _ _ _ _).
  - apply handleIngestRequest_accepts.
Qed.

Lemma handleIngestRequest_validation_witness :
  fails_validation {| body_ids := Some [1%Z]; body_priority := PriorityString "URGENT" |}
    (initialState 0).
Proof.
  apply (handleIngestRequest_validation
           {| body_ids := Some [1%Z]; body_priority := PriorityString "URGENT" |}
           (initialState 0)); [done|reflexivity|].
  right. intros (p & prio & [= <-] & Hprio). vm_compute in Hprio. discriminate Hprio.
Defined.

(** A truthy priority that is no string makes the handler throw. *)
Lemma handleIngestRequest_throws l s :
  l ≠ [] →
  handleIngestRequest {| body_ids := Some l; body_priority := PriorityOther |} s
  = Some (Throws, s).
Proof. by destruct l. Qed.

Lemma with_status_id b :
  {| batch_id := batch_id b; ids := ids b; status := status b |} = b.
Proof. by destruct b. Qed.

(** For an id that is no property of [Object.prototype], the status
    handler answers 404 exactly when the store has no record, and
    otherwise the id, the aggregated status and the batches in the order
    of the record. *)
Lemma getIngestionStatus_spec rid s :
  rid ∉ Object_prototype →
  (ingestionStore s !! rid = None ↔
     getIngestionStatus rid s = NotFound "Ingestion ID not found.") ∧
  (∀ r, ingestionStore s !! rid = Some r →
     getIngestionStatus rid s =
       Ok {| ingestion_id := rid;
             overall_status := calculateOverallStatus (batches r);
             status_batches := batches r |}).
Proof.
  intros Hproto. unfold getIngestionStatus, js_get. split.
  - destruct (ingestionStore s !! rid); [done|]. by rewrite bool_decide_eq_false_2.
  - intros r ->. do 2 f_equal. induction (batches r) as [|b bs IH]; [done|].
    simpl. by rewrite with_status_id, IH.
Qed.

(** C9 fails on the names that the store inherits: "constructor" is no
    key of the store, and the handler throws where 404 is due. *)
Theorem getIngestionStatus_inherited_key :
  ingestionStore (initialState 0) !! "constructor" = None ∧
  getIngestionStatus "constructor" (initialState 0) = Throws.
Proof. split; reflexivity. Qed.


(** ** Executions *)

Lemma run_reachable t0 es : ∀ s s',
  reachable t0 s → run es s = Some s' → reachable t0 s'.
Proof.
  induction es as [|e es IH]; intros s s' Hs; simpl.
  - by intros [= <-].
  - destruct (step e s) as [s1|] eqn:He; [|done].
    apply IH. by apply (reachable_step t0 e s).
Qed.

Lemma demo_state_run : run demo_events (initialState 1000000) = Some demo_state.
Proof. vm_compute. reflexivity. Qed.

Lemma demo_state_reachable : reachable 1000000 demo_state.
Proof.
  apply (run_reachable _ demo_events (initialState 1000000)); [constructor|].
  apply demo_state_run.
Qed.

(** The steps of [handleIngestRequest]: a request is refused and the
    state stays, or it is registered and the queue is run. *)
Lemma handleIngestRequest_cases body s resp s' :
  handleIngestRequest body s = Some (resp, s') →
  s' = s ∨
  ∃ l prio, l ≠ [] ∧ resp = Accepted (uuid_name (uuidCounter s)) ∧
    processQueue (registered (uuid_name (uuidCounter s)) l prio s) = Some s'.
Proof.
  destruct (body_ids body) as [[|x l]|] eqn:Hl.
  1,3: unfold handleIngestRequest; rewrite Hl; intros [= _ <-]; by left.
  destruct (body_priority body) as [|p|] eqn:Hp.
  1,3: unfold handleIngestRequest; rewrite Hl, Hp; intros [= _ <-]; by left.
  destruct (parsePriority (toUpperCase p)) as [prio|] eqn:Hprio.
  - rewrite (handleIngestRequest_valid body s (x :: l) p prio) by done.
    destruct (processQueue _) as [s1|] eqn:Hq; [|done].
    intros [= <- <-]. right. by exists (x :: l), prio.
  - unfold handleIngestRequest; rewrite Hl, Hp, Hprio.
    case_bool_decide; intros [= _ <-]; by left.
Qed.

(** ** The rate limit *)

Lemma pq_result_rate s s' :
  pq_result s s' →
  (admissionLog s' = admissionLog s ∧
   lastProcessingStartTime s' = lastProcessingStartTime s) ∨
  (∃ job, admissionLog s' = (clock s, job) :: admissionLog s ∧
          lastProcessingStartTime s' = clock s ∧
          (RATE_LIMIT_MS ≤ clock s - lastProcessingStartTime s)%Z).
Proof.
  intros [| | |q job q' i b Hrate _ _ _ _]; [by left..|].
  right. exists job. unfold admitted, processSingleBatch.
  by destruct (ids (with_status triggered b)).
Qed.

Lemma rate_inv_pq s s' : rate_inv s → pq_result s s' → rate_inv s'.
Proof.
  intros [Hsp Hle] Hres. unfold rate_inv, admission_times in *.
  destruct (pq_result_rate s s' Hres) as [[-> ->]|(job & -> & -> & Hrate)]; [done|].
  simpl. split_and!; [|done|].
  - intros t' Ht'. apply Hle in Ht'. lia.
  - intros t [->|Ht]%elem_of_cons; [lia|]. apply Hle in Ht.
    unfold RATE_LIMIT_MS in Hrate. lia.
Qed.

Lemma registered_rate rid l p s :
  admissionLog (registered rid l p s) = admissionLog s ∧
  lastProcessingStartTime (registered rid l p s) = lastProcessingStartTime s.
Proof.
  unfold registered.
  destruct (batch_loop _ _ _ _ _ _ _ _) as [bs s2] eqn:Hloop.
  apply batch_loop_spec in Hloop as (new & _ & _ & _ & _ & _ & _ & _ & Hrest); [|lia].
  state_simpl. by destruct Hrest as (_ & _ & -> & _ & _ & ->).
Qed.

Lemma rate_inv_step e s s' : rate_inv s → step e s = Some s' → rate_inv s'.
Proof.
  intros Hinv. destruct e as [d|body| |k]; simpl.
  - case_decide; [|done]. by intros [= <-].
  - destruct (handleIngestRequest body s) as [[resp s1]|] eqn:Hh; [|done].
    intros [= <-].
    apply handleIngestRequest_cases in Hh as [->|(l & prio & _ & _ & Hq)]; [done|].
    apply processQueue_result in Hq. eapply rate_inv_pq; [|done].
    unfold rate_inv, admission_times.
    by destruct (registered_rate (uuid_name (uuidCounter s)) l prio s) as [-> ->].
  - destruct (processingTimeoutId s) as [deadline|]; [|done].
    case_decide; [|done]. intros Hq%processQueue_result.
    exact (rate_inv_pq (set_processingTimeoutId None s) s' Hinv Hq).
  - destruct (running s !! k) as [t|]; [|done].
    destruct (task_ids t) as [|id [|id' rest]]; simpl.
    + intros Hq%processQueue_result.
      exact (rate_inv_pq (without_task k s) s' Hinv Hq).
    + intros Hq%processQueue_result.
      exact (rate_inv_pq
               (without_task k
                  (write_status (task_ingestionId t) (task_batch t) completed s))
               s' Hinv Hq).
    + by intros [= <-].
Qed.

Lemma rate_inv_reachable t0 s : reachable t0 s → rate_inv s.
Proof.
  induction 1 as [|e s s' _ IH He]; [|by eapply rate_inv_step].
  split; [done|]. intros t Ht. by apply elem_of_nil in Ht.
Qed.

Lemma spaced_lookup ts : spaced ts → ∀ i j ti tj,
  i < j → ts !! i = Some ti → ts !! j = Some tj → (RATE_LIMIT_MS ≤ ti - tj)%Z.
Proof.
  induction ts as [|t ts IH]; intros Hsp i j ti tj Hij Hi Hj.
  { by rewrite lookup_nil in Hi. }
  destruct Hsp as [Hhd Htl]. destruct j as [|j]; [lia|]. simpl in Hj.
  destruct i as [|i]; simpl in Hi.
  - simplify_eq. apply Hhd. by eapply list_elem_of_lookup_2.
  - apply (IH Htl i j); [lia|done..].
Qed.

(** The loop of [processQueue] never runs out of the fuel it is given. *)
Lemma processQueue_loop_fuel f1 : ∀ f2 s,
  length (jobQueue s) < f1 → length (jobQueue s) < f2 →
  processQueue_loop f1 s = processQueue_loop f2 s.
Proof.
  induction f1 as [|f1 IH]; intros [|f2] s H1 H2; try lia.
  rewrite !processQueue_loop_S.
  destruct (isEmpty (jobQueue s)); [done|]. case_decide; [done|].
  destruct (dequeue (jobQueue s)) as [[job q1]|] eqn:Hd; [|done].
  apply dequeue_length in Hd.
  destruct (find_batch (ingestionStore s) job) as [[i b]|].
  - case_decide; [done|]. apply IH; state_simpl; lia.
  - apply IH; state_simpl; lia.
Qed.

(** A stale job at the root is dropped, and the call goes on as if the
    job had never been queued: nothing else of the state has changed. *)
Lemma processQueue_discard s job q1 :
  (RATE_LIMIT_MS ≤ clock s - lastProcessingStartTime s)%Z →
  dequeue (jobQueue s) = Some (job, q1) → stale (ingestionStore s) job →
  processQueue s = processQueue (set_jobQueue q1 s).
Proof.
  intros Hrate Hd Hst. unfold processQueue at 1.
  rewrite processQueue_loop_S.
  assert (jobQueue s ≠ []) as Hne by (intros E; by rewrite E in Hd).
  destruct (isEmpty (jobQueue s)) eqn:He; [by apply isEmpty_true in He|].
  case_decide; [lia|]. rewrite Hd.
  apply dequeue_length in Hd as Hlen.
  assert (processQueue_loop (length (jobQueue s)) (set_jobQueue q1 s)
          = processQueue (set_jobQueue q1 s)) as Hfuel.
  { apply processQueue_loop_fuel; state_simpl; lia. }
  destruct (find_batch (ingestionStore s) job) as [[i b]|] eqn:Hf; [|done].
  case_decide as Hy; [|done]. by destruct (Hst i b).
Qed.

(** ** The store *)

Lemma ingestionStore_write_status rid i st s :
  ingestionStore (write_status rid i st s) = store_write rid i st (ingestionStore s).
Proof. reflexivity. Qed.

Lemma batch_at_store_write rid0 i0 st store rid i :
  batch_at (store_write rid0 i0 st store) rid i =
    if decide (rid = rid0 ∧ i = i0)
    then with_status st <$> batch_at store rid i
    else batch_at store rid i.
Proof.
  unfold batch_at, store_write. rewrite lookup_alter.
  destruct (decide (rid0 = rid)) as [->|Hne].
  - destruct (store !! rid) as [r|]; simpl; [|by case_decide].
    rewrite list_lookup_alter. repeat case_decide; naive_solver.
  - case_decide; naive_solver.
Qed.

Lemma record_key_store_write rid0 i0 st store rid :
  record_key (store_write rid0 i0 st store) rid = record_key store rid.
Proof.
  unfold record_key, store_write. rewrite lookup_alter.
  case_decide; [subst|done]. by destruct (store !! rid).
Qed.

Lemma is_Some_store_write rid0 i0 st store rid :
  is_Some (store_write rid0 i0 st store !! rid) ↔ is_Some (store !! rid).
Proof.
  unfold store_write. rewrite lookup_alter.
  case_decide; [subst|done]. by rewrite fmap_is_Some.
Qed.

Lemma batch_at_is_Some store rid i b :
  batch_at store rid i = Some b → is_Some (store !! rid).
Proof. unfold batch_at. by destruct (store !! rid). Qed.

Lemma record_key_is_Some store rid k :
  record_key store rid = Some k → is_Some (store !! rid).
Proof. unfold record_key. by destruct (store !! rid). Qed.

Lemma batch_at_insert rid r store rid' i :
  batch_at (<[rid := r]> store) rid' i =
    if decide (rid' = rid) then batches r !! i else batch_at store rid' i.
Proof.
  unfold batch_at. case_decide; [subst; by rewrite lookup_insert_eq|].
  by rewrite lookup_insert_ne.
Qed.

Lemma record_key_insert rid r store rid' :
  record_key (<[rid := r]> store) rid' =
    if decide (rid' = rid) then Some (rec_priority r, rec_createdAt r)
    else record_key store rid'.
Proof.
  unfold record_key. case_decide; [subst; by rewrite lookup_insert_eq|].
  by rewrite lookup_insert_ne.
Qed.

Lemma find_batch_Some store job i b :
  find_batch store job = Some (i, b) →
  batch_at store (ingestionId job) i = Some b ∧ batch_id b = batchId job.
Proof.
  unfold find_batch, js_get, batch_at.
  destruct (store !! ingestionId job) as [r|]; simpl.
  - by intros (? & ? & _)%list_find_Some.
  - by case_bool_decide.
Qed.

Lemma find_batch_job_of store rid i b p t :
  batch_at store rid i = Some b →
  (∀ i' b', batch_at store rid i' = Some b' → batch_id b = batch_id b' → i = i') →
  find_batch store (job_of rid p t b) = Some (i, b).
Proof.
  unfold find_batch, js_get, batch_at. simpl.
  destruct (store !! rid) as [r|]; simpl; [|done].
  intros Hb Hinj. apply list_find_Some. split_and!; [done..|].
  intros j y Hy Hlt Heq. apply (Hinj j y) in Hy; [lia|done].
Qed.

Lemma uuid_name_inj j k : uuid_name j = uuid_name k → j = k.
Proof. unfold uuid_name. intros H%(inj (String.append _)). by apply (inj pretty) in H. Qed.

Lemma uuid_name_not_inherited k : uuid_name k ∉ Object_prototype.
Proof.
  unfold uuid_name, Object_prototype. cbv [String.append].
  rewrite !elem_of_cons, elem_of_nil.
  intros H. repeat (destruct H as [H|H]; [discriminate H|]). done.
Qed.

(** ** Dropping stale jobs *)

Lemma discards_sub store q q' : discards store q q' → ∀ j, j ∈ q' → j ∈ q.
Proof.
  induction 1 as [|q job q1 q2 Hd _ _ IH]; [done|].
  intros j Hj%IH. apply dequeue_perm in Hd. rewrite Hd. by right.
Qed.

Lemma discards_keep store q q' :
  discards store q q' → ∀ j, j ∈ q → ¬ stale store j → j ∈ q'.
Proof.
  induction 1 as [|q job q1 q2 Hd Hst _ IH]; [done|].
  intros j Hj Hns. apply IH; [|done].
  apply dequeue_perm in Hd. rewrite Hd in Hj.
  apply elem_of_cons in Hj as [->|Hj]; [done|done].
Qed.

Lemma discards_ok store q q' : discards store q q' → heap_ok q → heap_ok q'.
Proof.
  induction 1 as [|q job q1 q2 Hd _ _ IH]; [done|].
  intros Hq. by apply IH, (dequeue_ok q job q1).
Qed.


(** ** Registering a request *)

Lemma registered_spec rid l p s :
  ∃ bs,
    ingestionStore (registered rid l p s) =
      <[rid := {| rec_status := calculateOverallStatus bs; batches := bs;
                  rec_priority := p; rec_createdAt := clock s;
                  original_ids := l |}]> (ingestionStore s) ∧
    (∀ k b, bs !! k = Some b →
       b = {| batch_id := uuid_name (S (uuidCounter s) + k);
              ids := slice l (k * BATCH_SIZE) (k * BATCH_SIZE + BATCH_SIZE);
              status := yet_to_start |} ∧
       k * BATCH_SIZE < length l) ∧
    length bs = ceil_div (length l) BATCH_SIZE ∧
    jobQueue (registered rid l p s) ≡ₚ (job_of rid p (clock s) <$> bs) ++ jobQueue s ∧
    (heap_ok (jobQueue s) → heap_ok (jobQueue (registered rid l p s))) ∧
    uuidCounter (registered rid l p s) = S (uuidCounter s) + length bs ∧
    processingTimeoutId (registered rid l p s) = processingTimeoutId s ∧
    lastProcessingStartTime (registered rid l p s) = lastProcessingStartTime s ∧
    running (registered rid l p s) = running s ∧
    clock (registered rid l p s) = clock s ∧
    admissionLog (registered rid l p s) = admissionLog s.
Proof.
  unfold registered.
  destruct (batch_loop _ _ _ _ _ _ _ _) as [bs s2] eqn:Hloop.
  apply batch_loop_spec in Hloop
    as (new & -> & Hlen & Hnew & _ & Hc & Hq & Hh & Hst & Hrest); [|lia].
  state_simpl. exists new. rewrite Hst, alter_insert_eq.
  rewrite Nat.sub_0_r in Hlen. split_and!; try done; apply Hrest.
Qed.

Lemma inv_registered l p s :
  inv s → inv (registered (uuid_name (uuidCounter s)) l p s).
Proof.
  intros Hinv. set (rid := uuid_name (uuidCounter s)).
  destruct (registered_spec rid l p s)
    as (bs & Hstore & Hbs & _ & Hq & Hheap & Hc & _ & _ & Hrun & Hclock & _).
  assert (Hnew : ingestionStore s !! rid = None).
  { apply eq_None_not_Some. intros (k & Hk & E%uuid_name_inj)%(inv_fresh s Hinv). lia. }
  assert (Hold : ∀ rid', is_Some (ingestionStore s !! rid') → rid' ≠ rid).
  { intros rid' H ->. rewrite Hnew in H. by destruct H. }
  assert (Hbat : ∀ rid' i b, batch_at (ingestionStore s) rid' i = Some b → rid' ≠ rid).
  { intros rid' i b H%batch_at_is_Some. by apply Hold. }
  assert (Hkey : ∀ rid' k, record_key (ingestionStore s) rid' = Some k → rid' ≠ rid).
  { intros rid' k H%record_key_is_Some. by apply Hold. }
  constructor; rewrite ?Hstore, ?Hrun, ?Hclock, ?Hc.
  - intros rid' [r Hr]. destruct (decide (rid' = rid)) as [->|Hne].
    + exists (uuidCounter s). split; [lia|done].
    + rewrite lookup_insert_ne in Hr by done.
      destruct (inv_fresh s Hinv rid') as (k & Hk & ->); [by eexists|].
      exists k. split; [lia|done].
  - intros rid' i b. rewrite batch_at_insert. case_decide as Hr; simpl.
    + intros Hb. apply Hbs in Hb as [-> Hb]. simpl. split; [|done].
      replace (i * BATCH_SIZE + BATCH_SIZE) with (i * BATCH_SIZE + BATCH_SIZE) by done.
      by apply slice_nonempty.
    + apply (inv_batch s Hinv).
  - intros k t Hk. destruct (inv_task s Hinv k t Hk) as (Hne & b & Hb & Htr).
    split; [done|]. exists b. split; [|done].
    rewrite batch_at_insert. rewrite decide_False; [done|by eapply Hbat].
  - apply (inv_task_nodup s Hinv).
  - intros rid' i b. rewrite batch_at_insert. case_decide as Hr; simpl.
    + intros Hb Htr. apply Hbs in Hb as [-> _]. discriminate Htr.
    + apply (inv_triggered s Hinv).
  - apply Hheap, (inv_heap s Hinv).
  - intros rid' i b p' t. rewrite batch_at_insert, record_key_insert, Hq.
    case_decide as Hr; simpl.
    + intros Hb [= <- <-] _. subst rid'. apply elem_of_app. left.
      apply list_elem_of_fmap. exists b. split; [done|]. by eapply list_elem_of_lookup_2.
    + intros Hb Hk Hy. apply elem_of_app. right. by apply (inv_pending s Hinv _ i).
  - intros job. rewrite Hq, record_key_insert. intros [Hj|Hj]%elem_of_app.
    + apply list_elem_of_fmap in Hj as (b & -> & _). simpl. by rewrite decide_True.
    + apply (inv_job s Hinv) in Hj as Hk. rewrite decide_False; [done|by eapply Hkey].
  - intros rid' i i' b b'. rewrite !batch_at_insert. case_decide as Hr; simpl.
    + intros [-> _]%Hbs [-> _]%Hbs. simpl. intros E%uuid_name_inj. lia.
    + apply (inv_batch_id s Hinv).
  - intros rid' p' t. rewrite record_key_insert. case_decide; simpl.
    + intros [= _ <-]. lia.
    + apply (inv_clock s Hinv).
  - intros rid1 rid2 p' t1 t2 i1 b1 i2 b2.
    rewrite !batch_at_insert, !record_key_insert.
    destruct (decide (rid2 = rid)) as [->|Hr2]; simpl.
    { intros _ _ _ [-> _]%Hbs Hy. by destruct Hy. }
    destruct (decide (rid1 = rid)) as [->|Hr1]; simpl.
    { intros [= <- <-] Hk2%(inv_clock s Hinv). lia. }
    apply (inv_fifo s Hinv).
Qed.


(** ** The invariant along the dispatch loop *)

Lemma batch_at_store_write_Some rid0 i0 st store rid i b' :
  batch_at (store_write rid0 i0 st store) rid i = Some b' →
  ∃ b, batch_at store rid i = Some b ∧
       batch_id b' = batch_id b ∧ ids b' = ids b ∧
       ((rid = rid0 ∧ i = i0 ∧ status b' = st) ∨
        (¬ (rid = rid0 ∧ i = i0) ∧ b' = b)).
Proof.
  rewrite batch_at_store_write. case_decide as Hc.
  - destruct (batch_at store rid i) as [b|]; [|done]. intros [= <-].
    exists b. split_and!; try done. left. by destruct Hc.
  - intros Hb. exists b'. split_and!; try done. by right.
Qed.

Lemma pending_not_stale s rid i b p t :
  inv s → batch_at (ingestionStore s) rid i = Some b → status b = yet_to_start →
  ¬ stale (ingestionStore s) (job_of rid p t b).
Proof.
  intros Hinv Hb Hy Hst. apply (Hst i b); [|done].
  apply find_batch_job_of; [done|]. intros i' b'. by apply (inv_batch_id s Hinv).
Qed.

Lemma inv_discards s q :
  inv s → discards (ingestionStore s) (jobQueue s) q → inv (set_jobQueue q s).
Proof.
  intros Hinv Hd. destruct Hinv. constructor; state_simpl; try done.
  - by apply (discards_ok _ _ _ Hd).
  - intros rid i b p t Hb Hk Hy. apply (discards_keep _ _ _ Hd); [by eauto|].
    by eapply pending_not_stale.
  - intros job Hj. by apply inv_job0, (discards_sub _ _ _ Hd).
Qed.

Lemma admitted_fields job q' i b s :
  ids b ≠ [] →
  ingestionStore (admitted job q' i b s)
    = store_write (ingestionId job) i triggered (ingestionStore s) ∧
  jobQueue (admitted job q' i b s) = q' ∧
  running (admitted job q' i b s)
    = running s ++ [{| task_ingestionId := ingestionId job; task_batch := i;
                       task_ids := ids b |}] ∧
  uuidCounter (admitted job q' i b s) = uuidCounter s ∧
  clock (admitted job q' i b s) = clock s.
Proof.
  intros Hne. unfold admitted, processSingleBatch. simpl.
  by destruct (ids b).
Qed.

Lemma inv_admit s job q' i b :
  inv s → dequeue (jobQueue s) = Some (job, q') →
  find_batch (ingestionStore s) job = Some (i, b) → status b = yet_to_start →
  inv (admitted job q' i b s).
Proof.
  intros Hinv Hd Hf Hy.
  apply find_batch_Some in Hf as [Hb Hid].
  destruct (inv_batch s Hinv _ _ _ Hb) as [Hids _].
  destruct (admitted_fields job q' i b s Hids) as (Hst & Hq & Hrun & Hc & Hcl).
  pose proof (dequeue_perm _ _ _ Hd) as Hperm.
  set (rid := ingestionId job) in *.
  assert (Hother : ∀ t, t ∈ running s → task_ref t ≠ (rid, i)).
  { intros t [k Hk]%list_elem_of_lookup Href.
    destruct (inv_task s Hinv k t Hk) as (_ & b0 & Hb0 & Htr).
    unfold task_ref in Href. simplify_eq. congruence. }
  constructor; rewrite ?Hst, ?Hq, ?Hrun, ?Hc, ?Hcl.
  - intros rid' H%is_Some_store_write. by apply (inv_fresh s Hinv).
  - intros rid' i' b' (b0 & Hb0 & _ & Hi & Hcase)%batch_at_store_write_Some.
    destruct (inv_batch s Hinv _ _ _ Hb0) as [? ?]. rewrite Hi. split; [done|].
    destruct Hcase as [(_ & _ & ->)|[_ ->]]; done.
  - intros k t [Hk|[_ Hk]]%lookup_app_Some.
    + destruct (inv_task s Hinv k t Hk) as (Hne & b0 & Hb0 & Htr).
      split; [done|]. exists b0. split; [|done].
      rewrite batch_at_store_write, decide_False; [done|].
      intros [E1 E2]. apply (Hother t); [by eapply list_elem_of_lookup_2|].
      unfold task_ref. by rewrite E1, E2.
    + destruct (k - length (running s)) as [|n]; [|done]. simpl in Hk.
      simplify_eq. simpl. split; [done|]. exists (with_status triggered b).
      split; [|done]. rewrite batch_at_store_write, decide_True by done.
      by rewrite Hb.
  - rewrite fmap_app. apply NoDup_app. split_and!.
    + apply (inv_task_nodup s Hinv).
    + intros ref (t & -> & Ht)%list_elem_of_fmap Hin. simpl in Hin.
      apply list_elem_of_singleton in Hin. by apply (Hother t).
    + apply NoDup_singleton.
  - intros rid' i' b' (b0 & Hb0 & _ & _ & Hcase)%batch_at_store_write_Some Htr.
    destruct Hcase as [(-> & -> & _)|[_ ->]].
    + eexists. split; [apply elem_of_app; right; by left|done].
    + destruct (inv_triggered s Hinv _ _ _ Hb0 Htr) as (t & Ht & Href).
      exists t. split; [|done]. apply elem_of_app. by left.
  - apply (dequeue_ok (jobQueue s) job q'); [apply (inv_heap s Hinv)|done].
  - intros rid' i' b' p t (b0 & Hb0 & _ & _ & Hcase)%batch_at_store_write_Some.
    rewrite record_key_store_write. intros Hk Hy'.
    destruct Hcase as [(_ & _ & E)|[Hne ->]]; [congruence|].
    pose proof (inv_pending s Hinv _ _ _ _ _ Hb0 Hk Hy') as Hin.
    rewrite Hperm in Hin. apply elem_of_cons in Hin as [E|Hin]; [|done].
    destruct Hne. assert (rid' = rid) as -> by (unfold rid; by rewrite <- E).
    split; [done|]. apply (inv_batch_id s Hinv rid i' i b0 b); try done.
    rewrite Hid, <- E. done.
  - intros j Hj. rewrite record_key_store_write. apply (inv_job s Hinv).
    rewrite Hperm. by right.
  - intros rid' i1 i2 b1 b2
      (b1' & Hb1 & E1 & _)%batch_at_store_write_Some
      (b2' & Hb2 & E2 & _)%batch_at_store_write_Some.
    rewrite E1, E2. by apply (inv_batch_id s Hinv rid').
  - intros rid' p t. rewrite record_key_store_write. apply (inv_clock s Hinv).
  - intros rid1 rid2 p t1 t2 i1 b1 i2 b2. rewrite !record_key_store_write.
    intros Hk1 Hk2 Hlt
      (b2' & Hb2 & _ & _ & Hc2)%batch_at_store_write_Some Hn2
      (b1' & Hb1 & _ & _ & Hc1)%batch_at_store_write_Some Hy1.
    destruct Hc1 as [(_ & _ & E)|[Hne1 ->]]; [congruence|].
    destruct Hc2 as [(-> & -> & _)|[_ ->]].
    + pose proof (inv_pending s Hinv _ _ _ _ _ Hb1 Hk1 Hy1) as Hin.
      apply (dequeue_least _ _ _ (inv_heap s Hinv) Hd) in Hin.
      apply key_le_not_lt in Hin. apply Hin.
      assert (job ∈ jobQueue s) as Hj by (rewrite Hperm; by left).
      apply (inv_job s Hinv) in Hj. fold rid in Hj. rewrite Hk2 in Hj.
      injection Hj as Hp Ht.
      apply key_lt_same_priority; simpl; [done|lia].
    + by apply (inv_fifo s Hinv rid1 rid2 p t1 t2 i1 b1' i2 b2').
Qed.

Lemma inv_pq s s' : inv s → pq_result s s' → inv s'.
Proof.
  intros Hinv [Hq|Hq Hw|Hq Hrate Hdis|q job q' i b Hrate Hdis Hd Hf Hy].
  - done.
  - destruct Hinv. by constructor.
  - by apply inv_discards.
  - apply (inv_admit (set_jobQueue q s) job q' i b); try done.
    by apply inv_discards.
Qed.


(** ** The invariant along the events *)

Lemma inv_initial t0 : inv (initialState t0).
Proof.
  constructor; simpl; try done.
  - intros rid [r Hr]. by rewrite lookup_empty in Hr.
  - constructor.
  - intros job Hj. by apply elem_of_nil in Hj.
Qed.

Lemma inv_tick d s : (0 ≤ d)%Z → inv s → inv (set_clock (clock s + d)%Z s).
Proof.
  intros Hd Hinv. destruct Hinv. constructor; state_simpl; try done.
  intros rid p t Hk. apply inv_clock0 in Hk. lia.
Qed.

Lemma elem_of_delete_other {A} (l : list A) k x y :
  l !! k = Some x → y ∈ l → y ≠ x → y ∈ delete k l.
Proof.
  intros Hk Hy Hne. rewrite (delete_Permutation l k x Hk) in Hy.
  by apply elem_of_cons in Hy as [->|Hy].
Qed.

(** The last id of a running call resolves: the batch is completed and
    the call is over. *)
Lemma inv_complete s k t :
  inv s → running s !! k = Some t →
  inv (without_task k
         (write_status (task_ingestionId t) (task_batch t) completed s)).
Proof.
  intros Hinv Hk.
  destruct (inv_task s Hinv k t Hk) as (_ & b & Hb & Htr).
  set (rid := task_ingestionId t) in *. set (i := task_batch t) in *.
  assert (Hother : ∀ t', t' ∈ delete k (running s) → task_ref t' ≠ (rid, i)).
  { intros t' Ht' Href. pose proof (inv_task_nodup s Hinv) as Hnd.
    rewrite (delete_Permutation (running s) k t Hk), fmap_cons in Hnd.
    apply NoDup_cons in Hnd as [Hnd _]. apply Hnd.
    apply list_elem_of_fmap. exists t'. by rewrite Href. }
  constructor; state_simpl; fold (store_write rid i completed (ingestionStore s)).
  - intros rid' H%is_Some_store_write. by apply (inv_fresh s Hinv).
  - intros rid' i' b' (b0 & Hb0 & _ & Hi & Hcase)%batch_at_store_write_Some.
    destruct (inv_batch s Hinv _ _ _ Hb0) as [? ?]. rewrite Hi. split; [done|].
    destruct Hcase as [(_ & _ & ->)|[_ ->]]; done.
  - intros k' t' Hk'.
    assert (t' ∈ running s) as [k0 Hk0]%list_elem_of_lookup.
    { eapply list_elem_of_delete_inv, list_elem_of_lookup_2, Hk'. }
    destruct (inv_task s Hinv k0 t' Hk0) as (Hne & b0 & Hb0 & Htr0).
    split; [done|]. exists b0. split; [|done].
    rewrite batch_at_store_write, decide_False; [done|].
    intros [E1 E2]. apply (Hother t'); [by eapply list_elem_of_lookup_2|].
    unfold task_ref. by rewrite E1, E2.
  - rewrite list_fmap_delete.
    apply (sublist_NoDup _ _ (inv_task_nodup s Hinv)), sublist_delete.
  - intros rid' i' b' (b0 & Hb0 & _ & _ & Hcase)%batch_at_store_write_Some Htr'.
    destruct Hcase as [(_ & _ & E)|[Hne ->]]; [congruence|].
    destruct (inv_triggered s Hinv _ _ _ Hb0 Htr') as (t' & Ht' & Href).
    exists t'. split; [|done]. apply (elem_of_delete_other _ k t); try done.
    intros ->. apply Hne. by injection Href.
  - apply (inv_heap s Hinv).
  - intros rid' i' b' p t0 (b0 & Hb0 & _ & _ & Hcase)%batch_at_store_write_Some.
    rewrite record_key_store_write. intros Hkey Hy.
    destruct Hcase as [(_ & _ & E)|[_ ->]]; [congruence|].
    by apply (inv_pending s Hinv _ i').
  - intros j Hj. rewrite record_key_store_write. by apply (inv_job s Hinv).
  - intros rid' i1 i2 b1 b2
      (b1' & Hb1 & E1 & _)%batch_at_store_write_Some
      (b2' & Hb2 & E2 & _)%batch_at_store_write_Some.
    rewrite E1, E2. by apply (inv_batch_id s Hinv rid').
  - intros rid' p t0. rewrite record_key_store_write. apply (inv_clock s Hinv).
  - intros rid1 rid2 p t1 t2 i1 b1 i2 b2. rewrite !record_key_store_write.
    intros Hk1 Hk2 Hlt
      (b2' & Hb2 & _ & _ & Hc2)%batch_at_store_write_Some Hn2
      (b1' & Hb1 & _ & _ & Hc1)%batch_at_store_write_Some.
    assert (status b2' ≠ yet_to_start) as Hn2'.
    { destruct Hc2 as [(-> & -> & _)|[_ <-]]; [|done].
      rewrite Hb in Hb2. injection Hb2 as <-. congruence. }
    pose proof (inv_fifo s Hinv rid1 rid2 p t1 t2 i1 b1' i2 b2'
                  Hk1 Hk2 Hlt Hb2 Hn2' Hb1) as Hn1.
    destruct Hc1 as [(_ & _ & ->)|[_ ->]]; done.
Qed.

(** An id of a running call resolves and another is awaited. *)
Lemma inv_progress s k t rest :
  inv s → running s !! k = Some t → rest ≠ [] →
  inv (set_running
         (<[k := {| task_ingestionId := task_ingestionId t;
                    task_batch := task_batch t; task_ids := rest |}]> (running s)) s).
Proof.
  intros Hinv Hk Hrest. set (t' := Build_Task _ _ rest).
  assert (task_ref t' = task_ref t) as Href by done.
  pose proof (lookup_lt_Some _ _ _ Hk) as Hlt.
  destruct Hinv. constructor; state_simpl; try done.
  - intros k' t0. destruct (decide (k' = k)) as [->|Hne].
    + rewrite list_lookup_insert_eq by done. intros [= <-].
      split; [done|]. by apply (inv_task0 k t).
    + rewrite list_lookup_insert_ne by done. apply inv_task0.
  - rewrite list_fmap_insert, Href, list_insert_id; [done|].
    by rewrite list_lookup_fmap, Hk.
  - intros rid i b Hb Htr.
    destruct (inv_triggered0 rid i b Hb Htr) as (t0 & [k0 Hk0]%list_elem_of_lookup & Hr0).
    destruct (decide (k0 = k)) as [->|Hne].
    + exists t'. split; [|by simplify_eq].
      eapply list_elem_of_lookup_2. by apply list_lookup_insert_eq.
    + exists t0. split; [|done].
      eapply list_elem_of_lookup_2. by rewrite list_lookup_insert_ne.
Qed.

Lemma inv_step e s s' : inv s → step e s = Some s' → inv s'.
Proof.
  intros Hinv. destruct e as [d|body| |k]; simpl.
  - case_decide; [|done]. intros [= <-]. by apply inv_tick.
  - destruct (handleIngestRequest body s) as [[resp s1]|] eqn:Hh; [|done].
    intros [= <-].
    apply handleIngestRequest_cases in Hh as [->|(l & prio & _ & _ & Hq)]; [done|].
    apply processQueue_result in Hq. eapply inv_pq; [|done]. by apply inv_registered.
  - destruct (processingTimeoutId s) as [deadline|]; [|done].
    case_decide; [|done]. intros Hq%processQueue_result.
    eapply inv_pq; [|done]. destruct Hinv. by constructor.
  - destruct (running s !! k) as [t|] eqn:Hk; [|done].
    destruct (inv_task s Hinv k t Hk) as [Hne _].
    destruct (task_ids t) as [|id [|id' rest]]; [done|..]; simpl.
    + intros Hq%processQueue_result. eapply inv_pq; [|done]. by apply inv_complete.
    + intros [= <-]. by apply inv_progress.
Qed.

Lemma inv_reachable t0 s : reachable t0 s → inv s.
Proof.
  induction 1 as [|e s s' _ IH He]; [apply inv_initial|by eapply inv_step].
Qed.


(** ** What one call of the dispatch loop does to the batches *)

(** A call leaves every batch as it was, or triggers one batch that was
    [yet_to_start]. *)
Lemma pq_result_store s s' :
  inv s → pq_result s s' →
  (∀ rid i, batch_at (ingestionStore s') rid i = batch_at (ingestionStore s) rid i) ∨
  (∃ rid0 i0 b0,
     batch_at (ingestionStore s) rid0 i0 = Some b0 ∧ status b0 = yet_to_start ∧
     ∀ rid i, batch_at (ingestionStore s') rid i =
       if decide (rid = rid0 ∧ i = i0) then Some (with_status triggered b0)
       else batch_at (ingestionStore s) rid i).
Proof.
  intros Hinv [Hq|Hq Hw|Hq Hrate Hdis|q job q' i b Hrate Hdis Hd Hf Hy];
    [by left..|].
  right. apply find_batch_Some in Hf as [Hb Hid].
  destruct (inv_batch s Hinv _ _ _ Hb) as [Hids _].
  destruct (admitted_fields job q' i b s Hids) as (Hst & _).
  exists (ingestionId job), i, b. split_and!; [done..|].
  intros rid i'. rewrite Hst, batch_at_store_write.
  case_decide as Hc; [|done]. destruct Hc as [-> ->]. by rewrite Hb.
Qed.

Lemma pq_result_advances s s' rid i b :
  inv s → pq_result s s' → batch_at (ingestionStore s) rid i = Some b →
  ∃ b', batch_at (ingestionStore s') rid i = Some b' ∧
        batch_id b' = batch_id b ∧ ids b' = ids b ∧
        (status b' = status b ∨ (status b = yet_to_start ∧ status b' = triggered)).
Proof.
  intros Hinv Hres Hb.
  destruct (pq_result_store s s' Hinv Hres) as [Hsame|(rid0 & i0 & b0 & Hb0 & Hy & Hch)].
  - exists b. rewrite Hsame. by split_and!; [..|left].
  - rewrite Hch. case_decide as Hc.
    + destruct Hc as [-> ->]. exists (with_status triggered b0).
      rewrite Hb0 in Hb. injection Hb as <-. split_and!; try done. by right.
    + exists b. by split_and!; [..|left].
Qed.

(** ** Monotone statuses *)

Lemma batch_at_registered l p s rid i b :
  inv s → batch_at (ingestionStore s) rid i = Some b →
  batch_at (ingestionStore (registered (uuid_name (uuidCounter s)) l p s)) rid i
  = Some b.
Proof.
  intros Hinv Hb.
  destruct (registered_spec (uuid_name (uuidCounter s)) l p s) as (bs & -> & _).
  rewrite batch_at_insert, decide_False; [done|]. intros ->.
  apply batch_at_is_Some, (inv_fresh s Hinv) in Hb as (k & Hk & E%uuid_name_inj). lia.
Qed.

(** C7: along every step of an execution the status of a batch stays or
    moves one stage along yet_to_start → triggered → {completed,
    failed}; a completed or failed batch keeps its status, and the batch
    keeps its id and its items. *)
Theorem status_monotone t0 s e s' rid i b :
  reachable t0 s → step e s = Some s' →
  batch_at (ingestionStore s) rid i = Some b →
  ∃ b', batch_at (ingestionStore s') rid i = Some b' ∧
        batch_id b' = batch_id b ∧ ids b' = ids b ∧
        advances (status b) (status b').
Proof.
  intros Hinv%inv_reachable Hstep Hb.
  assert (Hpq : ∀ s1 b1, inv s1 → pq_result s1 s' →
            batch_at (ingestionStore s1) rid i = Some b1 →
            batch_id b1 = batch_id b → ids b1 = ids b →
            (status b1 = status b ∨ (status b = triggered ∧ status b1 = completed)) →
            ∃ b', batch_at (ingestionStore s') rid i = Some b' ∧
                  batch_id b' = batch_id b ∧ ids b' = ids b ∧
                  advances (status b) (status b')).
  { intros s1 b1 Hinv1 Hres Hb1 Eid Eids Hst.
    destruct (pq_result_advances s1 s' rid i b1 Hinv1 Hres Hb1)
      as (b' & Hb' & Eid' & Eids' & Hst').
    exists b'. split_and!; [done|congruence..|]. unfold advances.
    destruct Hst as [E|[E1 E2]], Hst' as [E'|[E1' E2']].
    + left. congruence.
    + right; left. split; congruence.
    + right; right. split; [done|]. left. congruence.
    + congruence. }
  destruct e as [d|body| |k]; simpl in Hstep.
  - case_decide; [|done]. injection Hstep as <-. exists b. by split_and!; [..|left].
  - destruct (handleIngestRequest body s) as [[resp s1]|] eqn:Hh; [|done].
    injection Hstep as <-.
    apply handleIngestRequest_cases in Hh as [->|(l & prio & _ & _ & Hq)].
    { exists b. by split_and!; [..|left]. }
    apply processQueue_result in Hq.
    apply (Hpq _ b (inv_registered l prio s Hinv) Hq); try done; [|by left].
    by apply batch_at_registered.
  - destruct (processingTimeoutId s) as [deadline|]; [|done].
    case_decide; [|done]. apply processQueue_result in Hstep.
    apply (Hpq (set_processingTimeoutId None s) b); try done; [|by left].
    destruct Hinv. by constructor.
  - destruct (running s !! k) as [t|] eqn:Hk; [|done].
    destruct (inv_task s Hinv k t Hk) as (Hne & bt & Hbt & Htr).
    destruct (task_ids t) as [|id [|id' rest]]; [done|..]; simpl in Hstep.
    + apply processQueue_result in Hstep.
      pose proof (inv_complete s k t Hinv Hk) as Hinv1.
      destruct (decide (rid = task_ingestionId t ∧ i = task_batch t)) as [[-> ->]|Hc].
      * apply (Hpq _ (with_status completed b) Hinv1 Hstep); try done.
        -- state_simpl. fold (store_write (task_ingestionId t) (task_batch t)
                                completed (ingestionStore s)).
           by rewrite batch_at_store_write, decide_True, Hb.
        -- right. split; [|done]. congruence.
      * apply (Hpq _ b Hinv1 Hstep); try done; [|by left].
        state_simpl. fold (store_write (task_ingestionId t) (task_batch t)
                             completed (ingestionStore s)).
        by rewrite batch_at_store_write, decide_False.
    + injection Hstep as <-. exists b. by split_and!; [..|left].
Qed.


Lemma status_monotone_witness :
  ∃ b', batch_at (ingestionStore demo_next) "uuid-3" 0 = Some b' ∧
        batch_id b' = "uuid-4" ∧ ids b' = [7%Z] ∧
        advances triggered (status b').
Proof.
  apply (status_monotone 1000000 demo_state (ApiCallSettles 0) demo_next "uuid-3" 0
           {| batch_id := "uuid-4"; ids := [7%Z]; status := triggered |}
           demo_state_reachable).
  - vm_compute. reflexivity.
  - vm_compute. reflexivity.
Defined.


(** ** One admission and the log *)

Lemma admitted_log job q' i b s :
  admissionLog (admitted job q' i b s) = (clock s, job) :: admissionLog s.
Proof. unfold admitted, processSingleBatch. simpl. by destruct (ids b). Qed.

(** A call of the dispatch loop that moves a batch out of yet_to_start
    triggers it and logs its admission at the time of the call. *)
Lemma pq_result_logged s s' rid i b b' :
  inv s → pq_result s s' →
  batch_at (ingestionStore s) rid i = Some b → status b = yet_to_start →
  batch_at (ingestionStore s') rid i = Some b' → status b' ≠ yet_to_start →
  status b' = triggered ∧
  ∃ job, admissionLog s' = (clock s, job) :: admissionLog s ∧
         ingestionId job = rid ∧ batchId job = batch_id b.
Proof.
  intros Hinv [Hq|Hq Hw|Hq Hrate Hdis|q job q' j c Hrate Hdis Hd Hf Hy] Hb Hyts Hb' Hn;
    state_simpl; try congruence.
  apply find_batch_Some in Hf as [Hc Hid].
  destruct (inv_batch s Hinv _ _ _ Hc) as [Hids _].
  destruct (admitted_fields job q' j c s Hids) as (Hst & _).
  rewrite Hst, batch_at_store_write in Hb'. case_decide as Hcase; [|congruence].
  destruct Hcase as [-> ->]. rewrite Hc in Hb'. injection Hb' as <-.
  split; [done|]. exists job. rewrite admitted_log.
  split_and!; [done..|]. congruence.
Qed.

(** Every step of an execution that moves a batch out of yet_to_start
    triggers it and logs its admission at the time of the step. *)
Lemma transition_logged s e s' rid i b b' :
  inv s → step e s = Some s' →
  batch_at (ingestionStore s) rid i = Some b → status b = yet_to_start →
  batch_at (ingestionStore s') rid i = Some b' → status b' ≠ yet_to_start →
  status b' = triggered ∧
  ∃ job, admissionLog s' = (clock s, job) :: admissionLog s ∧
         ingestionId job = rid ∧ batchId job = batch_id b.
Proof.
  intros Hinv Hstep Hb Hyts Hb' Hn.
  destruct e as [d|body| |k]; simpl in Hstep.
  - case_decide; [|done]. injection Hstep as <-. state_simpl. congruence.
  - destruct (handleIngestRequest body s) as [[resp s1]|] eqn:Hh; [|done].
    injection Hstep as ->.
    apply handleIngestRequest_cases in Hh as [->|(l & prio & _ & _ & Hq)];
      [congruence|].
    apply processQueue_result in Hq.
    destruct (pq_result_logged _ s' rid i b b' (inv_registered l prio s Hinv) Hq)
      as (Htr & job & Hlog & Hjob); try done.
    { by apply batch_at_registered. }
    split; [done|]. exists job. split; [|done]. rewrite Hlog.
    destruct (registered_spec (uuid_name (uuidCounter s)) l prio s)
      as (_ & _ & _ & _ & _ & _ & _ & _ & _ & _ & -> & ->). done.
  - destruct (processingTimeoutId s) as [deadline|]; [|done].
    case_decide; [|done]. apply processQueue_result in Hstep.
    apply (pq_result_logged (set_processingTimeoutId None s) s' rid i b b');
      try done. destruct Hinv. by constructor.
  - destruct (running s !! k) as [t|] eqn:Hk; [|done].
    destruct (inv_task s Hinv k t Hk) as (Hne & bt & Hbt & Htr).
    destruct (task_ids t) as [|id [|id' rest]]; [done|..]; simpl in Hstep.
    + apply processQueue_result in Hstep.
      apply (pq_result_logged _ s' rid i b b' (inv_complete s k t Hinv Hk) Hstep);
        try done.
      state_simpl. fold (store_write (task_ingestionId t) (task_batch t)
                           completed (ingestionStore s)).
      rewrite batch_at_store_write, decide_False; [done|].
      intros [-> ->]. congruence.
    + injection Hstep as <-. state_simpl. congruence.
Qed.

(** ** The events that complete a batch *)

Lemma step_settle_total s k t :
  running s !! k = Some t → is_Some (step (ApiCallSettles k) s).
Proof.
  intros Hk. simpl. rewrite Hk.
  destruct (task_ids t) as [|id [|id' rest]]; simpl; try done;
    apply processQueue_total.
Qed.

(** The events that settle the ids a running call still awaits complete
    its batch. *)
Lemma settle_run n : ∀ s k t,
  inv s → running s !! k = Some t → length (task_ids t) = S n →
  ∃ s' b', run (replicate (S n) (ApiCallSettles k)) s = Some s' ∧
    batch_at (ingestionStore s') (task_ingestionId t) (task_batch t) = Some b' ∧
    status b' = completed.
Proof.
  induction n as [|n IH]; intros s k t Hinv Hk Hlen.
  - destruct (inv_task s Hinv k t Hk) as (_ & b & Hb & Htr).
    destruct (task_ids t) as [|id [|id' rest]] eqn:Hids; try done.
    pose proof (inv_complete s k t Hinv Hk) as Hinv1.
    destruct (processQueue_total
                (without_task k
                   (write_status (task_ingestionId t) (task_batch t) completed s)))
      as [s' Hq].
    assert (batch_at
              (ingestionStore
                 (without_task k
                    (write_status (task_ingestionId t) (task_batch t) completed s)))
              (task_ingestionId t) (task_batch t) = Some (with_status completed b))
      as Hb1.
    { state_simpl. fold (store_write (task_ingestionId t) (task_batch t)
                           completed (ingestionStore s)).
      by rewrite batch_at_store_write, decide_True, Hb. }
    destruct (pq_result_advances _ s' _ _ _ Hinv1 (processQueue_result _ _ Hq) Hb1)
      as (b' & Hb' & _ & _ & Hst).
    exists s', b'. split_and!; [|done|].
    + simpl. by rewrite Hk, Hids, Hq.
    + by destruct Hst as [->|[? _]].
  - destruct (task_ids t) as [|id [|id' rest]] eqn:Hids; try done.
    set (t' := {| task_ingestionId := task_ingestionId t;
                  task_batch := task_batch t; task_ids := id' :: rest |}).
    pose proof (inv_progress s k t (id' :: rest) Hinv Hk ltac:(done)) as Hinv1.
    destruct (IH _ k t' Hinv1) as (s' & b' & Hrun & Hb' & Hst).
    { state_simpl. apply list_lookup_insert_eq. by eapply lookup_lt_Some. }
    { simpl in *. lia. }
    exists s', b'. split_and!; [|done..].
    change (replicate (S (S n)) (ApiCallSettles k))
      with (ApiCallSettles k :: replicate (S n) (ApiCallSettles k)).
    cbn [run step]. rewrite Hk, Hids. simpl. exact Hrun.
Qed.

(** ** First in, first out within a priority *)

Lemma batch_at_lookup store rid r i b :
  store !! rid = Some r → batches r !! i = Some b → batch_at store rid i = Some b.
Proof. unfold batch_at. by intros ->. Qed.

Lemma record_key_lookup store rid r :
  store !! rid = Some r → record_key store rid = Some (rec_priority r, rec_createdAt r).
Proof. unfold record_key. by intros ->. Qed.

(** C6: of two requests of one priority, the one created earlier is
    served first: in every state of an execution whose clock has stayed
    in [0, 1e14) ms, where the sort key orders the jobs as the doubles
    of the program do, as soon as a batch of the later request has left
    yet_to_start (has been admitted), every batch of the earlier request
    has. *)
Theorem fifo_within_priority t0 s rid1 r1 rid2 r2 :
  reachable t0 s →
  (0 ≤ t0)%Z → (clock s < 100000000000000)%Z →
  ingestionStore s !! rid1 = Some r1 → ingestionStore s !! rid2 = Some r2 →
  rec_priority r1 = rec_priority r2 →
  (rec_createdAt r1 < rec_createdAt r2)%Z →
  Exists (fun b => status b ≠ yet_to_start) (batches r2) →
  Forall (fun b => status b ≠ yet_to_start) (batches r1).
Proof.
  intros Hinv%inv_reachable _ _ H1 H2 Hp Hlt
    (b2 & [i2 Hb2]%list_elem_of_lookup & Hn2)%Exists_exists.
  apply Forall_forall. intros b1 [i1 Hb1]%list_elem_of_lookup.
  apply (inv_fifo s Hinv rid1 rid2 (rec_priority r1) (rec_createdAt r1)
           (rec_createdAt r2) i1 b1 i2 b2); try done.
  - by apply record_key_lookup.
  - rewrite Hp. by apply record_key_lookup.
  - by apply (batch_at_lookup _ _ r2).
  - by apply (batch_at_lookup _ _ r1).
Qed.

Lemma fifo_within_priority_witness :
  Forall (fun b => status b ≠ yet_to_start) (batches (demo_record "uuid-0")).
Proof.
  apply (fifo_within_priority 1000000 demo_state
           "uuid-0" (demo_record "uuid-0") "uuid-3" (demo_record "uuid-3")
           demo_state_reachable).
  - lia.
  - vm_compute. reflexivity.
  - vm_compute. reflexivity.
  - vm_compute. reflexivity.
  - reflexivity.
  - vm_compute. reflexivity.
  - apply Exists_cons_hd. vm_compute. discriminate.
Defined.


(** ** The answer to a request *)

Lemma pq_result_is_Some s s' rid :
  inv s → pq_result s s' →
  is_Some (ingestionStore s !! rid) → is_Some (ingestionStore s' !! rid).
Proof.
  intros Hinv [Hq|Hq Hw|Hq Hrate Hdis|q job q' i b Hrate Hdis Hd Hf Hy]; try done.
  apply find_batch_Some in Hf as [Hb Hid].
  destruct (inv_batch s Hinv _ _ _ Hb) as [Hids _].
  destruct (admitted_fields job q' i b s Hids) as (-> & _).
  by rewrite is_Some_store_write.
Qed.

(** C2, as stated, fails for a request that finds the rate limit open:
    the first request of an execution has its first batch triggered by
    the call of [processQueue] that precedes the response. *)
Lemma first_batch_triggered_at_response :
  ¬ (∀ t0 s body rid s',
       reachable t0 s → valid_ids body → valid_priority body →
       handleIngestRequest body s = Some (Accepted rid, s') →
       ∃ r, ingestionStore s' !! rid = Some r ∧
            Forall (fun b => status b = yet_to_start) (batches r)).
Proof.
  intros H.
  destruct (H 1000000%Z (initialState 1000000) demo_body1 "uuid-0" demo_first)
    as (r & Hr & Hall).
  - constructor.
  - by exists [1; 2; 3; 4]%Z.
  - by exists "medium", MEDIUM.
  - vm_compute. reflexivity.
  - vm_compute in Hr. injection Hr as <-.
    apply Forall_cons in Hall as [Hhd _]. discriminate Hhd.
Qed.

(** C2 (amended): a valid request is answered with its id, and when
    the answer is produced every batch of the request is yet_to_start,
    except at most one that is triggered: none has completed or
    failed. *)
Theorem response_status t0 s body :
  reachable t0 s → valid_ids body → valid_priority body →
  ∃ s' r,
    handleIngestRequest body s = Some (Accepted (uuid_name (uuidCounter s)), s') ∧
    ingestionStore s' !! uuid_name (uuidCounter s) = Some r ∧
    batches r ≠ [] ∧
    Forall (fun b => status b = yet_to_start ∨ status b = triggered) (batches r) ∧
    (∀ i j bi bj, batches r !! i = Some bi → batches r !! j = Some bj →
       status bi = triggered → status bj = triggered → i = j).
Proof.
  intros Hinv%inv_reachable (l & Hl & Hne) (p & prio & Hp & Hprio).
  rewrite (handleIngestRequest_valid body s l p prio) by done.
  set (rid := uuid_name (uuidCounter s)).
  pose proof (inv_registered l prio s Hinv) as Hinv1. fold rid in Hinv1.
  destruct (processQueue_total (registered rid l prio s)) as [s' Hq].
  rewrite Hq. apply processQueue_result in Hq.
  destruct (registered_spec rid l prio s) as (bs & Hst & Hbs & Hlen & _).
  assert (Hreg : ∀ i, batch_at (ingestionStore (registered rid l prio s)) rid i = bs !! i).
  { intros i. by rewrite Hst, batch_at_insert, decide_True. }
  destruct (pq_result_is_Some _ s' rid Hinv1 Hq) as [r Hr].
  { rewrite Hst, lookup_insert_eq. by eexists. }
  assert (Hat : ∀ i, batch_at (ingestionStore s') rid i = batches r !! i).
  { intros i. unfold batch_at. by rewrite Hr. }
  assert (Hyts : ∀ i b, bs !! i = Some b → status b = yet_to_start).
  { intros i b [-> _]%Hbs. done. }
  assert (is_Some (bs !! 0)) as [b0 Hb0].
  { apply lookup_lt_is_Some. rewrite Hlen. unfold ceil_div, BATCH_SIZE.
    destruct l as [|x l]; [done|]. simpl length.
    replace (S (length l) + 3 - 1) with (1 * 3 + (length l)) by lia.
    rewrite Nat.div_add_l by lia. lia. }
  exists s', r. split_and!; [done..| | |].
  - intros E. destruct (pq_result_advances _ s' rid 0 b0 Hinv1 Hq) as (b' & Hb' & _).
    { by rewrite Hreg. }
    by rewrite Hat, E in Hb'.
  - apply Forall_lookup. intros i b Hb. rewrite <- Hat in Hb.
    destruct (pq_result_store _ s' Hinv1 Hq) as [Hsame|(rid0 & i0 & c & _ & _ & Hch)].
    + rewrite Hsame, Hreg in Hb. left. by eapply Hyts.
    + rewrite Hch in Hb. case_decide.
      * injection Hb as <-. by right.
      * rewrite Hreg in Hb. left. by eapply Hyts.
  - intros i j bi bj Hbi Hbj Hti Htj. rewrite <- Hat in Hbi, Hbj.
    destruct (pq_result_store _ s' Hinv1 Hq) as [Hsame|(rid0 & i0 & c & _ & _ & Hch)].
    + rewrite Hsame, Hreg in Hbi. apply Hyts in Hbi. congruence.
    + rewrite Hch in Hbi, Hbj. repeat case_decide; try lia;
        try (rewrite Hreg in Hbi; apply Hyts in Hbi; congruence);
        try (rewrite Hreg in Hbj; apply Hyts in Hbj; congruence).
Qed.

Lemma response_status_witness :
  ∃ s' r,
    handleIngestRequest demo_body2 demo_first = Some (Accepted "uuid-3", s') ∧
    ingestionStore s' !! "uuid-3" = Some r ∧
    batches r ≠ [] ∧
    Forall (fun b => status b = yet_to_start ∨ status b = triggered) (batches r) ∧
    (∀ i j bi bj, batches r !! i = Some bi → batches r !! j = Some bj →
       status bi = triggered → status bj = triggered → i = j).
Proof.
  apply (response_status 1000000 demo_first demo_body2).
  - apply (reachable_step _ (PostIngest demo_body1) (initialState 1000000));
      [constructor|]. vm_compute. reflexivity.
  - by exists [7%Z].
  - by exists "MEDIUM", MEDIUM.
Defined.


(** ** The status of a request, in an execution *)

(** The ids of the store are ids drawn from [uuidv4]: none is a name
    inherited from [Object.prototype], and the status handler answers
    every stored request with its batches in order. *)
Lemma getIngestionStatus_known t0 s rid r :
  reachable t0 s → ingestionStore s !! rid = Some r →
  getIngestionStatus rid s =
    Ok {| ingestion_id := rid;
          overall_status := calculateOverallStatus (batches r);
          status_batches := batches r |}.
Proof.
  intros Hinv%inv_reachable Hr. apply getIngestionStatus_spec; [|done].
  destruct (inv_fresh s Hinv rid) as (k & _ & ->); [by eexists|].
  apply uuid_name_not_inherited.
Qed.

(** In every state of an execution the inherited names are unknown ids
    that are not answered 404. *)
Lemma getIngestionStatus_inherited t0 s rid :
  reachable t0 s → rid ∈ Object_prototype →
  ingestionStore s !! rid = None ∧ getIngestionStatus rid s = Throws.
Proof.
  intros Hinv%inv_reachable Hin.
  assert (ingestionStore s !! rid = None) as Hnone.
  { apply eq_None_not_Some. intros (k & _ & ->)%(inv_fresh s Hinv).
    by apply uuid_name_not_inherited in Hin. }
  split; [done|]. unfold getIngestionStatus, js_get.
  by rewrite Hnone, bool_decide_eq_true_2.
Qed.


(** * Further properties of the code *)

(** ** The operations of the priority queue *)

(** The statements on the order of the queue are for jobs whose
    timestamps are in [0, 1e14) ms ([fractional]): there the sort key,
    an exact rational here, orders the jobs as the doubles of the
    program do. *)

(** X1: on jobs with timestamps in [0, 1e14) ms, [enqueue] keeps the
    heap order, adds the job and nothing else, and the queue is one job
    longer and not empty. *)
Theorem enqueue_adds h j :
  Forall fractional h → fractional j →
  heap_ok h →
  heap_ok (enqueue h j) ∧ enqueue h j ≡ₚ j :: h ∧
  size (enqueue h j) = S (size h) ∧ isEmpty (enqueue h j) = false.
Proof.
  intros _ _ Hh. pose proof (enqueue_perm h j) as Hp.
  assert (length (enqueue h j) = S (length h)) as Hlen by (by rewrite Hp).
  split_and!; [by apply enqueue_ok|done|done|].
  unfold isEmpty. apply bool_decide_eq_false. lia.
Qed.

Lemma enqueue_adds_witness :
  heap_ok (enqueue [mkJob LOW 5 "a"] (mkJob HIGH 9 "c")) ∧
  enqueue [mkJob LOW 5 "a"] (mkJob HIGH 9 "c")
    ≡ₚ mkJob HIGH 9 "c" :: [mkJob LOW 5 "a"] ∧
  size (enqueue [mkJob LOW 5 "a"] (mkJob HIGH 9 "c")) = 2 ∧
  isEmpty (enqueue [mkJob LOW 5 "a"] (mkJob HIGH 9 "c")) = false.
Proof.
  apply (enqueue_adds [mkJob LOW 5 "a"] (mkJob HIGH 9 "c")).
  - repeat constructor; vm_compute; intuition discriminate.
  - vm_compute; intuition discriminate.
  - intros [|[|i]] a p Hi Ha Hp; try lia; discriminate Ha.
Defined.

(** X2: on jobs with timestamps in [0, 1e14) ms, [dequeue] returns null
    exactly on the empty queue; otherwise it returns the job that [peek]
    shows, removes that job and nothing else, and leaves a heap whose
    jobs all have a key at least as large. *)
Theorem dequeue_removes_root h :
  Forall fractional h →
  (dequeue h = None ↔ isEmpty h = true) ∧
  (peek h = fst <$> dequeue h) ∧
  (∀ j h', dequeue h = Some (j, h') →
     h ≡ₚ j :: h' ∧ size h = S (size h') ∧
     (heap_ok h → heap_ok h' ∧ ∀ a, a ∈ h' → key_le j a)).
Proof.
  intros _. split_and!.
  - by rewrite dequeue_None, isEmpty_true.
  - destruct h as [|x h]; [done|]. by rewrite dequeue_cons.
  - intros j h' Hd. pose proof (dequeue_perm h j h' Hd) as Hp.
    split_and!; [done|by apply (dequeue_length h j h')|].
    intros Hh. split; [by apply (dequeue_ok h j h')|].
    intros a Ha. apply (dequeue_least h j h' Hh Hd). rewrite Hp. by right.
Qed.

Lemma dequeue_removes_root_witness :
  heap_ok [mkJob MEDIUM 7 "b"] ∧
  ∀ a, a ∈ [mkJob MEDIUM 7 "b"] → key_le (mkJob HIGH 9 "c") a.
Proof.
  destruct (dequeue_removes_root [mkJob HIGH 9 "c"; mkJob MEDIUM 7 "b"])
    as (_ & _ & H).
  { repeat constructor; vm_compute; intuition discriminate. }
  apply (H (mkJob HIGH 9 "c") [mkJob MEDIUM 7 "b"]); [reflexivity|].
  intros [|[|i]] a p Hi Ha Hp; try lia; try discriminate Ha.
  simpl in Ha, Hp. simplify_eq. vm_compute. discriminate.
Defined.

Lemma drain_spec n : ∀ h,
  heap_ok h → length h = n →
  drain n h ≡ₚ h ∧ StronglySorted key_le (drain n h).
Proof.
  induction n as [|n IH]; intros h Hh Hlen.
  - destruct h; [|done]. split; [done|constructor].
  - destruct (dequeue h) as [[j h']|] eqn:Hd.
    2:{ apply dequeue_None in Hd. by subst. }
    simpl. rewrite Hd.
    pose proof (dequeue_perm h j h' Hd) as Hp.
    destruct (IH h') as [Hp' Hs'].
    { by apply (dequeue_ok h j h'). }
    { apply dequeue_length in Hd. lia. }
    split; [by rewrite Hp, Hp'|].
    apply StronglySorted_cons. split; [|done].
    apply Forall_forall. intros a Ha. apply (dequeue_least h j h' Hh Hd).
    rewrite Hp. right. by rewrite <- Hp'.
Qed.

(** X3: whatever operations, on jobs with timestamps in [0, 1e14) ms,
    built a queue, taking its jobs out one by one returns each job once,
    in the order of their keys. *)
Theorem dequeue_all_sorted ops :
  Forall op_fractional ops →
  dequeue_all (run_ops ops []) ≡ₚ run_ops ops [] ∧
  StronglySorted key_le (dequeue_all (run_ops ops [])).
Proof. intros _. apply drain_spec; [apply run_ops_ok|done]. Qed.

Lemma dequeue_all_sorted_witness :
  dequeue_all (run_ops sample_ops []) ≡ₚ run_ops sample_ops [] ∧
  StronglySorted key_le (dequeue_all (run_ops sample_ops [])).
Proof.
  apply (dequeue_all_sorted sample_ops).
  repeat constructor; vm_compute; intuition discriminate.
Defined.

(** The root stays where it is while a job with no smaller key rises. *)
Lemma _siftUp_loop_root fuel : ∀ h k r n,
  h !! 0 = Some r → h !! k = Some n → key_le r n →
  _siftUp_loop fuel h k !! 0 = Some r.
Proof.
  induction fuel as [|fuel IH]; intros h k r n Hr Hn Hle; [done|].
  rewrite _siftUp_loop_S. case_decide as Hk; [|done]. rewrite Hn.
  destruct (h !! parent k) as [p|] eqn:Hp; [|done].
  destruct (Qltb _ _) eqn:Hcmp; [|done].
  apply Qltb_lt in Hcmp. pose proof (parent_lt k Hk).
  destruct (decide (parent k = 0)) as [E|Hne].
  { rewrite E in Hp. simplify_eq. by apply key_le_not_lt in Hle. }
  apply (IH _ _ r n); [| |done].
  - rewrite (swap_lookup h k (parent k) n p) by done.
    rewrite !decide_False by lia. done.
  - rewrite (swap_lookup h k (parent k) n p) by done.
    rewrite decide_False by lia. by rewrite decide_True.
Qed.

(** X4: on jobs with timestamps in [0, 1e14) ms, a job does not take
    the head of the queue from a job whose key is not larger: the head
    changes only for a strictly smaller key. *)
Theorem enqueue_keeps_head h r j :
  Forall fractional h → fractional j →
  peek h = Some r → key_le r j → peek (enqueue h j) = Some r.
Proof.
  intros _ _. unfold peek. destruct h as [|x h]; [done|]. simpl. intros [= ->] Hle.
  destruct (isEmpty _) eqn:He.
  { apply isEmpty_true in He. pose proof (enqueue_perm (r :: h) j) as Hp.
    rewrite He in Hp. by apply Permutation_nil_cons in Hp. }
  unfold enqueue, _siftUp. apply (_siftUp_loop_root _ _ _ r j); [done| |done].
  replace (length ((r :: h) ++ [j]) - 1) with (length (r :: h))
    by (rewrite length_app; simpl; lia).
  by rewrite lookup_app_r, Nat.sub_diag.
Qed.

Lemma enqueue_keeps_head_witness :
  peek (enqueue [tie_job "b0"] (tie_job "b1")) = Some (tie_job "b0").
Proof.
  apply (enqueue_keeps_head [tie_job "b0"] (tie_job "b0") (tie_job "b1")).
  - repeat constructor; vm_compute; intuition discriminate.
  - vm_compute; intuition discriminate.
  - reflexivity.
  - vm_compute. discriminate.
Defined.

(** X5: on jobs with timestamps in [0, 1e14) ms, a job whose key is
    strictly smaller than every key in the queue is the next job that
    [dequeue] returns, and the queue is then what it was before. *)
Theorem enqueue_jumps_queue h j :
  Forall fractional h → fractional j →
  heap_ok h → (∀ a, a ∈ h → key_lt j a) →
  ∃ h', dequeue (enqueue h j) = Some (j, h') ∧ h' ≡ₚ h ∧ heap_ok h'.
Proof.
  intros _ _ Hh Hlt. pose proof (enqueue_perm h j) as Hp.
  destruct (dequeue (enqueue h j)) as [[r h']|] eqn:Hd.
  2:{ apply dequeue_None in Hd. rewrite Hd in Hp.
      by apply Permutation_nil_cons in Hp. }
  pose proof (enqueue_ok h j Hh) as Hh1.
  pose proof (dequeue_perm _ _ _ Hd) as Hp1.
  assert (r = j) as ->.
  { assert (r ∈ j :: h) as [->|Hr]%elem_of_cons; [|done|].
    { rewrite <- Hp, Hp1. by left. }
    apply Hlt in Hr. exfalso. apply (key_le_not_lt r j); [|done].
    apply (dequeue_least _ _ _ Hh1 Hd). rewrite Hp. by left. }
  exists h'. split_and!; [done| |by apply (dequeue_ok _ j h' Hh1)].
  apply (Permutation_cons_inv (a := j)). by rewrite <- Hp1, Hp.
Qed.

Lemma enqueue_jumps_queue_witness :
  ∃ h', dequeue (enqueue [mkJob LOW 5 "a"] (mkJob HIGH 9 "c"))
          = Some (mkJob HIGH 9 "c", h') ∧
        h' ≡ₚ [mkJob LOW 5 "a"] ∧ heap_ok h'.
Proof.
  apply (enqueue_jumps_queue [mkJob LOW 5 "a"] (mkJob HIGH 9 "c")).
  - repeat constructor; vm_compute; intuition discriminate.
  - vm_compute; intuition discriminate.
  - intros [|[|i]] a p Hi Ha Hp; try lia; discriminate Ha.
  - intros a ->%list_elem_of_singleton. vm_compute. reflexivity.
Defined.

(** X6: the queue does not keep the order of arrival of jobs with equal
    keys.  Three jobs of one priority and one creation time, as the
    batches of one request are, queued a, b, c into the empty queue,
    leave it a, c, b: the third overtakes the second. *)
Theorem equal_keys_not_fifo a b c :
  priority b = priority a → createdAt b = createdAt a →
  priority c = priority a → createdAt c = createdAt a →
  dequeue_all (enqueue (enqueue (enqueue [] a) b) c) = [a; c; b].
Proof.
  intros Hpb Htb Hpc Htc.
  assert (Hk : ∀ x y, priority x = priority y → createdAt x = createdAt y →
            _getJobPriorityValue x = _getJobPriorityValue y).
  { intros x y Hp Ht. unfold _getJobPriorityValue. by rewrite Hp, Ht. }
  assert (Hlt : ∀ x, Qltb (_getJobPriorityValue x) (_getJobPriorityValue x) = false).
  { intros x. apply Qltb_ge, Qle_refl. }
  assert (Hle : ∀ x, Qleb (_getJobPriorityValue x) (_getJobPriorityValue x) = true).
  { intros x. apply Qleb_le, Qle_refl. }
  assert (enqueue [] a = [a]) as -> by reflexivity.
  assert (enqueue [a] b = [a; b]) as ->.
  { unfold enqueue, _siftUp. simpl app. simpl length.
    rewrite _siftUp_loop_S. simpl. by rewrite (Hk b a), Hlt. }
  assert (enqueue [a; b] c = [a; b; c]) as ->.
  { unfold enqueue, _siftUp. simpl app. simpl length.
    rewrite _siftUp_loop_S. simpl. by rewrite (Hk c a), Hlt. }
  assert (_siftDown [c; b] = [c; b]) as Hcb.
  { unfold _siftDown. simpl length. rewrite _siftDown_loop_S.
    unfold smallestChild. simpl. by rewrite (Hk c a), (Hk b a), Hle. }
  assert (dequeue [a; b; c] = Some (a, [c; b])) as Hd1.
  { rewrite dequeue_cons. simpl. by rewrite Hcb. }
  assert (dequeue [c; b] = Some (c, [b])) as Hd2 by (by rewrite dequeue_cons).
  assert (dequeue [b] = Some (b, [])) as Hd3 by (by rewrite dequeue_cons).
  unfold dequeue_all. simpl length. cbn [drain].
  by rewrite Hd1, Hd2, Hd3.
Qed.

Lemma equal_keys_not_fifo_witness :
  dequeue_all (enqueue (enqueue (enqueue [] (tie_job "b0")) (tie_job "b1"))
                 (tie_job "b2"))
  = [tie_job "b0"; tie_job "b2"; tie_job "b1"].
Proof.
  by apply (equal_keys_not_fifo (tie_job "b0") (tie_job "b1") (tie_job "b2")).
Defined.


(** ** The queue and the pending batches *)

Lemma find_batch_intro store job i b :
  batch_at store (ingestionId job) i = Some b → batch_id b = batchId job →
  (∀ i' b', batch_at store (ingestionId job) i' = Some b' →
     batch_id b = batch_id b' → i = i') →
  find_batch store job = Some (i, b).
Proof.
  unfold find_batch, js_get, batch_at.
  destruct (store !! ingestionId job) as [r|]; simpl; [|done].
  intros Hb Hid Hinj. apply list_find_Some. split_and!; [done..|].
  intros j y Hy Hlt Heq. apply (Hinj j y) in Hy; [lia|congruence].
Qed.

Lemma discards_NoDup store q q' : discards store q q' → NoDup q → NoDup q'.
Proof.
  induction 1 as [|q job q1 q2 Hd _ _ IH]; [done|].
  intros Hq. apply IH. apply dequeue_perm in Hd. rewrite Hd in Hq.
  by apply NoDup_cons in Hq as [_ ?].
Qed.

Lemma queue_inv_not_stale s job :
  inv s → queue_inv s → job ∈ jobQueue s →
  ∃ i b, find_batch (ingestionStore s) job = Some (i, b) ∧ status b = yet_to_start.
Proof.
  intros Hinv [_ Hq] (i & b & Hb & Hid & Hy)%Hq. exists i, b. split; [|done].
  apply find_batch_intro; [done..|]. intros i' b'. by apply (inv_batch_id s Hinv).
Qed.

(** Under the two invariants no job is stale, so nothing is dropped. *)
Lemma discards_nothing s q :
  inv s → queue_inv s → discards (ingestionStore s) (jobQueue s) q → q = jobQueue s.
Proof.
  intros Hinv Hqi Hd.
  inversion Hd as [|q0 job q1 q2 Hdq Hst _]; [done|]. subst.
  destruct (queue_inv_not_stale s job Hinv Hqi) as (i & b & Hf & Hy).
  { apply dequeue_perm in Hdq. rewrite Hdq. by left. }
  by destruct (Hst i b).
Qed.

Lemma queue_inv_registered l p s :
  inv s → queue_inv s → queue_inv (registered (uuid_name (uuidCounter s)) l p s).
Proof.
  intros Hinv [Hnd Hq]. set (rid := uuid_name (uuidCounter s)).
  destruct (registered_spec rid l p s) as (bs & Hst & Hbs & _ & Hperm & _).
  assert (Hold : ∀ job, job ∈ jobQueue s → ingestionId job ≠ rid).
  { intros job Hj E. apply (inv_job s Hinv), record_key_is_Some in Hj.
    rewrite E in Hj. apply (inv_fresh s Hinv) in Hj as (k & Hk & E'%uuid_name_inj). lia. }
  split.
  - rewrite Hperm. apply NoDup_app. split_and!; [|by intros job (b & -> & _)%list_elem_of_fmap ?%Hold|done].
    apply NoDup_alt. intros i j job. rewrite !list_lookup_fmap.
    destruct (bs !! i) as [bi|] eqn:Hi, (bs !! j) as [bj|] eqn:Hj; try done.
    apply Hbs in Hi as [-> _]. apply Hbs in Hj as [-> _].
    intros Ei Ej. rewrite <- Ej in Ei. apply (inj Some) in Ei.
    apply (f_equal batchId) in Ei. cbn [batchId job_of batch_id] in Ei.
    apply uuid_name_inj in Ei. lia.
  - intros job Hin. rewrite Hperm in Hin.
    apply elem_of_app in Hin
      as [(b & -> & [k Hk]%list_elem_of_lookup)%list_elem_of_fmap|Hj].
    + exists k, b. rewrite Hst, batch_at_insert. simpl. rewrite decide_True by done.
      split_and!; [done..|]. by apply Hbs in Hk as [-> _].
    + destruct (Hq job Hj) as (i & b & Hb & Hid & Hy). exists i, b.
      rewrite Hst, batch_at_insert, decide_False; [done|by apply Hold].
Qed.

Lemma queue_inv_admit s job q' i b :
  inv s → queue_inv s → dequeue (jobQueue s) = Some (job, q') →
  find_batch (ingestionStore s) job = Some (i, b) → status b = yet_to_start →
  queue_inv (admitted job q' i b s).
Proof.
  intros Hinv [Hnd Hq] Hd Hf Hy.
  apply find_batch_Some in Hf as [Hb Hid].
  destruct (inv_batch s Hinv _ _ _ Hb) as [Hids _].
  destruct (admitted_fields job q' i b s Hids) as (Hst & Hq' & _).
  pose proof (dequeue_perm _ _ _ Hd) as Hperm. rewrite Hperm in Hnd.
  apply NoDup_cons in Hnd as [Hnotin Hnd'].
  split; rewrite Hq'; [done|]. intros j Hj.
  assert (j ∈ jobQueue s) as Hjs by (rewrite Hperm; by right).
  destruct (Hq j Hjs) as (i' & b' & Hb' & Hid' & Hy'). exists i', b'.
  split_and!; [|done..]. rewrite Hst, batch_at_store_write, decide_False; [done|].
  intros [E ->]. destruct Hnotin.
  assert (j = job) as <-; [|done].
  rewrite E in Hb'. rewrite Hb in Hb'. injection Hb' as <-.
  assert (job ∈ jobQueue s) as Hjob by (rewrite Hperm; by left).
  apply (inv_job s Hinv) in Hjs, Hjob. rewrite E, Hjob in Hjs.
  destruct j, job. simpl in *. congruence.
Qed.

Lemma queue_inv_pq s s' : inv s → queue_inv s → pq_result s s' → queue_inv s'.
Proof.
  intros Hinv Hqi [Hq|Hq Hw|Hq Hrate Hdis|q job q' i b Hrate Hdis Hd Hf Hy].
  - done.
  - done.
  - by apply (discards_nothing s) in Hdis.
  - apply (discards_nothing s) in Hdis as ->; [|done..].
    by apply queue_inv_admit.
Qed.

Lemma queue_inv_complete s k t :
  inv s → queue_inv s → running s !! k = Some t →
  queue_inv (without_task k
               (write_status (task_ingestionId t) (task_batch t) completed s)).
Proof.
  intros Hinv [Hnd Hq] Hk.
  destruct (inv_task s Hinv k t Hk) as (_ & bt & Hbt & Htr).
  split; state_simpl; [done|]. intros job Hj.
  destruct (Hq job Hj) as (i & b & Hb & Hid & Hy). exists i, b.
  fold (store_write (task_ingestionId t) (task_batch t) completed (ingestionStore s)).
  rewrite batch_at_store_write, decide_False; [done|].
  intros [E ->]. rewrite E in Hb. congruence.
Qed.

Lemma queue_inv_step e s s' :
  inv s → queue_inv s → step e s = Some s' → queue_inv s'.
Proof.
  intros Hinv Hqi. destruct e as [d|body| |k]; simpl.
  - case_decide; [|done]. by intros [= <-].
  - destruct (handleIngestRequest body s) as [[resp s1]|] eqn:Hh; [|done].
    intros [= <-].
    apply handleIngestRequest_cases in Hh as [->|(l & prio & _ & _ & Hq)]; [done|].
    apply processQueue_result in Hq.
    apply (queue_inv_pq _ s1 (inv_registered l prio s Hinv)); [|done].
    by apply queue_inv_registered.
  - destruct (processingTimeoutId s) as [deadline|]; [|done].
    case_decide; [|done]. intros Hq%processQueue_result.
    apply (queue_inv_pq (set_processingTimeoutId None s) s'); [|done..].
    destruct Hinv. by constructor.
  - destruct (running s !! k) as [t|] eqn:Hk; [|done].
    destruct (inv_task s Hinv k t Hk) as [Hne _].
    destruct (task_ids t) as [|id [|id' rest]]; [done|..]; simpl.
    + intros Hq%processQueue_result.
      apply (queue_inv_pq _ s' (inv_complete s k t Hinv Hk)); [|done].
      by apply queue_inv_complete.
    + by intros [= <-].
Qed.

Lemma queue_inv_reachable t0 s : reachable t0 s → queue_inv s.
Proof.
  induction 1 as [|e s s' Hs IH He].
  - split; [constructor|]. intros job Hj. by apply elem_of_nil in Hj.
  - by apply (queue_inv_step e s s'); [apply (inv_reachable t0)|..].
Qed.

(** X7: in every execution the queue holds one job for each batch that
    is yet_to_start and no other job, each once; so [processQueue] never
    meets a stale job there, and a call takes at most the root out of
    the queue. *)
Theorem queue_holds_pending t0 s :
  reachable t0 s →
  NoDup (jobQueue s) ∧
  (∀ job, job ∈ jobQueue s →
     ¬ stale (ingestionStore s) job ∧
     ∃ i b, find_batch (ingestionStore s) job = Some (i, b) ∧
            status b = yet_to_start) ∧
  (∀ rid r i b, ingestionStore s !! rid = Some r → batches r !! i = Some b →
     status b = yet_to_start →
     job_of rid (rec_priority r) (rec_createdAt r) b ∈ jobQueue s) ∧
  (∀ s', processQueue s = Some s' →
     jobQueue s' = jobQueue s ∨
     ∃ job, dequeue (jobQueue s) = Some (job, jobQueue s')).
Proof.
  intros Hs. pose proof (inv_reachable t0 s Hs) as Hinv.
  pose proof (queue_inv_reachable t0 s Hs) as Hqi. split_and!.
  - apply Hqi.
  - intros job Hj.
    destruct (queue_inv_not_stale s job Hinv Hqi Hj) as (i & b & Hf & Hy).
    split; [|by eauto]. intros Hst. by apply (Hst i b).
  - intros rid r i b Hr Hb Hy. apply (inv_pending s Hinv rid i); [|by apply record_key_lookup|done].
    by apply (batch_at_lookup _ _ r).
  - intros s' [Hq|Hq Hw|Hq Hrate Hdis|q job q' i b Hrate Hdis Hd Hf Hy]%processQueue_result.
    + by left.
    + by left.
    + by apply (discards_nothing s) in Hdis.
    + apply (discards_nothing s) in Hdis as ->; [|done..]. right. exists job.
      apply find_batch_Some in Hf as [Hb _].
      destruct (inv_batch s Hinv _ _ _ Hb) as [Hids _].
      by destruct (admitted_fields job q' i b s Hids) as (_ & -> & _).
Qed.

Lemma queue_holds_pending_witness : NoDup (jobQueue demo_first).
Proof.
  apply (queue_holds_pending 1000000 demo_first).
  apply (reachable_step _ (PostIngest demo_body1) (initialState 1000000));
    [constructor|]. vm_compute. reflexivity.
Defined.


(** ** Wake-ups *)

Lemma admitted_sched job q' i b s :
  running (admitted job q' i b s) ≠ [] ∧
  processingTimeoutId (admitted job q' i b s) = processingTimeoutId s ∧
  lastProcessingStartTime (admitted job q' i b s) = clock s.
Proof.
  unfold admitted, processSingleBatch. simpl.
  destruct (ids b); simpl; (split_and!; [|done..]); by destruct (running s).
Qed.

Lemma sched_inv_pq s s' :
  (∀ d, processingTimeoutId s = Some d →
     (d ≤ lastProcessingStartTime s + RATE_LIMIT_MS)%Z) →
  lastProcessingStartTime s = hd 0%Z (admission_times s) →
  pq_result s s' → sched_inv s'.
Proof.
  intros Htimer Hlast [Hq|Hq Hw|Hq Hrate Hdis|q job q' i b Hrate Hdis Hd Hf Hy];
    unfold sched_inv, admission_times in *.
  - by split_and!.
  - state_simpl. split_and!; [by right| |done]. intros d [= <-]. lia.
  - state_simpl. by split_and!.
  - destruct (admitted_sched job q' i b s) as (Hrun & -> & ->).
    rewrite admitted_log. simpl. split_and!; [by left| |done].
    intros d Hd'%Htimer. unfold RATE_LIMIT_MS in *. lia.
Qed.

Lemma sched_inv_step e s s' : sched_inv s → step e s = Some s' → sched_inv s'.
Proof.
  intros (Hwake & Htimer & Hlast). destruct e as [d|body| |k]; simpl.
  - case_decide; [|done]. by intros [= <-].
  - destruct (handleIngestRequest body s) as [[resp s1]|] eqn:Hh; [|done].
    intros [= <-].
    apply handleIngestRequest_cases in Hh as [->|(l & prio & _ & _ & Hq)]; [done|].
    apply processQueue_result in Hq.
    destruct (registered_spec (uuid_name (uuidCounter s)) l prio s)
      as (_ & _ & _ & _ & _ & _ & _ & Et & El & _ & _ & Ea).
    apply (sched_inv_pq _ s1) in Hq; [done|..];
      unfold admission_times; rewrite ?Et, ?El, ?Ea; done.
  - destruct (processingTimeoutId s) as [deadline|]; [|done].
    case_decide; [|done]. intros Hq%processQueue_result.
    by apply (sched_inv_pq (set_processingTimeoutId None s) s').
  - destruct (running s !! k) as [t|] eqn:Hk; [|done].
    destruct (task_ids t) as [|id [|id' rest]]; simpl.
    + intros Hq%processQueue_result. by apply (sched_inv_pq (without_task k s) s').
    + intros Hq%processQueue_result.
      by apply (sched_inv_pq
                  (without_task k
                     (write_status (task_ingestionId t) (task_batch t) completed s)) s').
    + intros [= <-]. split_and!; [|done..]. intros _. left. state_simpl.
      intros E. apply (f_equal length) in E. rewrite length_insert in E.
      apply lookup_lt_Some in Hk. simpl in E. lia.
Qed.

Lemma sched_inv_reachable t0 s : reachable t0 s → sched_inv s.
Proof.
  induction 1 as [|e s s' _ IH He]; [|by apply (sched_inv_step e s s')].
  by split_and!.
Qed.

(** X8: in every execution a queue that is not empty is never left
    alone: a call of [processSingleBatch] is running (and will call
    [processQueue] when it ends) or the timer is pending; a pending
    timer is due no later than RATE_LIMIT_MS after the last admission;
    and [lastProcessingStartTime] is the time of the newest admission,
    or 0 before the first. *)
Theorem queue_is_woken t0 s :
  reachable t0 s →
  (jobQueue s ≠ [] → running s ≠ [] ∨ is_Some (processingTimeoutId s)) ∧
  (∀ d, processingTimeoutId s = Some d →
     (d ≤ lastProcessingStartTime s + RATE_LIMIT_MS)%Z) ∧
  lastProcessingStartTime s = hd 0%Z (admission_times s).
Proof. apply sched_inv_reachable. Qed.

Lemma queue_is_woken_witness :
  running demo_first ≠ [] ∨ is_Some (processingTimeoutId demo_first).
Proof.
  apply (queue_is_woken 1000000 demo_first).
  - apply (reachable_step _ (PostIngest demo_body1) (initialState 1000000));
      [constructor|]. vm_compute. reflexivity.
  - vm_compute. discriminate.
Defined.

(** ** The records of the store *)

Lemma ids_alter_status st i (bs : list Batch) :
  ids <$> alter (with_status st) i bs = ids <$> bs.
Proof.
  apply list_eq. intros j. rewrite !list_lookup_fmap, list_lookup_alter.
  case_decide; [subst|done]. by destruct (bs !! j).
Qed.

Lemma batch_id_alter_status st i (bs : list Batch) :
  batch_id <$> alter (with_status st) i bs = batch_id <$> bs.
Proof.
  apply list_eq. intros j. rewrite !list_lookup_fmap, list_lookup_alter.
  case_decide; [subst|done]. by destruct (bs !! j).
Qed.

(** What two versions of a record share. *)
Lemma store_write_record rid0 i0 st store rid r :
  store !! rid = Some r →
  ∃ r', store_write rid0 i0 st store !! rid = Some r' ∧
    rec_status r' = rec_status r ∧ rec_priority r' = rec_priority r ∧
    rec_createdAt r' = rec_createdAt r ∧ original_ids r' = original_ids r ∧
    ids <$> batches r' = ids <$> batches r ∧
    batch_id <$> batches r' = batch_id <$> batches r.
Proof.
  intros Hr. unfold store_write. rewrite lookup_alter. case_decide as E.
  - subst. rewrite Hr. simpl. eexists. split; [done|]. simpl.
    by rewrite ids_alter_status, batch_id_alter_status.
  - exists r. by rewrite Hr.
Qed.

Lemma pq_result_record s s' rid r :
  inv s → pq_result s s' → ingestionStore s !! rid = Some r →
  ∃ r', ingestionStore s' !! rid = Some r' ∧
    rec_status r' = rec_status r ∧ rec_priority r' = rec_priority r ∧
    rec_createdAt r' = rec_createdAt r ∧ original_ids r' = original_ids r ∧
    ids <$> batches r' = ids <$> batches r ∧
    batch_id <$> batches r' = batch_id <$> batches r.
Proof.
  intros Hinv [Hq|Hq Hw|Hq Hrate Hdis|q job q' i b Hrate Hdis Hd Hf Hy] Hr;
    try (exists r; by rewrite ?Hr).
  apply find_batch_Some in Hf as [Hb Hid].
  destruct (inv_batch s Hinv _ _ _ Hb) as [Hids _].
  destruct (admitted_fields job q' i b s Hids) as (-> & _).
  by apply store_write_record.
Qed.

(** Every step of an execution keeps each record in the store, with
    its fields and the ids and items of its batches. *)
Lemma step_record e s s' rid r :
  inv s → step e s = Some s' → ingestionStore s !! rid = Some r →
  ∃ r', ingestionStore s' !! rid = Some r' ∧
    rec_status r' = rec_status r ∧ rec_priority r' = rec_priority r ∧
    rec_createdAt r' = rec_createdAt r ∧ original_ids r' = original_ids r ∧
    ids <$> batches r' = ids <$> batches r ∧
    batch_id <$> batches r' = batch_id <$> batches r.
Proof.
  intros Hinv Hstep Hr. destruct e as [d|body| |k]; simpl in Hstep.
  - case_decide; [|done]. injection Hstep as <-. exists r. by rewrite ?Hr.
  - destruct (handleIngestRequest body s) as [[resp s1]|] eqn:Hh; [|done].
    injection Hstep as ->.
    apply handleIngestRequest_cases in Hh as [->|(l & prio & _ & _ & Hq)].
    { exists r. by rewrite ?Hr. }
    apply processQueue_result in Hq.
    apply (pq_result_record _ s' rid r (inv_registered l prio s Hinv) Hq).
    destruct (registered_spec (uuid_name (uuidCounter s)) l prio s) as (bs & -> & _).
    rewrite lookup_insert_ne; [done|]. intros <-.
    destruct (inv_fresh s Hinv (uuid_name (uuidCounter s)))
      as (k & Hk & E%uuid_name_inj); [by eexists|lia].
  - destruct (processingTimeoutId s) as [deadline|]; [|done].
    case_decide; [|done]. apply processQueue_result in Hstep.
    apply (pq_result_record (set_processingTimeoutId None s) s' rid r); try done.
    destruct Hinv. by constructor.
  - destruct (running s !! k) as [t|] eqn:Hk; [|done].
    destruct (inv_task s Hinv k t Hk) as [Hne _].
    destruct (task_ids t) as [|id [|id' rest]]; [done|..]; simpl in Hstep.
    + apply processQueue_result in Hstep.
      destruct (store_write_record (task_ingestionId t) (task_batch t) completed
                  (ingestionStore s) rid r Hr)
        as (r1 & Hr1 & E1 & E2 & E3 & E4 & E5 & E6).
      destruct (pq_result_record _ s' rid r1 (inv_complete s k t Hinv Hk) Hstep Hr1)
        as (r' & Hr' & F1 & F2 & F3 & F4 & F5 & F6).
      exists r'. split_and!; [done|congruence..].
    + injection Hstep as <-. exists r. by rewrite ?Hr.
Qed.

(** X9: no step of an execution removes or replaces a stored request:
    its priority, creation time and original ids stay, and so do the
    ids and the items of its batches, in their order. *)
Theorem records_are_kept t0 s e s' rid r :
  reachable t0 s → step e s = Some s' → ingestionStore s !! rid = Some r →
  ∃ r', ingestionStore s' !! rid = Some r' ∧
    rec_priority r' = rec_priority r ∧ rec_createdAt r' = rec_createdAt r ∧
    original_ids r' = original_ids r ∧
    ids <$> batches r' = ids <$> batches r ∧
    batch_id <$> batches r' = batch_id <$> batches r.
Proof.
  intros Hinv%inv_reachable Hstep Hr.
  destruct (step_record e s s' rid r Hinv Hstep Hr) as (r' & ? & _ & ?).
  by exists r'.
Qed.

Lemma records_are_kept_witness :
  ∃ r', ingestionStore demo_next !! "uuid-0" = Some r' ∧
    rec_priority r' = MEDIUM ∧ rec_createdAt r' = 1000000%Z ∧
    original_ids r' = [1; 2; 3; 4]%Z ∧
    ids <$> batches r' = [[1; 2; 3]; [4]]%Z ∧
    batch_id <$> batches r' = ["uuid-1"; "uuid-2"].
Proof.
  apply (records_are_kept 1000000 demo_state (ApiCallSettles 0) demo_next "uuid-0"
           (demo_record "uuid-0") demo_state_reachable).
  - vm_compute. reflexivity.
  - vm_compute. reflexivity.
Defined.

Lemma registered_record rid l p s :
  l ≠ [] →
  ∃ r, ingestionStore (registered rid l p s) = <[rid := r]> (ingestionStore s) ∧
       rec_status r = yet_to_start ∧ rec_priority r = p ∧
       rec_createdAt r = clock s ∧ original_ids r = l ∧
       batches r ≠ [] ∧ concat (ids <$> batches r) = l ∧
       length (batches r) = ceil_div (length l) BATCH_SIZE.
Proof.
  intros Hne. unfold registered.
  destruct (batch_loop _ _ _ _ _ _ _ _) as [bs s2] eqn:Hloop.
  apply batch_loop_spec in Hloop
    as (new & -> & Hlen & Hnew & Hcat & _ & _ & _ & Hst & _); [|lia].
  state_simpl. rewrite Hst, alter_insert_eq. simpl app.
  rewrite Nat.sub_0_r in Hlen. eexists. split; [done|]. simpl.
  assert (Forall (fun b => status b = yet_to_start) new) as Hall.
  { apply Forall_lookup. intros k b Hk. by apply Hnew in Hk as [-> _]. }
  split_and!; try done.
  - destruct (calculateOverallStatus_cases new) as [[_ ->]|[(H & _)|(H & _)]];
      [done|by destruct H..].
  - intros ->. simpl in Hcat. by destruct l.
Qed.

Lemma admitted_dom job q' i b s rid :
  is_Some (ingestionStore (admitted job q' i b s) !! rid) ↔
  is_Some (ingestionStore s !! rid).
Proof.
  unfold admitted, processSingleBatch. simpl.
  destruct (ids b); simpl; fold (store_write (ingestionId job) i triggered (ingestionStore s));
    [fold (store_write (ingestionId job) i completed
             (store_write (ingestionId job) i triggered (ingestionStore s)))|];
    by rewrite ?is_Some_store_write.
Qed.

Lemma pq_result_dom s s' rid :
  pq_result s s' →
  is_Some (ingestionStore s' !! rid) ↔ is_Some (ingestionStore s !! rid).
Proof.
  intros [Hq|Hq Hw|Hq Hrate Hdis|q job q' i b Hrate Hdis Hd Hf Hy]; try done.
  apply admitted_dom.
Qed.

Lemma record_inv_step e s s' : inv s → record_inv s → step e s = Some s' → record_inv s'.
Proof.
  intros Hinv Hrec Hstep rid r' Hr'.
  destruct (ingestionStore s !! rid) as [r|] eqn:Hr.
  - destruct (step_record e s s' rid r Hinv Hstep Hr)
      as (r1 & Hr1 & E1 & _ & _ & E4 & E5 & _).
    rewrite Hr' in Hr1. injection Hr1 as <-.
    destruct (Hrec rid r Hr) as (F1 & F2 & F3).
    split_and!; [congruence| |congruence].
    intros E. rewrite E in E5. by destruct (batches r).
  - assert (is_Some (ingestionStore s' !! rid)) as Hs' by (by eexists).
    destruct e as [d|body| |k]; simpl in Hstep.
    + case_decide; [|done]. injection Hstep as <-. state_simpl. congruence.
    + destruct (handleIngestRequest body s) as [[resp s1]|] eqn:Hh; [|done].
      injection Hstep as ->.
      apply handleIngestRequest_cases in Hh as [->|(l & prio & Hne & _ & Hq)];
        [congruence|].
      apply processQueue_result in Hq.
      destruct (registered_record (uuid_name (uuidCounter s)) l prio s Hne)
        as (r0 & Hst & G1 & _ & _ & G4 & G5 & G6 & _).
      apply (pq_result_dom _ _ rid Hq) in Hs'. rewrite Hst in Hs'.
      destruct (decide (rid = uuid_name (uuidCounter s))) as [->|Hrid].
      * destruct (pq_result_record _ s' (uuid_name (uuidCounter s)) r0
                    (inv_registered l prio s Hinv) Hq)
          as (r1 & Hr1 & E1 & _ & _ & E4 & E5 & _).
        { by rewrite Hst, lookup_insert_eq. }
        rewrite Hr' in Hr1. injection Hr1 as <-.
        split_and!; [congruence| |congruence].
        intros E. rewrite E in E5. by destruct (batches r0).
      * rewrite lookup_insert_ne, Hr in Hs' by done. by destruct Hs'.
    + destruct (processingTimeoutId s) as [deadline|]; [|done].
      case_decide; [|done]. apply processQueue_result in Hstep.
      apply (pq_result_dom _ _ rid Hstep) in Hs'. state_simpl.
      rewrite Hr in Hs'. by destruct Hs'.
    + destruct (running s !! k) as [t|] eqn:Hk; [|done].
      destruct (task_ids t) as [|id [|id' rest]]; simpl in Hstep.
      * apply processQueue_result in Hstep.
        apply (pq_result_dom _ _ rid Hstep) in Hs'. state_simpl.
        rewrite Hr in Hs'. by destruct Hs'.
      * apply processQueue_result in Hstep.
        apply (pq_result_dom _ _ rid Hstep) in Hs'.
        change (is_Some (store_write (task_ingestionId t) (task_batch t) completed
                           (ingestionStore s) !! rid)) in Hs'.
        rewrite is_Some_store_write, Hr in Hs'. by destruct Hs'.
      * injection Hstep as <-. state_simpl. congruence.
Qed.

Lemma record_inv_reachable t0 s : reachable t0 s → record_inv s.
Proof.
  induction 1 as [|e s s' Hs IH He].
  - intros rid r Hr. cbn in Hr. by rewrite lookup_empty in Hr.
  - by apply (record_inv_step e s s'); [apply (inv_reachable t0)|..].
Qed.

(** X10: the field [status] that is stored with a request is never
    brought up to date: in every execution it reads yet_to_start for
    every stored request, whatever its batches have become.  Every
    stored request has a batch, and its batches, put end to end, are its
    original ids. *)
Theorem stored_status_is_stale t0 s rid r :
  reachable t0 s → ingestionStore s !! rid = Some r →
  rec_status r = yet_to_start ∧ batches r ≠ [] ∧
  concat (ids <$> batches r) = original_ids r.
Proof. intros Hs. by apply (record_inv_reachable t0). Qed.

Lemma stored_status_is_stale_witness :
  rec_status (demo_record "uuid-0") = yet_to_start ∧
  batches (demo_record "uuid-0") ≠ [] ∧
  concat (ids <$> batches (demo_record "uuid-0")) = original_ids (demo_record "uuid-0").
Proof.
  apply (stored_status_is_stale 1000000 demo_state "uuid-0" (demo_record "uuid-0")
           demo_state_reachable).
  vm_compute. reflexivity.
Defined.


(** ** One call of [processQueue] *)

Lemma discards_length store q q' : discards store q q' → length q' ≤ length q.
Proof.
  induction 1 as [|q job q' q'' Hd _ _ IH]; [done|].
  apply dequeue_length in Hd. lia.
Qed.

Lemma admitted_frame job q' i b s :
  jobQueue (admitted job q' i b s) = q' ∧
  uuidCounter (admitted job q' i b s) = uuidCounter s ∧
  clock (admitted job q' i b s) = clock s ∧
  ∃ t, running (admitted job q' i b s) = running s ++ [t].
Proof.
  unfold admitted, processSingleBatch. simpl.
  destruct (ids b); simpl; split_and!; eauto.
Qed.

Lemma pq_result_frame s s' :
  pq_result s s' →
  length (jobQueue s') ≤ length (jobQueue s) ∧
  (∃ ts, running s' = running s ++ ts ∧ length ts ≤ 1) ∧
  clock s' = clock s ∧ uuidCounter s' = uuidCounter s.
Proof.
  intros [Hq|Hq Hw|Hq Hrate Hdis|q job q' i b Hrate Hdis Hd Hf Hy].
  - split_and!; [lia| |done..]. exists []. split; [by rewrite app_nil_r|simpl; lia].
  - split_and!; [state_simpl; lia| |done..]. exists []. split; [by rewrite app_nil_r|simpl; lia].
  - split_and!; [simpl; lia| |done..]. exists []. split; [by rewrite app_nil_r|simpl; lia].
  - destruct (admitted_frame job q' i b s) as (Eq & Eu & Ec & t & Er).
    split_and!; [| |done..].
    + rewrite Eq. apply discards_length in Hdis. apply dequeue_length in Hd. lia.
    + exists [t]. split; [done|simpl; lia].
Qed.

(** X11: [processQueue] returns on every state, however many stale jobs
    it has to drop on its way.  It adds no job to the queue, starts at
    most one call of [processSingleBatch], and neither adds a request
    to the store nor removes one. *)
Theorem processQueue_bounded s :
  ∃ s', processQueue s = Some s' ∧
    length (jobQueue s') ≤ length (jobQueue s) ∧
    (∃ ts, running s' = running s ++ ts ∧ length ts ≤ 1) ∧
    clock s' = clock s ∧ uuidCounter s' = uuidCounter s ∧
    ∀ rid, is_Some (ingestionStore s' !! rid) ↔ is_Some (ingestionStore s !! rid).
Proof.
  destruct (processQueue_total s) as [s' Hq]. exists s'. split; [done|].
  apply processQueue_result in Hq.
  destruct (pq_result_frame s s' Hq) as (H1 & H2 & H3 & H4).
  split_and!; try done. intros rid. by apply pq_result_dom.
Qed.

(** ** A request and its status *)

(** X12: what is submitted can be read back.  In every execution a
    request with a list of ids that is not empty and a priority that
    is accepted is answered with an id that was not in use, and the
    status of that id then lists ceil(n / BATCH_SIZE) batches whose
    items, put end to end, are the ids that were submitted. *)
Theorem submit_then_status t0 s body l p prio :
  reachable t0 s →
  body_ids body = Some l → l ≠ [] →
  body_priority body = PriorityString p →
  parsePriority (toUpperCase p) = Some prio →
  ∃ rid s' sb,
    handleIngestRequest body s = Some (Accepted rid, s') ∧
    ingestionStore s !! rid = None ∧
    getIngestionStatus rid s' = Ok sb ∧
    ingestion_id sb = rid ∧
    concat (ids <$> status_batches sb) = l ∧
    length (status_batches sb) = ceil_div (length l) BATCH_SIZE.
Proof.
  intros Hs Hl Hne Hp Hprio. pose proof (inv_reachable t0 s Hs) as Hinv.
  pose proof (handleIngestRequest_valid body s l p prio Hl Hne Hp Hprio) as Hh.
  destruct (processQueue_total (registered (uuid_name (uuidCounter s)) l prio s))
    as [s' Hq].
  rewrite Hq in Hh. simpl in Hh.
  destruct (registered_record (uuid_name (uuidCounter s)) l prio s Hne)
    as (r0 & Hst & _ & _ & _ & _ & _ & G6 & G7).
  destruct (pq_result_record _ s' (uuid_name (uuidCounter s)) r0
              (inv_registered l prio s Hinv) (processQueue_result _ _ Hq))
    as (r' & Hr' & _ & _ & _ & _ & E5 & _).
  { by rewrite Hst, lookup_insert_eq. }
  assert (reachable t0 s') as Hs'.
  { apply (reachable_step t0 (PostIngest body) s); [done|]. simpl. by rewrite Hh. }
  exists (uuid_name (uuidCounter s)), s'. eexists. split_and!.
  - done.
  - apply eq_None_not_Some. intros (k & Hk & E%uuid_name_inj)%(inv_fresh s Hinv). lia.
  - by apply (getIngestionStatus_known t0 s' _ r').
  - done.
  - simpl. by rewrite E5.
  - simpl. by rewrite <- (length_fmap ids), E5, length_fmap.
Qed.

Lemma submit_then_status_witness :
  ∃ rid s' sb,
    handleIngestRequest demo_body1 (initialState 1000000) = Some (Accepted rid, s') ∧
    ingestionStore (initialState 1000000) !! rid = None ∧
    getIngestionStatus rid s' = Ok sb ∧
    ingestion_id sb = rid ∧
    concat (ids <$> status_batches sb) = [1; 2; 3; 4]%Z ∧
    length (status_batches sb) = ceil_div (length [1; 2; 3; 4]%Z) BATCH_SIZE.
Proof.
  apply (submit_then_status 1000000 (initialState 1000000) demo_body1
           [1; 2; 3; 4]%Z "medium" MEDIUM).
  - constructor.
  - reflexivity.
  - discriminate.
  - reflexivity.
  - vm_compute. reflexivity.
Defined.

Lemma upper_ascii_idem c : upper_ascii (upper_ascii c) = upper_ascii c.
Proof. destruct c as [[] [] [] [] [] [] [] []]; reflexivity. Qed.

Lemma toUpperCase_idem p : toUpperCase (toUpperCase p) = toUpperCase p.
Proof. induction p as [|c p IH]; simpl; [done|]. by rewrite upper_ascii_idem, IH. Qed.

Lemma toUpperCase_empty p : toUpperCase p = "" ↔ p = "".
Proof. by destruct p. Qed.

(** X13: the handler reads the priority without regard to the case of
    its ASCII letters: a request is answered as the same request with
    its priority in upper case is, and leaves the same state. *)
Theorem priority_case_insensitive l p s :
  handleIngestRequest {| body_ids := l; body_priority := PriorityString p |} s =
  handleIngestRequest
    {| body_ids := l; body_priority := PriorityString (toUpperCase p) |} s.
Proof.
  unfold handleIngestRequest. cbn [body_ids body_priority].
  by rewrite toUpperCase_idem, (bool_decide_ext _ _ (toUpperCase_empty p)).
Qed.

(** ** Resetting the service *)

Lemma dequeue_loop_empty fuel : ∀ h, length h ≤ fuel → dequeue_loop fuel h = [].
Proof.
  induction fuel as [|fuel IH]; intros h Hlen; cbn [dequeue_loop].
  - destruct h; [done|]. simpl in Hlen. lia.
  - destruct (isEmpty h) eqn:He; [by apply isEmpty_true|].
    destruct (dequeue h) as [[j h']|] eqn:Hd.
    + apply IH. apply dequeue_length in Hd. lia.
    + by apply dequeue_None.
Qed.

(** X14: [resetServiceStateForTesting] empties the queue whatever it
    holds, leaves no timer pending and zeroes the time of the last
    admission; it touches neither the store nor the calls that are
    running.  A call of [processQueue] that follows does nothing, and
    so does a second reset. *)
Theorem reset_clears_scheduler s :
  jobQueue (resetServiceStateForTesting s) = [] ∧
  processingTimeoutId (resetServiceStateForTesting s) = None ∧
  lastProcessingStartTime (resetServiceStateForTesting s) = 0%Z ∧
  ingestionStore (resetServiceStateForTesting s) = ingestionStore s ∧
  running (resetServiceStateForTesting s) = running s ∧
  processQueue (resetServiceStateForTesting s) = Some (resetServiceStateForTesting s) ∧
  resetServiceStateForTesting (resetServiceStateForTesting s)
    = resetServiceStateForTesting s.
Proof.
  unfold resetServiceStateForTesting, processQueue.
  destruct (processingTimeoutId s) eqn:Ht; state_simpl;
    rewrite ?Ht, !dequeue_loop_empty by done; state_simpl;
    rewrite ?Ht; split_and!; reflexivity.
Qed.

(** ** When a batch is completed *)

Lemma pq_not_completing s s' rid i b b' :
  inv s → pq_result s s' →
  batch_at (ingestionStore s) rid i = Some b → status b ≠ completed →
  batch_at (ingestionStore s') rid i = Some b' → status b' ≠ completed.
Proof.
  intros Hinv Hq Hb Hnc Hb'.
  destruct (pq_result_advances s s' rid i b Hinv Hq Hb) as (b1 & Hb1 & _ & _ & Hst).
  rewrite Hb' in Hb1. injection Hb1 as <-.
  destruct Hst as [->|[_ ->]]; done.
Qed.

(** X15: a batch is completed by one event only: the end of the last
    call [simulateApiCall] of the call of [processSingleBatch] that
    holds it.  No other step of an execution, and no earlier call,
    makes its status [completed]. *)
Theorem completed_by_last_call t0 s e s' rid i b b' :
  reachable t0 s → step e s = Some s' →
  batch_at (ingestionStore s) rid i = Some b → status b ≠ completed →
  batch_at (ingestionStore s') rid i = Some b' → status b' = completed →
  ∃ k id, e = ApiCallSettles k ∧
    running s !! k =
      Some {| task_ingestionId := rid; task_batch := i; task_ids := [id] |}.
Proof.
  intros Hinv%inv_reachable Hstep Hb Hnc Hb' Hc.
  destruct e as [d|body| |k]; simpl in Hstep.
  - case_decide; [|done]. injection Hstep as <-. state_simpl. congruence.
  - destruct (handleIngestRequest body s) as [[resp s1]|] eqn:Hh; [|done].
    injection Hstep as ->.
    apply handleIngestRequest_cases in Hh as [->|(l & prio & _ & _ & Hq)];
      [congruence|].
    apply processQueue_result in Hq.
    by destruct (pq_not_completing _ s' rid i b b' (inv_registered l prio s Hinv) Hq
                   (batch_at_registered l prio s rid i b Hinv Hb) Hnc Hb').
  - destruct (processingTimeoutId s) as [deadline|]; [|done].
    case_decide; [|done]. apply processQueue_result in Hstep.
    destruct (pq_not_completing (set_processingTimeoutId None s) s' rid i b b');
      try done.
    destruct Hinv. by constructor.
  - destruct (running s !! k) as [t|] eqn:Hk; [|done].
    destruct (inv_task s Hinv k t Hk) as [Hne _].
    destruct (task_ids t) as [|id [|id' rest]] eqn:Hids; [done|..]; simpl in Hstep.
    + destruct (decide (rid = task_ingestionId t ∧ i = task_batch t)) as [[-> ->]|Hne'].
      { exists k, id. split; [done|]. rewrite Hk. destruct t. simpl in *. by subst. }
      apply processQueue_result in Hstep.
      destruct (pq_not_completing _ s' rid i b b' (inv_complete s k t Hinv Hk) Hstep);
        try done.
      change (batch_at (store_write (task_ingestionId t) (task_batch t) completed
                          (ingestionStore s)) rid i = Some b).
      rewrite batch_at_store_write. by rewrite decide_False.
    + injection Hstep as <-. state_simpl. congruence.
Qed.

Lemma completed_by_last_call_witness :
  ∃ k id, ApiCallSettles 0 = ApiCallSettles k ∧
    running demo_state !! k =
      Some {| task_ingestionId := "uuid-3"; task_batch := 0; task_ids := [id] |}.
Proof.
  apply (completed_by_last_call 1000000 demo_state (ApiCallSettles 0) demo_next
           "uuid-3" 0
           {| batch_id := "uuid-4"; ids := [7]%Z; status := triggered |}
           {| batch_id := "uuid-4"; ids := [7]%Z; status := completed |}
           demo_state_reachable).
  - vm_compute. reflexivity.
  - vm_compute. reflexivity.
  - discriminate.
  - vm_compute. reflexivity.
  - reflexivity.
Defined.

(** ** Which batch is admitted *)

Lemma cons_neq {A} (x : A) (l : list A) : l ≠ x :: l.
Proof. intros E. apply (f_equal length) in E. simpl in E. lia. Qed.

Lemma admitted_key job q' i b s rid :
  record_key (ingestionStore (admitted job q' i b s)) rid
  = record_key (ingestionStore s) rid.
Proof.
  unfold admitted, processSingleBatch. simpl.
  destruct (ids b); simpl;
    fold (store_write (ingestionId job) i triggered (ingestionStore s));
    [fold (store_write (ingestionId job) i completed
             (store_write (ingestionId job) i triggered (ingestionStore s)))|];
    by rewrite ?record_key_store_write.
Qed.

Lemma pq_result_key s s' rid :
  pq_result s s' →
  record_key (ingestionStore s') rid = record_key (ingestionStore s) rid.
Proof.
  intros [Hq|Hq Hw|Hq Hrate Hdis|q job q' i b Hrate Hdis Hd Hf Hy]; try done.
  apply admitted_key.
Qed.

(** The clock of an execution does not fall below its start, and every
    request was created at a time between the start and the clock. *)
Lemma created_after_start t0 s :
  reachable t0 s →
  (t0 ≤ clock s)%Z ∧
  ∀ rid p t, record_key (ingestionStore s) rid = Some (p, t) → (t0 ≤ t ≤ clock s)%Z.
Proof.
  intros Hs.
  assert ((t0 ≤ clock s)%Z ∧
          ∀ rid p t, record_key (ingestionStore s) rid = Some (p, t) → (t0 ≤ t)%Z)
    as [Hc Hlow].
  { induction Hs as [|e s s' Hs [IHc IH] Hstep]; [by split|].
    assert (∀ s1, (t0 ≤ clock s1)%Z →
              (∀ rid p t, record_key (ingestionStore s1) rid = Some (p, t) →
                 (t0 ≤ t)%Z) →
              pq_result s1 s' →
              (t0 ≤ clock s')%Z ∧
              ∀ rid p t, record_key (ingestionStore s') rid = Some (p, t) →
                (t0 ≤ t)%Z) as Hpq.
    { intros s1 Hc1 H1 Hq. split.
      - by destruct (pq_result_frame s1 s' Hq) as (_ & _ & -> & _).
      - intros rid p t. rewrite (pq_result_key s1 s' rid Hq). apply H1. }
    destruct e as [d|body| |k]; simpl in Hstep.
    - case_decide; [|done]. injection Hstep as <-. state_simpl. split; [lia|done].
    - destruct (handleIngestRequest body s) as [[resp s1]|] eqn:Hh; [|done].
      injection Hstep as ->.
      apply handleIngestRequest_cases in Hh as [->|(l & prio & _ & _ & Hq)]; [done|].
      apply processQueue_result in Hq.
      destruct (registered_spec (uuid_name (uuidCounter s)) l prio s)
        as (bs & Hst & _ & _ & _ & _ & _ & _ & _ & _ & Ec & _).
      apply (Hpq (registered (uuid_name (uuidCounter s)) l prio s));
        [by rewrite Ec| |done].
      intros rid p t. rewrite Hst, record_key_insert. case_decide.
      + simpl. intros [= _ <-]. done.
      + apply IH.
    - destruct (processingTimeoutId s) as [deadline|]; [|done].
      case_decide; [|done]. apply processQueue_result in Hstep.
      by apply (Hpq (set_processingTimeoutId None s)).
    - destruct (running s !! k) as [t1|] eqn:Hk; [|done].
      destruct (task_ids t1) as [|id [|id' rest]]; simpl in Hstep.
      + apply processQueue_result in Hstep. by apply (Hpq (without_task k s)).
      + apply processQueue_result in Hstep.
        apply (Hpq (without_task k
                      (write_status (task_ingestionId t1) (task_batch t1) completed s))
                   IHc); [|done].
        intros rid p t.
        change (record_key (store_write (task_ingestionId t1) (task_batch t1) completed
                              (ingestionStore s)) rid = Some (p, t) → (t0 ≤ t)%Z).
        rewrite record_key_store_write. apply IH.
      + injection Hstep as <-. by split. }
  split; [done|]. intros rid p t Hk. split; [by apply (Hlow rid p)|].
  by apply (inv_clock s (inv_reachable t0 s Hs) rid p).
Qed.

(** While the clock of an execution stays in [0, 1e14) ms, every job in
    the queue has a timestamp in that range. *)
Lemma reachable_fractional t0 s job :
  reachable t0 s → (0 ≤ t0)%Z → (clock s < 100000000000000)%Z →
  record_key (ingestionStore s) (ingestionId job) = Some (priority job, createdAt job) →
  fractional job.
Proof.
  intros Hs H0 Hc Hk. destruct (created_after_start t0 s Hs) as [_ H].
  apply H in Hk. unfold fractional. lia.
Qed.

Lemma pq_admits_least s s' t job :
  inv s → queue_inv s → pq_result s s' →
  admissionLog s' = (t, job) :: admissionLog s →
  t = clock s ∧ (∀ job', job' ∈ jobQueue s' → key_le job job') ∧
  record_key (ingestionStore s) (ingestionId job) = Some (priority job, createdAt job).
Proof.
  intros Hinv Hqi [Hq|Hq Hw|Hq Hrate Hdis|q job0 q' i b Hrate Hdis Hd Hf Hy] Hlog;
    try (state_simpl; by apply cons_neq in Hlog).
  rewrite admitted_log in Hlog. injection Hlog as <- <-. split; [done|].
  apply (discards_nothing s) in Hdis as ->; [|done..].
  destruct (admitted_frame job0 q' i b s) as (-> & _).
  pose proof (dequeue_perm _ _ _ Hd) as Hp. split.
  - intros job' Hj. apply (dequeue_least (jobQueue s) job0 q' (inv_heap s Hinv) Hd).
    rewrite Hp. by apply list_elem_of_further.
  - apply (inv_job s Hinv). rewrite Hp. apply list_elem_of_here.
Qed.

Lemma step_admits_least e s s' t job :
  inv s → queue_inv s → step e s = Some s' →
  admissionLog s' = (t, job) :: admissionLog s →
  t = clock s' ∧ (∀ job', job' ∈ jobQueue s' → key_le job job') ∧
  record_key (ingestionStore s') (ingestionId job) = Some (priority job, createdAt job).
Proof.
  intros Hinv Hqi Hstep Hlog.
  assert (∃ s1, inv s1 ∧ queue_inv s1 ∧ pq_result s1 s' ∧
                admissionLog s1 = admissionLog s) as (s1 & Hinv1 & Hqi1 & Hq & El).
  { destruct e as [d|body| |k]; simpl in Hstep.
    - case_decide; [|done]. injection Hstep as <-. state_simpl.
      by apply cons_neq in Hlog.
    - destruct (handleIngestRequest body s) as [[resp s1]|] eqn:Hh; [|done].
      injection Hstep as ->.
      apply handleIngestRequest_cases in Hh as [->|(l & prio & _ & _ & Hq)].
      { by apply cons_neq in Hlog. }
      exists (registered (uuid_name (uuidCounter s)) l prio s).
      split_and!; [by apply inv_registered|by apply queue_inv_registered
                  |by apply processQueue_result|].
      by destruct (registered_spec (uuid_name (uuidCounter s)) l prio s)
        as (_ & _ & _ & _ & _ & _ & _ & _ & _ & _ & _ & ->).
    - destruct (processingTimeoutId s) as [deadline|]; [|done].
      case_decide; [|done]. exists (set_processingTimeoutId None s).
      split_and!; [destruct Hinv; by constructor|done
                  |by apply processQueue_result|done].
    - destruct (running s !! k) as [t1|] eqn:Hk; [|done].
      destruct (inv_task s Hinv k t1 Hk) as [Hne _].
      destruct (task_ids t1) as [|id [|id' rest]]; [done|..]; simpl in Hstep.
      + eexists. split_and!; [by apply (inv_complete s k t1)
                             |by apply (queue_inv_complete s k t1)
                             |by apply processQueue_result|done].
      + injection Hstep as <-. state_simpl. by apply cons_neq in Hlog. }
  rewrite <- El in Hlog.
  destruct (pq_admits_least s1 s' t job Hinv1 Hqi1 Hq Hlog) as (-> & Hleast & Hkey).
  split_and!; [|done|].
  - by destruct (pq_result_frame s1 s' Hq) as (_ & _ & -> & _).
  - by rewrite (pq_result_key s1 s' _ Hq).
Qed.

(** X16: the batch that is admitted is one with the least key among
    all that wait.  In an execution whose clock has stayed in
    [0, 1e14) ms, where the sort key orders the jobs as the doubles of
    the program do: when a step admits the batch of [job], no job left
    in the queue and no batch left [yet_to_start] in the store has a
    smaller key [priorityMap[p] + createdAt / 1e14], and none comes
    before [job] in the order of priority first, creation time
    second. *)
Theorem admits_least_key t0 s e s' t job :
  reachable t0 s → (0 ≤ t0)%Z → (clock s' < 100000000000000)%Z →
  step e s = Some s' →
  admissionLog s' = (t, job) :: admissionLog s →
  t = clock s' ∧
  (∀ job', job' ∈ jobQueue s' → key_le job job' ∧ ¬ composite_lt job' job) ∧
  (∀ rid r i b, ingestionStore s' !! rid = Some r → batches r !! i = Some b →
     status b = yet_to_start →
     key_le job (job_of rid (rec_priority r) (rec_createdAt r) b) ∧
     ¬ composite_lt (job_of rid (rec_priority r) (rec_createdAt r) b) job).
Proof.
  intros Hs H0 Hc Hstep Hlog.
  destruct (step_admits_least e s s' t job (inv_reachable t0 s Hs)
              (queue_inv_reachable t0 s Hs) Hstep Hlog) as (Ht & Hleast & Hkey).
  assert (reachable t0 s') as Hs' by (by apply (reachable_step t0 e s)).
  pose proof (inv_reachable t0 s' Hs') as Hinv'.
  pose proof (reachable_fractional t0 s' job Hs' H0 Hc Hkey) as Hfj.
  assert (∀ job', job' ∈ jobQueue s' → key_le job job' ∧ ¬ composite_lt job' job)
    as Hq.
  { intros job' Hj. split; [by apply Hleast|].
    rewrite <- key_lt_composite; [by apply key_le_not_lt, Hleast| |done].
    apply (reachable_fractional t0 s'); [done..|]. by apply (inv_job s' Hinv'). }
  split_and!; [done..|].
  intros rid r i b Hr Hb Hy. apply Hq.
  apply (inv_pending s' Hinv' rid i); [|by apply record_key_lookup|done].
  by apply (batch_at_lookup _ _ r).
Qed.

Lemma admits_least_key_witness :
  1000000%Z = clock demo_first ∧
  (∀ job', job' ∈ jobQueue demo_first →
     key_le {| ingestionId := "uuid-0"; batchId := "uuid-1";
               priority := MEDIUM; createdAt := 1000000 |} job' ∧
     ¬ composite_lt job' {| ingestionId := "uuid-0"; batchId := "uuid-1";
                            priority := MEDIUM; createdAt := 1000000 |}) ∧
  (∀ rid r i b, ingestionStore demo_first !! rid = Some r → batches r !! i = Some b →
     status b = yet_to_start →
     key_le {| ingestionId := "uuid-0"; batchId := "uuid-1";
               priority := MEDIUM; createdAt := 1000000 |}
            (job_of rid (rec_priority r) (rec_createdAt r) b) ∧
     ¬ composite_lt (job_of rid (rec_priority r) (rec_createdAt r) b)
         {| ingestionId := "uuid-0"; batchId := "uuid-1";
            priority := MEDIUM; createdAt := 1000000 |}).
Proof.
  apply (admits_least_key 1000000 (initialState 1000000) (PostIngest demo_body1)
           demo_first 1000000%Z).
  - constructor.
  - lia.
  - vm_compute. reflexivity.
  - vm_compute. reflexivity.
  - vm_compute. reflexivity.
Defined.

(** ** The overall status once more *)

(** X17: the overall status is never [failed]; it depends on the
    statuses of the batches only, not on their order; and two batches
    of different status make it [triggered]. *)
Theorem calculateOverallStatus_order_free bs :
  calculateOverallStatus bs ≠ failed ∧
  (∀ bs', status <$> bs' ≡ₚ status <$> bs →
     calculateOverallStatus bs' = calculateOverallStatus bs) ∧
  (∀ b1 b2, b1 ∈ bs → b2 ∈ bs → status b1 ≠ status b2 →
     calculateOverallStatus bs = triggered).
Proof.
  assert (∀ st (l l' : list Batch), status <$> l ≡ₚ status <$> l' →
            Forall (fun b => status b = st) l → Forall (fun b => status b = st) l')
    as HF.
  { intros st l l' Hp. rewrite !Forall_forall. intros H b Hb.
    assert (status b ∈ status <$> l) as (b0 & -> & Hb0)%list_elem_of_fmap.
    { rewrite Hp. apply list_elem_of_fmap. by exists b. }
    by apply H. }
  split_and!.
  - by destruct (calculateOverallStatus_cases bs)
      as [[_ ->]|[(_ & _ & _ & ->)|(_ & _ & ->)]].
  - intros bs' Hp.
    assert (bs' = [] ↔ bs = []) as Hnil.
    { apply Permutation_length in Hp. rewrite !length_fmap in Hp.
      destruct bs, bs'; simpl in Hp; (done || lia). }
    destruct (calculateOverallStatus_cases bs)
      as [[H1 ->]|[(H1 & H2 & H3 & ->)|(H1 & H2 & ->)]];
      destruct (calculateOverallStatus_cases bs')
        as [[K1 ->]|[(K1 & K2 & K3 & ->)|(K1 & K2 & ->)]];
      try done.
    + destruct K1. by apply (HF _ bs).
    + destruct K1. by apply (HF _ bs).
    + destruct H1. by apply (HF _ bs').
    + destruct K2. by apply (HF _ bs).
    + destruct H1. by apply (HF _ bs').
    + destruct H2. by apply (HF _ bs').
  - intros b1 b2 Hb1 Hb2 Hne.
    destruct (calculateOverallStatus_cases bs)
      as [[H1 _]|[(_ & _ & H1 & _)|(_ & _ & ->)]]; [| |done];
      rewrite Forall_forall in H1; destruct Hne;
      by rewrite (H1 b1 Hb1), (H1 b2 Hb2).
Qed.

Lemma calculateOverallStatus_order_free_witness :
  calculateOverallStatus
    [ {| batch_id := "a"; ids := [1]%Z; status := completed |};
      {| batch_id := "b"; ids := [2]%Z; status := yet_to_start |} ] = triggered.
Proof.
  destruct (calculateOverallStatus_order_free
              [ {| batch_id := "a"; ids := [1]%Z; status := completed |};
                {| batch_id := "b"; ids := [2]%Z; status := yet_to_start |} ])
    as (_ & _ & H).
  apply (H {| batch_id := "a"; ids := [1]%Z; status := completed |}
           {| batch_id := "b"; ids := [2]%Z; status := yet_to_start |}).
  - apply list_elem_of_here.
  - apply list_elem_of_further, list_elem_of_here.
  - discriminate.
Defined.


(** ** Every waiting batch can be started *)










(** ** The status that is reported never goes back *)

Lemma step_advances e s s' rid i b :
  inv s → step e s = Some s' → batch_at (ingestionStore s) rid i = Some b →
  ∃ b', batch_at (ingestionStore s') rid i = Some b' ∧
    (status b' = status b ∨ (status b = yet_to_start ∧ status b' = triggered) ∨
     (status b = triggered ∧ status b' = completed)).
Proof.
  intros Hinv Hstep Hb. destruct e as [d|body| |k]; simpl in Hstep.
  - case_decide; [|done]. injection Hstep as <-. exists b. by split; [|left].
  - destruct (handleIngestRequest body s) as [[resp s1]|] eqn:Hh; [|done].
    injection Hstep as ->.
    apply handleIngestRequest_cases in Hh as [->|(l & prio & _ & _ & Hq)].
    { exists b. by split; [|left]. }
    apply processQueue_result in Hq.
    destruct (pq_result_advances _ s' rid i b (inv_registered l prio s Hinv) Hq
                (batch_at_registered l prio s rid i b Hinv Hb))
      as (b' & Hb' & _ & _ & Hst).
    exists b'. split; [done|]. destruct Hst as [?|?]; [by left|by right; left].
  - destruct (processingTimeoutId s) as [deadline|]; [|done].
    case_decide; [|done]. apply processQueue_result in Hstep.
    destruct (pq_result_advances (set_processingTimeoutId None s) s' rid i b)
      as (b' & Hb' & _ & _ & Hst); [destruct Hinv; by constructor|done..|].
    exists b'. split; [done|]. destruct Hst as [?|?]; [by left|by right; left].
  - destruct (running s !! k) as [t|] eqn:Hk; [|done].
    destruct (inv_task s Hinv k t Hk) as [Hne (b0 & Hb0 & Htr)].
    destruct (task_ids t) as [|id [|id' rest]] eqn:Hids; [done|..]; simpl in Hstep.
    + apply processQueue_result in Hstep.
      pose proof (inv_complete s k t Hinv Hk) as Hinv1.
      destruct (decide (rid = task_ingestionId t ∧ i = task_batch t)) as [[-> ->]|Hne'].
      * rewrite Hb in Hb0. injection Hb0 as <-.
        destruct (pq_result_advances _ s' (task_ingestionId t) (task_batch t)
                    (with_status completed b) Hinv1 Hstep)
          as (b' & Hb' & _ & _ & Hst).
        { change (batch_at (store_write (task_ingestionId t) (task_batch t) completed
                              (ingestionStore s))
                    (task_ingestionId t) (task_batch t) = Some (with_status completed b)).
          rewrite batch_at_store_write, decide_True by done. by rewrite Hb. }
        exists b'. split; [done|]. right; right. split; [done|].
        by destruct Hst as [->|[? _]].
      * destruct (pq_result_advances _ s' rid i b Hinv1 Hstep)
          as (b' & Hb' & _ & _ & Hst).
        { change (batch_at (store_write (task_ingestionId t) (task_batch t) completed
                              (ingestionStore s)) rid i = Some b).
          by rewrite batch_at_store_write, decide_False. }
        exists b'. split; [done|]. destruct Hst as [?|?]; [by left|by right; left].
    + injection Hstep as <-. exists b. by split; [|left].
Qed.

(** X19: what [GET /ingest/status/:id] reports never goes back.  Along
    every step of an execution an id that is answered stays answered,
    with the same batch ids and items; an overall status [completed]
    stays [completed], and [triggered] does not return to
    [yet_to_start]. *)
Theorem reported_status_never_goes_back t0 s e s' rid sb :
  reachable t0 s → step e s = Some s' → getIngestionStatus rid s = Ok sb →
  ∃ sb', getIngestionStatus rid s' = Ok sb' ∧
    batch_id <$> status_batches sb' = batch_id <$> status_batches sb ∧
    ids <$> status_batches sb' = ids <$> status_batches sb ∧
    (overall_status sb = completed → overall_status sb' = completed) ∧
    (overall_status sb = triggered →
       overall_status sb' = triggered ∨ overall_status sb' = completed).
Proof.
  intros Hs Hstep Hget. pose proof (inv_reachable t0 s Hs) as Hinv.
  assert (∃ r, ingestionStore s !! rid = Some r) as [r Hr].
  { unfold getIngestionStatus, js_get in Hget.
    destruct (ingestionStore s !! rid) as [r|]; [by eexists|].
    by case_bool_decide. }
  rewrite (getIngestionStatus_known t0 s rid r Hs Hr) in Hget. injection Hget as <-.
  destruct (step_record e s s' rid r Hinv Hstep Hr)
    as (r' & Hr' & _ & _ & _ & _ & Eids & Ebid).
  assert (reachable t0 s') as Hs' by (by apply (reachable_step t0 e s)).
  rewrite (getIngestionStatus_known t0 s' rid r' Hs' Hr'). eexists. split; [done|].
  cbn [status_batches overall_status].
  assert (length (batches r') = length (batches r)) as Hlen.
  { by rewrite <- (length_fmap ids), Eids, length_fmap. }
  assert (∀ i b, batches r !! i = Some b →
            ∃ b', batches r' !! i = Some b' ∧
              (status b' = status b ∨ (status b = yet_to_start ∧ status b' = triggered) ∨
               (status b = triggered ∧ status b' = completed))) as Hadv.
  { intros i b Hb.
    destruct (step_advances e s s' rid i b Hinv Hstep (batch_at_lookup _ _ r _ _ Hr Hb))
      as (b' & Hb' & Hst).
    exists b'. split; [|done]. unfold batch_at in Hb'. by rewrite Hr' in Hb'. }
  split_and!; [done..| |].
  - intros Hc.
    destruct (calculateOverallStatus_cases (batches r))
      as [[_ E]|[(_ & Hne & Hall & _)|(_ & _ & E)]]; [congruence| |congruence].
    assert (Forall (fun b => status b = completed) (batches r')) as Hall'.
    { apply Forall_lookup. intros i b' Hb'.
      destruct (lookup_lt_is_Some_2 (batches r) i) as [b Hb].
      { rewrite <- Hlen. by apply lookup_lt_Some in Hb'. }
      destruct (Hadv i b Hb) as (b1 & Hb1 & Hst). rewrite Hb' in Hb1.
      injection Hb1 as <-. rewrite Forall_lookup in Hall. specialize (Hall i b Hb).
      simpl in Hall. destruct Hst as [->|[[? _]|[? _]]]; congruence. }
    destruct (calculateOverallStatus_cases (batches r'))
      as [[K _]|[(_ & _ & _ & ->)|(_ & K & _)]]; [|done|done].
    destruct (batches r') as [|b1 l1] eqn:E1.
    + destruct (batches r); [done|]. simpl in Hlen. lia.
    + apply Forall_cons in K as [K _]. apply Forall_cons in Hall' as [K' _]. congruence.
  - intros Ht.
    destruct (calculateOverallStatus_cases (batches r))
      as [[_ E]|[(_ & _ & _ & E)|(Hny & _ & _)]]; [congruence..|].
    apply not_Forall_Exists in Hny; [|intros b; apply _].
    apply Exists_exists in Hny as (b & [i Hb]%list_elem_of_lookup & Hb2).
    simpl in Hb2. destruct (Hadv i b Hb) as (b' & Hb' & Hst).
    destruct (calculateOverallStatus_cases (batches r'))
      as [[K _]|[(_ & _ & _ & ->)|(_ & _ & ->)]]; [|by right|by left].
    rewrite Forall_lookup in K. specialize (K i b' Hb'). simpl in K.
    destruct Hst as [?|[[? _]|[_ ?]]]; congruence.
Qed.

Lemma reported_status_never_goes_back_witness :
  ∃ sb', getIngestionStatus "uuid-0" demo_next = Ok sb' ∧
    batch_id <$> status_batches sb' = ["uuid-1"; "uuid-2"] ∧
    ids <$> status_batches sb' = [[1; 2; 3]; [4]]%Z ∧
    (completed = completed → overall_status sb' = completed) ∧
    (completed = triggered →
       overall_status sb' = triggered ∨ overall_status sb' = completed).
Proof.
  apply (reported_status_never_goes_back 1000000 demo_state (ApiCallSettles 0)
           demo_next "uuid-0"
           {| ingestion_id := "uuid-0"; overall_status := completed;
              status_batches :=
                [ {| batch_id := "uuid-1"; ids := [1; 2; 3]%Z; status := completed |};
                  {| batch_id := "uuid-2"; ids := [4]%Z; status := completed |} ] |}
           demo_state_reachable).
  - vm_compute. reflexivity.
  - vm_compute. reflexivity.
Defined.


(** * The rate limit and the completion of batches *)

(** ** Every admission is logged *)

Lemma step_batch_id e s s' rid i b b' :
  inv s → step e s = Some s' →
  batch_at (ingestionStore s) rid i = Some b →
  batch_at (ingestionStore s') rid i = Some b' → batch_id b' = batch_id b.
Proof.
  intros Hinv Hstep Hb Hb'. unfold batch_at in Hb, Hb'.
  destruct (ingestionStore s !! rid) as [r|] eqn:Hr; [|done]. simpl in Hb.
  destruct (step_record e s s' rid r Hinv Hstep Hr) as (r' & Hr' & _ & _ & _ & _ & _ & E).
  rewrite Hr' in Hb'. simpl in Hb'. apply (f_equal (.!! i)) in E.
  rewrite !list_lookup_fmap, Hb, Hb' in E. by injection E.
Qed.

Lemma pq_result_None s s' rid i :
  inv s → pq_result s s' →
  batch_at (ingestionStore s) rid i = None → batch_at (ingestionStore s') rid i = None.
Proof.
  intros Hinv Hq Hn.
  destruct (pq_result_store s s' Hinv Hq) as [E|(rid0 & i0 & b0 & Hb0 & _ & E)];
    rewrite E; [done|].
  case_decide as Hd; [|done]. destruct Hd as [-> ->]. congruence.
Qed.

(** A batch that a step brings into the store is a batch of the request
    that the step registers, and [processQueue] finds it yet_to_start. *)
Lemma step_creates e s s' rid i b' :
  inv s → step e s = Some s' →
  batch_at (ingestionStore s) rid i = None →
  batch_at (ingestionStore s') rid i = Some b' →
  ∃ l prio b0,
    pq_result (registered (uuid_name (uuidCounter s)) l prio s) s' ∧
    batch_at (ingestionStore (registered (uuid_name (uuidCounter s)) l prio s)) rid i
      = Some b0 ∧
    status b0 = yet_to_start.
Proof.
  intros Hinv Hstep Hn Hb'. destruct e as [d|body| |k]; simpl in Hstep.
  - case_decide; [|done]. injection Hstep as <-. state_simpl. congruence.
  - destruct (handleIngestRequest body s) as [[resp s1]|] eqn:Hh; [|done].
    injection Hstep as ->.
    apply handleIngestRequest_cases in Hh as [->|(l & prio & _ & _ & Hq)];
      [congruence|].
    apply processQueue_result in Hq. exists l, prio.
    destruct (batch_at (ingestionStore (registered (uuid_name (uuidCounter s)) l prio s))
                rid i) as [b0|] eqn:Hb0.
    + exists b0. split_and!; [done..|].
      destruct (registered_spec (uuid_name (uuidCounter s)) l prio s)
        as (bs & Hst & Hnew & _).
      rewrite Hst, batch_at_insert in Hb0. case_decide; [|congruence].
      simpl in Hb0. by apply Hnew in Hb0 as [-> _].
    + apply (pq_result_None _ s' rid i (inv_registered l prio s Hinv) Hq) in Hb0.
      congruence.
  - destruct (processingTimeoutId s) as [deadline|]; [|done].
    case_decide; [|done]. apply processQueue_result in Hstep.
    apply (pq_result_None (set_processingTimeoutId None s) s' rid i) in Hstep;
      [congruence| |done].
    destruct Hinv. by constructor.
  - destruct (running s !! k) as [t|] eqn:Hk; [|done].
    destruct (inv_task s Hinv k t Hk) as [Hne _].
    destruct (task_ids t) as [|id [|id' rest]]; [done|..]; simpl in Hstep.
    + apply processQueue_result in Hstep.
      apply (pq_result_None _ s' rid i (inv_complete s k t Hinv Hk)) in Hstep;
        [congruence|].
      change (batch_at (store_write (task_ingestionId t) (task_batch t) completed
                          (ingestionStore s)) rid i = None).
      rewrite batch_at_store_write, Hn. by case_decide.
    + injection Hstep as <-. state_simpl. congruence.
Qed.

(** A step after which a batch is past yet_to_start, when the batch was
    yet_to_start or not yet there before, is an admission: the batch is
    triggered, and logged at the time of the step. *)
Lemma admission_logged e s s' rid i b' :
  inv s → step e s = Some s' →
  (∀ b, batch_at (ingestionStore s) rid i = Some b → status b = yet_to_start) →
  batch_at (ingestionStore s') rid i = Some b' → status b' ≠ yet_to_start →
  status b' = triggered ∧
  ∃ job, admissionLog s' = (clock s, job) :: admissionLog s ∧
         ingestionId job = rid ∧ batchId job = batch_id b'.
Proof.
  intros Hinv Hstep Hpre Hb' Hn.
  destruct (batch_at (ingestionStore s) rid i) as [b|] eqn:Hb.
  - destruct (transition_logged s e s' rid i b b' Hinv Hstep Hb (Hpre b eq_refl) Hb' Hn)
      as (Ht & job & Hlog & Hr & Hbid).
    split; [done|]. exists job.
    by rewrite (step_batch_id e s s' rid i b b' Hinv Hstep Hb Hb').
  - destruct (step_creates e s s' rid i b' Hinv Hstep Hb Hb')
      as (l & prio & b0 & Hq & Hb0 & Hy).
    pose proof (inv_registered l prio s Hinv) as Hinv1.
    destruct (pq_result_logged _ s' rid i b0 b' Hinv1 Hq Hb0 Hy Hb' Hn)
      as (Ht & job & Hlog & Hr & Hbid).
    destruct (pq_result_advances _ s' rid i b0 Hinv1 Hq Hb0) as (b1 & Hb1 & Eid & _).
    rewrite Hb' in Hb1. injection Hb1 as <-.
    destruct (registered_spec (uuid_name (uuidCounter s)) l prio s)
      as (_ & _ & _ & _ & _ & _ & _ & _ & _ & _ & Ec & El).
    rewrite Ec, El in Hlog. split; [done|]. exists job. by rewrite Eid.
Qed.

Lemma step_log_grows e s s' :
  step e s = Some s' → ∃ l, admissionLog s' = l ++ admissionLog s.
Proof.
  assert (∀ s1, pq_result s1 s' → admissionLog s1 = admissionLog s →
            ∃ l, admissionLog s' = l ++ admissionLog s) as Hpq.
  { intros s1 Hq <-.
    destruct (pq_result_rate s1 s' Hq) as [[-> _]|(job & -> & _)];
      [by exists []|by exists [(clock s1, job)]]. }
  intros Hstep. destruct e as [d|body| |k]; simpl in Hstep.
  - case_decide; [|done]. injection Hstep as <-. by exists [].
  - destruct (handleIngestRequest body s) as [[resp s1]|] eqn:Hh; [|done].
    injection Hstep as ->.
    apply handleIngestRequest_cases in Hh as [->|(l & prio & _ & _ & Hq)];
      [by exists []|].
    apply processQueue_result in Hq.
    apply (Hpq _ Hq), registered_rate.
  - destruct (processingTimeoutId s) as [deadline|]; [|done].
    case_decide; [|done]. apply processQueue_result in Hstep. by apply (Hpq _ Hstep).
  - destruct (running s !! k) as [t|] eqn:Hk; [|done].
    destruct (task_ids t) as [|id [|id' rest]]; simpl in Hstep.
    + apply processQueue_result in Hstep. by apply (Hpq _ Hstep).
    + apply processQueue_result in Hstep. by apply (Hpq _ Hstep).
    + injection Hstep as <-. by exists [].
Qed.

(** In every state of an execution each batch that is past yet_to_start
    has its admission in the log. *)
Lemma admitted_batches_logged t0 s :
  reachable t0 s →
  ∀ rid i b, batch_at (ingestionStore s) rid i = Some b → status b ≠ yet_to_start →
    ∃ t job, (t, job) ∈ admissionLog s ∧
             ingestionId job = rid ∧ batchId job = batch_id b.
Proof.
  induction 1 as [|e s s' Hs IH Hstep]; intros rid i b' Hb' Hn.
  - unfold batch_at in Hb'. simpl in Hb'. by rewrite lookup_empty in Hb'.
  - pose proof (inv_reachable t0 s Hs) as Hinv.
    destruct (batch_at (ingestionStore s) rid i) as [b|] eqn:Hb;
      [destruct (decide (status b = yet_to_start)) as [Hy|Hny]|].
    + destruct (admission_logged e s s' rid i b' Hinv Hstep) as (_ & job & Hlog & ? & ?);
        [by rewrite Hb; intros ? [= <-]|done..|].
      exists (clock s), job. rewrite Hlog. split; [apply list_elem_of_here|done].
    + destruct (IH rid i b Hb Hny) as (t & job & Hin & ? & Hbid).
      destruct (step_log_grows e s s' Hstep) as [l ->].
      exists t, job. split_and!; [apply elem_of_app; by right|done|].
      by rewrite (step_batch_id e s s' rid i b b' Hinv Hstep Hb Hb').
    + destruct (admission_logged e s s' rid i b' Hinv Hstep) as (_ & job & Hlog & ? & ?);
        [by rewrite Hb|done..|].
      exists (clock s), job. rewrite Hlog. split; [apply list_elem_of_here|done].
Qed.

(** C1: in every execution any two admissions are at least
    RATE_LIMIT_MS = 5000 apart, whatever the requests and priorities.
    The admissions are all the moves of a batch out of yet_to_start:
    every step after which a batch is past yet_to_start, when it was
    yet_to_start or not yet stored before, triggers the batch and is
    logged at the time of the step, and in every state each batch that
    is past yet_to_start has its entry in the log, two batches never
    sharing one.  In any state, a
    call of [processQueue] changes the time of the last admission only
    when it admits a batch, and a call that drops a stale job goes on
    with that time unchanged. *)
Theorem admissions_spaced t0 s :
  reachable t0 s →
  (∀ i j ti tj, i < j →
     admission_times s !! i = Some ti → admission_times s !! j = Some tj →
     (RATE_LIMIT_MS ≤ ti - tj)%Z) ∧
  (∀ e s' rid i b', step e s = Some s' →
     (∀ b, batch_at (ingestionStore s) rid i = Some b → status b = yet_to_start) →
     batch_at (ingestionStore s') rid i = Some b' → status b' ≠ yet_to_start →
     status b' = triggered ∧
     ∃ job, admissionLog s' = (clock s, job) :: admissionLog s ∧
            ingestionId job = rid ∧ batchId job = batch_id b') ∧
  (∀ rid i b, batch_at (ingestionStore s) rid i = Some b → status b ≠ yet_to_start →
     ∃ t job, (t, job) ∈ admissionLog s ∧
              ingestionId job = rid ∧ batchId job = batch_id b) ∧
  (∀ rid i i' b b', batch_at (ingestionStore s) rid i = Some b →
     batch_at (ingestionStore s) rid i' = Some b' → batch_id b = batch_id b' → i = i') ∧
  (∀ sd sd', processQueue sd = Some sd' →
     (admissionLog sd' = admissionLog sd ∧
      lastProcessingStartTime sd' = lastProcessingStartTime sd) ∨
     (∃ job, admissionLog sd' = (clock sd, job) :: admissionLog sd ∧
             lastProcessingStartTime sd' = clock sd ∧
             (RATE_LIMIT_MS ≤ clock sd - lastProcessingStartTime sd)%Z)) ∧
  (∀ sd job q1,
     (RATE_LIMIT_MS ≤ clock sd - lastProcessingStartTime sd)%Z →
     dequeue (jobQueue sd) = Some (job, q1) → stale (ingestionStore sd) job →
     processQueue sd = processQueue (set_jobQueue q1 sd) ∧
     lastProcessingStartTime (set_jobQueue q1 sd) = lastProcessingStartTime sd).
Proof.
  intros Hs. split_and!.
  - apply spaced_lookup. by apply (rate_inv_reachable t0).
  - intros e s' rid i b' Hstep Hpre Hb' Hn.
    by apply (admission_logged e s s' rid i b'); [apply (inv_reachable t0)|..].
  - by apply (admitted_batches_logged t0).
  - apply (inv_batch_id s), (inv_reachable t0 s Hs).
  - intros sd sd' Hq. by apply pq_result_rate, processQueue_result.
  - intros sd job q1 Hrate Hd Hst.
    split; [by apply (processQueue_discard sd job)|done].
Qed.

Lemma admissions_spaced_witness :
  (RATE_LIMIT_MS ≤ 1010000 - 1005000)%Z ∧
  (∃ t job, (t, job) ∈ admissionLog demo_state ∧
            ingestionId job = "uuid-0" ∧ batchId job = "uuid-1") ∧
  processQueue stale_state = processQueue (set_jobQueue [] stale_state).
Proof.
  destruct (admissions_spaced 1000000 demo_state demo_state_reachable)
    as (Hgap & _ & Hlog & _ & _ & Hdrop).
  split_and!.
  - apply (Hgap 0 1); [lia|reflexivity..].
  - apply (Hlog "uuid-0" 0
             {| batch_id := "uuid-1"; ids := [1; 2; 3]%Z; status := completed |}).
    + vm_compute. reflexivity.
    + discriminate.
  - apply (Hdrop stale_state (mkJob LOW 5 "gone") []).
    + vm_compute. discriminate.
    + reflexivity.
    + intros i b Hf. vm_compute in Hf. discriminate Hf.
Defined.


(** ** Every admitted batch completes, whatever else happens *)

Lemma task_unique s k k' t t' :
  inv s → running s !! k = Some t → running s !! k' = Some t' →
  task_ref t = task_ref t' → k = k'.
Proof.
  intros Hinv Hk Hk' E.
  apply (NoDup_lookup (task_ref <$> running s) k k' (task_ref t));
    [apply (inv_task_nodup s Hinv)|by rewrite list_lookup_fmap, Hk
    |by rewrite list_lookup_fmap, Hk', E].
Qed.

Lemma pq_keeps_task s s' k t :
  pq_result s s' → running s !! k = Some t → running s' !! k = Some t.
Proof.
  intros Hq Hk. destruct (pq_result_frame s s' Hq) as (_ & (ts & -> & _) & _).
  by apply lookup_app_l_Some.
Qed.

(** An event that does not settle the promise of a running call leaves
    the call as it is, with the ids it has left. *)
Lemma step_keeps_task e s s' rid i k t :
  inv s → step e s = Some s' →
  running s !! k = Some t → task_ref t = (rid, i) →
  settles rid i s e = false → ∃ k', running s' !! k' = Some t.
Proof.
  intros Hinv Hstep Hk Href Hset. destruct e as [d|body| |k0]; simpl in Hstep.
  - case_decide; [|done]. injection Hstep as <-. by exists k.
  - destruct (handleIngestRequest body s) as [[resp s1]|] eqn:Hh; [|done].
    injection Hstep as ->.
    apply handleIngestRequest_cases in Hh as [->|(l & prio & _ & _ & Hq)];
      [by exists k|].
    apply processQueue_result in Hq. exists k. apply (pq_keeps_task _ _ _ _ Hq).
    by destruct (registered_spec (uuid_name (uuidCounter s)) l prio s)
      as (_ & _ & _ & _ & _ & _ & _ & _ & _ & -> & _).
  - destruct (processingTimeoutId s) as [deadline|]; [|done].
    case_decide; [|done]. apply processQueue_result in Hstep.
    exists k. by apply (pq_keeps_task _ _ _ _ Hstep).
  - unfold settles in Hset.
    destruct (running s !! k0) as [t0|] eqn:Hk0; [|done].
    apply bool_decide_eq_false in Hset.
    assert (k0 ≠ k) as Hne by (intros ->; congruence).
    destruct (inv_task s Hinv k0 t0 Hk0) as [Hids _].
    destruct (task_ids t0) as [|id [|id' rest]]; [done|..]; simpl in Hstep.
    + apply processQueue_result in Hstep.
      destruct (decide (k < k0)) as [Hlt|Hge].
      * exists k. apply (pq_keeps_task _ _ _ _ Hstep). state_simpl.
        by rewrite list_lookup_delete_lt.
      * exists (k - 1). apply (pq_keeps_task _ _ _ _ Hstep). state_simpl.
        rewrite list_lookup_delete_ge by lia. by replace (S (k - 1)) with k by lia.
    + injection Hstep as <-. exists k. state_simpl.
      by rewrite list_lookup_insert_ne.
Qed.

(** An event that settles the promise of a running call takes one id
    from the call, and completes the batch when it was the last. *)
Lemma step_settles_task e s s' rid i k t :
  inv s → step e s = Some s' →
  running s !! k = Some t → task_ref t = (rid, i) →
  settles rid i s e = true →
  (length (task_ids t) = 1 ∧
   ∃ b', batch_at (ingestionStore s') rid i = Some b' ∧ status b' = completed) ∨
  (∃ k' t', running s' !! k' = Some t' ∧ task_ref t' = (rid, i) ∧
            S (length (task_ids t')) = length (task_ids t)).
Proof.
  intros Hinv Hstep Hk Href Hset. destruct e as [d|body| |k0]; try done.
  unfold settles in Hset. destruct (running s !! k0) as [t0|] eqn:Hk0; [|done].
  apply bool_decide_eq_true in Hset.
  assert (k0 = k) as -> by (apply (task_unique s k0 k t0 t); congruence).
  rewrite Hk in Hk0. injection Hk0 as <-. clear Hset.
  destruct (inv_task s Hinv k t Hk) as [Hids (b0 & Hb0 & Htr)].
  injection Href as <- <-.
  simpl in Hstep. rewrite Hk in Hstep.
  destruct (task_ids t) as [|id [|id' rest]] eqn:E; [done|..]; simpl in Hstep.
  - left. split; [done|]. apply processQueue_result in Hstep.
    destruct (pq_result_advances _ s' (task_ingestionId t) (task_batch t)
                (with_status completed b0) (inv_complete s k t Hinv Hk) Hstep)
      as (b' & Hb' & _ & _ & Hst).
    { change (batch_at (store_write (task_ingestionId t) (task_batch t) completed
                          (ingestionStore s))
                (task_ingestionId t) (task_batch t) = Some (with_status completed b0)).
      rewrite batch_at_store_write, decide_True by done. by rewrite Hb0. }
    exists b'. split; [done|]. by destruct Hst as [->|[? _]].
  - right. injection Hstep as <-. eexists k, _. split_and!.
    + state_simpl. apply list_lookup_insert_eq. by apply lookup_lt_Some in Hk.
    + done.
    + done.
Qed.

Lemma execution_reachable t0 sched st :
  reachable t0 (st 0) → execution sched st → ∀ n, reachable t0 (st n).
Proof.
  intros H0 Hex n. induction n as [|n IH]; [done|].
  by apply (reachable_step t0 (sched n) (st n)).
Qed.

(** A running call waits, unchanged, until an event settles its
    promise. *)
Lemma waits_for_settle sched st rid i :
  (∀ n, inv (st n)) → execution sched st →
  ∀ d n k t, running (st n) !! k = Some t → task_ref t = (rid, i) →
    (∃ j k', n ≤ j < n + d ∧ running (st j) !! k' = Some t ∧
             settles rid i (st j) (sched j) = true) ∨
    (∃ k', running (st (n + d)) !! k' = Some t).
Proof.
  intros Hinv Hex d. induction d as [|d IH]; intros n k t Hk Href.
  - right. exists k. by rewrite Nat.add_0_r.
  - destruct (IH n k t Hk Href) as [(j & k' & Hj & Hk' & Hset)|[k' Hk']].
    + left. exists j, k'. split_and!; [lia|lia|done|done].
    + destruct (settles rid i (st (n + d)) (sched (n + d))) eqn:Hset.
      * left. exists (n + d), k'. split_and!; [lia|lia|done|done].
      * right.
        destruct (step_keeps_task (sched (n + d)) (st (n + d)) (st (S (n + d)))
                    rid i k' t (Hinv _) (Hex _) Hk' Href Hset) as [k'' Hk''].
        exists k''. by replace (n + S d) with (S (n + d)) by lia.
Qed.

(** When the promises of a running call are settled in the end, its
    batch is completed in the end. *)
Lemma fair_completes sched st rid i :
  (∀ n, inv (st n)) → execution sched st → fair_for rid i sched st →
  ∀ L n k t, running (st n) !! k = Some t → task_ref t = (rid, i) →
    length (task_ids t) ≤ L →
    ∃ m b', n ≤ m ∧ batch_at (ingestionStore (st m)) rid i = Some b' ∧
            status b' = completed.
Proof.
  intros Hinv Hex Hfair L. induction L as [|L IH]; intros n k t Hk Href Hlen.
  - destruct (inv_task (st n) (Hinv n) k t Hk) as [Hids _].
    destruct (task_ids t); [done|]. simpl in Hlen. lia.
  - assert (∃ j k', n ≤ j ∧ running (st j) !! k' = Some t ∧
                    settles rid i (st j) (sched j) = true) as (j & k' & Hj & Hk' & Hset).
    { destruct (Hfair n k t Hk Href) as (m0 & Hm0 & Hset0).
      destruct (waits_for_settle sched st rid i Hinv Hex (m0 - n) n k t Hk Href)
        as [(j & k' & Hj & Hk' & Hset)|[k' Hk']].
      - exists j, k'. split_and!; [lia|done..].
      - replace (n + (m0 - n)) with m0 in Hk' by lia. by exists m0, k'. }
    destruct (step_settles_task (sched j) (st j) (st (S j)) rid i k' t
                (Hinv j) (Hex j) Hk' Href Hset)
      as [(_ & b' & Hb' & Hc)|(k'' & t' & Hk'' & Href' & Hlen')].
    + exists (S j), b'. split_and!; [lia|done..].
    + destruct (IH (S j) k'' t' Hk'' Href') as (m & b' & Hm & Hb' & Hc); [lia|].
      exists m, b'. split_and!; [lia|done..].
Qed.

Lemma completed_stays sched st rid i :
  (∀ n, inv (st n)) → execution sched st →
  ∀ d n b, batch_at (ingestionStore (st n)) rid i = Some b → status b = completed →
    ∃ b', batch_at (ingestionStore (st (n + d))) rid i = Some b' ∧
          status b' = completed.
Proof.
  intros Hinv Hex d. induction d as [|d IH]; intros n b Hb Hc.
  - exists b. by rewrite Nat.add_0_r.
  - destruct (IH n b Hb Hc) as (b1 & Hb1 & Hc1).
    destruct (step_advances (sched (n + d)) (st (n + d)) (st (S (n + d))) rid i b1
                (Hinv _) (Hex _) Hb1) as (b' & Hb' & Hst).
    exists b'. replace (n + S d) with (S (n + d)) by lia. split; [done|].
    destruct Hst as [->|[[? _]|[? _]]]; congruence.
Qed.

(** C10: the simulated call always resolves, and no batch of an
    execution is ever failed.  Every triggered batch is held by a
    running call, and
    - the events of that call alone, each of which can happen, bring
      the batch to completed;
    - no other event touches the call: an event that does not settle
      its promise leaves it with the ids it has left, and an event that
      settles its promise takes one id from it, completing the batch
      when that was the last;
    - in every execution without end in which the promises of the call
      are settled in the end (the timers of [simulateApiCall] fire),
      whatever else happens in between, the batch is completed from
      some state on. *)
Theorem batches_complete t0 s :
  reachable t0 s →
  (∀ id, ∃ v, simulateApiCall id = Resolved v) ∧
  (∀ rid i b, batch_at (ingestionStore s) rid i = Some b → status b ≠ failed) ∧
  (∀ rid i b, batch_at (ingestionStore s) rid i = Some b → status b = triggered →
     ∃ k n s' b', run (replicate n (ApiCallSettles k)) s = Some s' ∧
       batch_at (ingestionStore s') rid i = Some b' ∧ status b' = completed) ∧
  (∀ rid i b, batch_at (ingestionStore s) rid i = Some b → status b = triggered →
     ∃ k t, running s !! k = Some t ∧ task_ref t = (rid, i) ∧ task_ids t ≠ [] ∧
       ∀ e s', step e s = Some s' →
         if settles rid i s e
         then (length (task_ids t) = 1 ∧
               ∃ b', batch_at (ingestionStore s') rid i = Some b' ∧
                     status b' = completed) ∨
              (∃ k' t', running s' !! k' = Some t' ∧ task_ref t' = (rid, i) ∧
                        S (length (task_ids t')) = length (task_ids t))
         else ∃ k', running s' !! k' = Some t) ∧
  (∀ sched st rid i b,
     st 0 = s → execution sched st → fair_for rid i sched st →
     batch_at (ingestionStore s) rid i = Some b → status b = triggered →
     ∃ n, ∀ m, n ≤ m →
       ∃ b', batch_at (ingestionStore (st m)) rid i = Some b' ∧
             status b' = completed).
Proof.
  intros Hs. pose proof (inv_reachable t0 s Hs) as Hinv. split_and!.
  - intros id. by eexists.
  - intros rid i b Hb. by apply (inv_batch s Hinv rid i b).
  - intros rid i b Hb Htr.
    destruct (inv_triggered s Hinv rid i b Hb Htr)
      as (t & [k Hk]%list_elem_of_lookup & Href).
    destruct (inv_task s Hinv k t Hk) as (Hne & _).
    destruct (task_ids t) as [|id rest] eqn:Hids; [done|].
    destruct (settle_run (length rest) s k t Hinv Hk) as (s' & b' & Hrun & Hb' & Hst).
    { by rewrite Hids. }
    injection Href as <- <-. by exists k, (S (length rest)), s', b'.
  - intros rid i b Hb Htr.
    destruct (inv_triggered s Hinv rid i b Hb Htr)
      as (t & [k Hk]%list_elem_of_lookup & Href).
    destruct (inv_task s Hinv k t Hk) as (Hne & _).
    exists k, t. split_and!; [done..|]. intros e s' Hstep.
    destruct (settles rid i s e) eqn:Hset.
    + by apply (step_settles_task e s s' rid i k t).
    + by apply (step_keeps_task e s s' rid i k t).
  - intros sched st rid i b H0 Hex Hfair Hb Htr. subst s.
    assert (∀ n, inv (st n)) as Hinvs.
    { intros n. apply (inv_reachable t0). by apply (execution_reachable t0 sched). }
    destruct (inv_triggered (st 0) Hinv rid i b Hb Htr)
      as (t & [k Hk]%list_elem_of_lookup & Href).
    destruct (fair_completes sched st rid i Hinvs Hex Hfair
                (length (task_ids t)) 0 k t Hk Href) as (n & b' & _ & Hb' & Hc); [done|].
    exists n. intros m Hm.
    replace m with (n + (m - n)) by lia.
    by apply (completed_stays sched st rid i Hinvs Hex (m - n) n b').
Qed.

Lemma batches_complete_witness :
  ∃ n, ∀ m, n ≤ m →
    ∃ b', batch_at (ingestionStore (demo_trace m)) "uuid-3" 0 = Some b' ∧
          status b' = completed.
Proof.
  destruct (batches_complete 1000000 demo_state demo_state_reachable)
    as (_ & _ & _ & _ & Hfair).
  apply (Hfair demo_sched demo_trace "uuid-3" 0
           {| batch_id := "uuid-4"; ids := [7%Z]; status := triggered |}).
  - reflexivity.
  - intros [|n]; vm_compute; reflexivity.
  - intros [|n] k t Hk Href.
    + exists 0. split; [lia|]. vm_compute. reflexivity.
    + vm_compute in Hk. discriminate Hk.
  - vm_compute. reflexivity.
  - reflexivity.
Defined.
